(** * Map Memoir front end: coordination logic

    A shallow embedding of the asynchronous glue code of the front end:

    - [backendApi]   : [apiRequest], [fetchAudio], [fetchScript],
                       [checkServerHealth];
    - [StoryService] : [incrementViews] over an abstract Firestore client,
                       and [extractTags];
    - [AudioPlayer]  : the [useAudioPlayer] hook
                       ([playAudio], [stopAudio], [muteAudio], [unmuteAudio]);
    - [GoogleMaps]   : the [useGoogleMaps] hook and its module-level
                       single-flight flag;
    - [Stories]      : the writing methods of [StoryService] over a recorded
                       client, and [handleSave] of the save modal;
    - [AuthContext]  : the authentication listener of [AuthProvider];
    - [App]          : [checkServer] and the handlers of the story wizard;
    - [StoryDisplay] : the play and mute buttons over the hook.

    JavaScript code is written in a state-and-exception monad; an [async]
    function is cut at its [await]s into segments, and the browser
    (network, Web Audio engine, timers, DOM events) drives the segments
    through an explicit event type. *)

From Stdlib Require Import ZArith Lia.
From stdpp Require Import base option list strings pretty gmap.

Local Open Scope Z_scope.
Local Open Scope string_scope.

(** ** JavaScript control effects *)

Module Js.

(** A thrown value ([new Error(message)], or a rejection reason). *)
Record exn : Type := Error { message : string }.

(** How a statement (or a settled promise) completes. *)
Inductive completion (A : Type) : Type :=
  | Normal (a : A)
  | Throw (e : exn).
Arguments Normal {A} a.
Arguments Throw {A} e.

(** Code over a mutable world [W]. *)
Definition M (W A : Type) : Type := W → completion A * W.

Section Ops.
Context {W : Type}.

Definition ret {A} (a : A) : M W A := λ w, (Normal a, w).

Definition bind {A B} (m : M W A) (k : A → M W B) : M W B :=
  λ w, match m w with
       | (Normal a, w') => k a w'
       | (Throw e, w') => (Throw e, w')
       end.

Definition throw {A} (e : exn) : M W A := λ w, (Throw e, w).

(** [try { body } catch (e) { handler e }] *)
Definition try_catch {A} (body : M W A) (handler : exn → M W A) : M W A :=
  λ w, match body w with
       | (Normal a, w') => (Normal a, w')
       | (Throw e, w') => handler e w'
       end.

(** [try { body } finally { fin }] *)
Definition try_finally {A} (body : M W A) (fin : M W unit) : M W A :=
  λ w, match body w with
       | (c, w') =>
           match fin w' with
           | (Normal _, w'') => (c, w'')
           | (Throw e, w'') => (Throw e, w'')
           end
       end.

(** [await p] for a promise the environment has settled with [c]. *)
Definition await {A} (c : completion A) : M W A := λ w, (c, w).

Definition gets {A} (f : W → A) : M W A := λ w, (Normal (f w), w).
Definition modify (f : W → W) : M W unit := λ w, (Normal tt, f w).
End Ops.

End Js.

Import Js.

Declare Scope js_scope.
Delimit Scope js_scope with js.
Notation "x ← y ; z" := (Js.bind y (λ x, z))
  (at level 20, y at level 100, z at level 200, only parsing) : js_scope.
Notation "x ;; z" := (Js.bind x (λ _, z))
  (at level 100, z at level 200, only parsing, right associativity) : js_scope.

(** ** Console and toast notifications *)

Inductive toast : Type :=
| ToastLoading (msg : string)
| ToastSuccess (msg : string)
| ToastError (msg : string).

(** What the user (toasts) and the developer (console) get to see: the
    calls made so far, oldest first. *)
Record ui : Type := Ui { console : list string; toasts : list toast }.

Definition ui_empty : ui := Ui [] [].
Definition ui_log (line : string) (u : ui) : ui :=
  Ui (console u ++ [line]) (toasts u).
Definition ui_toast (t : toast) (u : ui) : ui :=
  Ui (console u) (toasts u ++ [t]).

(** Worlds that carry a [ui]. *)
Class HasUi (W : Type) : Type := {
  get_ui : W → ui;
  map_ui : (ui → ui) → W → W;
}.

Global Instance ui_HasUi : HasUi ui := {| get_ui := id; map_ui := λ f u, f u |}.

Section UiOps.
Context {W : Type} `{HasUi W}.

Definition console_error (line : string) : M W unit := modify (map_ui (ui_log line)).
Definition console_log (line : string) : M W unit := modify (map_ui (ui_log line)).
Definition console_warn (line : string) : M W unit := modify (map_ui (ui_log line)).
Definition toast_loading (msg : string) : M W unit :=
  modify (map_ui (ui_toast (ToastLoading msg))).
Definition toast_success (msg : string) : M W unit :=
  modify (map_ui (ui_toast (ToastSuccess msg))).
Definition toast_error (msg : string) : M W unit :=
  modify (map_ui (ui_toast (ToastError msg))).
End UiOps.

(** ** api/backendApi.js *)

Module backendApi.

(** The part of a [fetch] response the code looks at.  [json_message] is
    the truthy [message] field of the body when the body parses as JSON and
    has one; [arrayBuffer] is how reading the body completes. *)
Record response : Type := Response {
  status : Z;
  json_message : option string;
  arrayBuffer : completion (list N);
}.

(** [response.ok] of the Fetch standard: a status in the range 200-299. *)
Definition ok (r : response) : bool :=
  bool_decide (200 ≤ status r ≤ 299)%Z.

Section Api.
Context {W : Type} `{HasUi W}.
(** [import.meta.env.VITE_API_BASE_URL || "http://localhost:8000"] *)
Variable API_BASE_URL : string.

Local Open Scope js_scope.

(** [apiRequest(endpoint, options)], given how [fetch(url, ...)] settles. *)
Definition apiRequest (endpoint : string) (fetched : completion response)
  : M W response :=
  try_catch
    (response ← await fetched;
     if negb (ok response) then
       throw (Error (default ("HTTP error! status: " +:+ pretty (status response))
                             (json_message response)))
     else ret response)
    (λ error,
       console_error ("API request failed for " +:+ endpoint +:+ ":");;
       throw error).

(** [fetchAudio(script, theme)]: the synchronous prefix, up to the
    [await] inside [apiRequest]. *)
Definition fetchAudio_begin : M W unit :=
  toast_loading "Creating audio narration...".

(** [fetchAudio(script, theme)]: the rest, once the network answered. *)
Definition fetchAudio_resume (fetched : completion response) : M W (list N) :=
  try_catch
    (response ← apiRequest "/generate_audio" fetched;
     (if negb (ok response) then throw (Error "Audio generation failed")
      else ret tt);;
     arrayBuffer ← await (arrayBuffer response);
     toast_success "Audio generated successfully!";;
     ret arrayBuffer)
    (λ error,
       toast_error ("Failed to generate audio: " +:+ message error);;
       throw error).

(** [checkServerHealth()], given how [fetch(`${API_BASE_URL}/health`)]
    settles. *)
Definition checkServerHealth (fetch : string → completion response)
  : M W bool :=
  try_catch
    (response ← await (fetch (API_BASE_URL +:+ "/health"));
     ret (ok response))
    (λ error,
       console_error "Server health check failed:";;
       ret false).

(** [fetchScript(place, theme)]: the synchronous prefix, up to the
    [await] inside [apiRequest]. *)
Definition fetchScript_begin : M W unit :=
  toast_loading "Generating your story...".

(** [fetchScript(place, theme)]: the rest.  [json] is how
    [response.json()] settles and, inside, how reading [.script] off the
    parsed body completes: [Throw] for a [null] body, [None] for a body
    without the field. *)
Definition fetchScript_resume (fetched : completion response)
  (json : completion (completion (option string))) : M W (option string) :=
  try_catch
    (response ← apiRequest "/generate_script" fetched;
     data ← await json;
     toast_success "Story generated successfully!";;
     await data)
    (λ error,
       toast_error ("Failed to generate story: " +:+ message error);;
       throw error).
End Api.

End backendApi.

(** ** services/StoryService.js *)

Module StoryService.

(** The field values the code can meet in a story document. *)
Inductive jsval : Type :=
  | JUndefined
  | JNum (n : Z)
  | JStr (s : string).

(** [v || 0] *)
Definition or_zero (v : jsval) : jsval :=
  match v with
  | JUndefined => JNum 0
  | JNum n => if bool_decide (n = 0) then JNum 0 else JNum n
  | JStr s => if bool_decide (s = "") then JNum 0 else JStr s
  end.

(** [v + 1] *)
Definition plus_one (v : jsval) : jsval :=
  match v with
  | JUndefined => JUndefined (* NaN, which Firestore stores as is *)
  | JNum n => JNum (n + 1)
  | JStr s => JStr (s +:+ "1")
  end.

(** A document snapshot: [None] when [exists()] is false, else [data()]. *)
Definition snapshot : Type := option (gmap string jsval).

(** The Firestore client, as far as [incrementViews] uses it.  Every
    operation may fail and may change the backend [B] in any way. *)
Class Firestore (B : Type) : Type := {
  doc : string → string → B → completion string * B;
  getDoc : string → B → completion snapshot * B;
  updateDoc : string → gmap string jsval → B → completion unit * B;
}.

Record world (B : Type) : Type := World { backend : B; out : ui }.
Arguments World {B} backend out.
Arguments backend {B} w.
Arguments out {B} w.

Global Instance world_HasUi B : HasUi (world B) :=
  {| get_ui := out; map_ui := λ f w, World (backend w) (f (out w)) |}.

Section Service.
Context {B : Type} `{Firestore B}.

(** A call into the Firestore client touches the backend only. *)
Definition firestore {A} (op : B → completion A * B) : M (world B) A :=
  λ w, let '(c, b) := op (backend w) in (c, World b (out w)).

Local Open Scope js_scope.

Definition incrementViews (storyId : string) : M (world B) unit :=
  try_catch
    (storyRef ← firestore (doc "stories" storyId);
     storyDoc ← firestore (getDoc storyRef);
     match storyDoc with
     | Some data =>
         let currentViews := or_zero (default JUndefined (data !! "views")) in
         firestore (updateDoc storyRef {[ "views" := plus_one currentViews ]})
     | None => ret tt
     end)
    (λ error,
       console_error "Error incrementing views:";;
       ret tt).
End Service.

(** An in-memory store whose operations fail on demand: [budget] counts
    the client calls that still succeed. *)
Record mem_store : Type := MemStore {
  stories : gmap string (gmap string jsval);
  budget : nat;
}.

Definition mem_call {A} (op : mem_store → A * gmap string (gmap string jsval))
  (s : mem_store) : completion A * mem_store :=
  match budget s with
  | O => (Throw (Error "unavailable"), s)
  | S n => let '(a, docs) := op s in (Normal a, MemStore docs n)
  end.

Global Instance mem_Firestore : Firestore mem_store := {|
  doc := λ coll id s,
    if bool_decide (id = "") then (Throw (Error "invalid document reference"), s)
    else (Normal id, s);
  getDoc := λ ref, mem_call (λ s, (stories s !! ref, stories s));
  updateDoc := λ ref fields,
    mem_call (λ s, (tt, alter (λ d, fields ∪ d) ref (stories s)));
|}.

(** A store with one story viewed four times, in which the next [n] client
    calls succeed. *)
Definition sample_world (n : nat) : world mem_store :=
  World (MemStore {[ "story-1" := {[ "views" := JNum 4 ]} ]} n) ui_empty.

(** What a run of [incrementViews] leaves behind: how it completed, the
    view count of the sample story, the console lines and the toasts. *)
Definition report (r : completion unit * world mem_store)
  : completion unit * option jsval * nat * list toast :=
  (r.1, stories (backend r.2) !! "story-1" ≫= (λ d, d !! "views"),
   length (console (out r.2)), toasts (out r.2)).

(** *** extractTags *)

(** A JavaScript string: its UTF-16 code units. *)
Definition jsstring : Type := list N.

(** The code units of an ASCII literal. *)
Definition units (s : string) : jsstring :=
  (λ a, Ascii.N_of_ascii a) <$> String.list_ascii_of_string s.

(** [\s] of a regular expression: the white space and line terminator
    code points of ECMAScript. *)
Definition is_space (c : N) : bool :=
  ((9 <=? c) && (c <=? 13) || (c =? 32) || (c =? 160) || (c =? 5760)
   || (8192 <=? c) && (c <=? 8202) || (c =? 8232) || (c =? 8233) || (c =? 8239)
   || (c =? 8287) || (c =? 12288) || (c =? 65279))%N.

(** [s.split(/\s+/)]: the pieces between the maximal runs of white space;
    a string that starts or ends with white space gives an empty first or
    last piece.  [in_run] tells that the previous unit was white space,
    [piece] is the piece read so far. *)
Fixpoint split_go (in_run : bool) (piece : jsstring) (s : jsstring) : list jsstring :=
  match s with
  | [] => [piece]
  | c :: s' =>
      if is_space c then
        if in_run then split_go true [] s' else piece :: split_go true [] s'
      else split_go false (piece ++ [c])%list s'
  end.
Definition split_ws (s : jsstring) : list jsstring := split_go false [] s.

(** [s.replace(/\s+/g, '-')] *)
Fixpoint dash_go (in_run : bool) (s : jsstring) : jsstring :=
  match s with
  | [] => []
  | c :: s' =>
      if is_space c then
        if in_run then dash_go true s' else 45%N :: dash_go true s'
      else c :: dash_go false s'
  end.
Definition dash (s : jsstring) : jsstring := dash_go false s.

(** [[...new Set(l)]]: the elements in the order of their first
    occurrence; [seen] is the set so far. *)
Fixpoint uniq_go (seen : list jsstring) (l : list jsstring) : list jsstring :=
  match l with
  | [] => []
  | x :: l =>
      if bool_decide (x ∈ seen) then uniq_go seen l else x :: uniq_go (x :: seen) l
  end.
Definition uniq (l : list jsstring) : list jsstring := uniq_go [] l.

Definition commonWords : list jsstring :=
  units <$> ["the"; "and"; "or"; "but"; "in"; "on"; "at"; "to"; "for"; "of"; "with"; "by"].

(** [word.length > 3 && !commonWords.has(word)] *)
Definition keeps (word : jsstring) : bool :=
  bool_decide (3 < length word)%nat && negb (bool_decide (word ∈ commonWords)).

Definition spaceless (w : jsstring) : Prop := Forall (λ c, is_space c = false) w.

Section ExtractTags.
(** [String.prototype.toLowerCase] *)
Variable toLowerCase : jsstring → jsstring.

(** [placeName.toLowerCase().replace(/\s+/g, '-')] *)
Definition placeTag (placeName : jsstring) : jsstring := dash (toLowerCase placeName).

(** The first five words that pass the filter. *)
Definition wordTags (content : jsstring) : list jsstring :=
  take 5 (filter (λ w, keeps w = true) (split_ws (toLowerCase content))).

(** [extractTags(content, placeName)]; [None] is [undefined] or [null]. *)
Definition extractTags (content placeName : option jsstring) : list jsstring :=
  match content with
  | None | Some [] => []
  | Some content =>
      let tags := wordTags content in
      let tags :=
        match placeName with
        | None | Some [] => tags
        | Some placeName => placeTag placeName :: tags
        end in
      uniq tags
  end.
End ExtractTags.

(** Lower case for the letters A-Z, every other unit kept. *)
Definition ascii_lower (s : jsstring) : jsstring :=
  (λ c, if (65 <=? c) && (c <=? 90) then c + 32 else c)%N <$> s.

(** A story and the name of its place. *)
Definition sample_content : option jsstring :=
  Some (units "The Golden Gate bridge spans the strait with golden light").
Definition sample_placeName : option jsstring := Some (units "Golden  Gate").

End StoryService.

(** ** hooks/useAudioPlayer.js *)

Module AudioPlayer.

Import backendApi.

(** An [AudioBufferSourceNode]: [Unstarted] after [createBufferSource()],
    [Sounding] after [start()], [Halted] once [stop()] was called on it and
    its [ended] event is still to be dispatched, [Finished] once [ended] was
    dispatched. *)
Inductive source_state : Type := Unstarted | Sounding | Halted | Finished.

Global Instance source_state_eq_dec : EqDecision source_state.
Proof. solve_decision. Defined.

(** [audioContext.state] *)
Inductive context_state : Type := Suspended | Running.

(** A decoded [AudioBuffer]: its samples. *)
Definition AudioBuffer : Type := list Z.

(** What a [playAudio] closure made by [useCallback] captured from the
    render that created it. *)
Record closure : Type := Closure { cl_isPlaying : bool; cl_isMuted : bool }.

(** One instance of the hook: its four [useState] cells, its three refs and
    the memoised [playAudio].  The hook creates at most one [AudioContext]
    and one [GainNode], so each ref holds the state of its object:
    [audioContextRef] the context's [state], [gainNodeRef] the node's
    [gain.value]; [sourceRef] holds the identity of a source node. *)
Record hook : Type := Hook {
  isPlaying : bool;
  isLoading : bool;
  isMuted : bool;
  currentAudio : option AudioBuffer;
  audioContextRef : option context_state;
  sourceRef : option nat;
  gainNodeRef : option Z;
  playAudio_cb : closure;
}.

(** Where an invocation of the async [playAudio] stands. *)
Inductive phase : Type :=
| Fetching                          (* await fetchAudio(script, theme) *)
| Resuming (audioBuffer : list N)   (* await audioContext.resume() *)
| Decoding                          (* await audioContext.decodeAudioData(audioBuffer) *)
| Settled (c : completion unit).    (* the returned promise is settled *)

Record call : Type := Call {
  call_script : string;
  call_theme : string;
  call_isMuted : bool;              (* [isMuted] as the invoked closure saw it *)
  call_phase : phase;
}.

(** The hook together with the browser around it: every source node ever
    created (a node's identity is its index), every invocation of
    [playAudio] (likewise), and the console and toasts. *)
Record world : Type := World {
  hk : hook;
  sources : list source_state;
  calls : list call;
  out : ui;
}.

Definition set_isPlaying (b : bool) (h : hook) : hook :=
  Hook b (isLoading h) (isMuted h) (currentAudio h)
       (audioContextRef h) (sourceRef h) (gainNodeRef h) (playAudio_cb h).
Definition set_isLoading (b : bool) (h : hook) : hook :=
  Hook (isPlaying h) b (isMuted h) (currentAudio h)
       (audioContextRef h) (sourceRef h) (gainNodeRef h) (playAudio_cb h).
Definition set_isMuted (b : bool) (h : hook) : hook :=
  Hook (isPlaying h) (isLoading h) b (currentAudio h)
       (audioContextRef h) (sourceRef h) (gainNodeRef h) (playAudio_cb h).
Definition set_currentAudio (a : option AudioBuffer) (h : hook) : hook :=
  Hook (isPlaying h) (isLoading h) (isMuted h) a
       (audioContextRef h) (sourceRef h) (gainNodeRef h) (playAudio_cb h).
Definition set_audioContextRef (c : option context_state) (h : hook) : hook :=
  Hook (isPlaying h) (isLoading h) (isMuted h) (currentAudio h)
       c (sourceRef h) (gainNodeRef h) (playAudio_cb h).
Definition set_sourceRef (s : option nat) (h : hook) : hook :=
  Hook (isPlaying h) (isLoading h) (isMuted h) (currentAudio h)
       (audioContextRef h) s (gainNodeRef h) (playAudio_cb h).
Definition set_gainNodeRef (g : option Z) (h : hook) : hook :=
  Hook (isPlaying h) (isLoading h) (isMuted h) (currentAudio h)
       (audioContextRef h) (sourceRef h) g (playAudio_cb h).
Definition set_playAudio_cb (c : closure) (h : hook) : hook :=
  Hook (isPlaying h) (isLoading h) (isMuted h) (currentAudio h)
       (audioContextRef h) (sourceRef h) (gainNodeRef h) c.

Definition map_hk (f : hook → hook) (w : world) : world :=
  World (f (hk w)) (sources w) (calls w) (out w).
Definition set_sources (l : list source_state) (w : world) : world :=
  World (hk w) l (calls w) (out w).
Definition set_calls (l : list call) (w : world) : world :=
  World (hk w) (sources w) l (out w).

Global Instance world_HasUi : HasUi world :=
  {| get_ui := out; map_ui := λ f w, World (hk w) (sources w) (calls w) (f (out w)) |}.

(** *** The Web Audio engine *)

(** [audioContext.createBufferSource()] *)
Definition createBufferSource : M world nat :=
  λ w, (Normal (length (sources w)), set_sources (sources w ++ [Unstarted]) w).

(** [source.start()]: an [InvalidStateError] when called twice. *)
Definition source_start (s : nat) : M world unit :=
  λ w, match sources w !! s with
       | Some Unstarted => (Normal tt, set_sources (<[s:=Sounding]> (sources w)) w)
       | _ => (Throw (Error "InvalidStateError"), w)
       end.

(** [source.stop()]: an [InvalidStateError] before [start()]. *)
Definition source_stop (s : nat) : M world unit :=
  λ w, match sources w !! s with
       | Some Sounding => (Normal tt, set_sources (<[s:=Halted]> (sources w)) w)
       | Some Halted | Some Finished => (Normal tt, w)
       | Some Unstarted | None => (Throw (Error "InvalidStateError"), w)
       end.

(** *** The hook's functions *)

Section Hook.
Local Open Scope js_scope.

Definition setIsPlaying (b : bool) : M world unit := modify (map_hk (set_isPlaying b)).
Definition setIsLoading (b : bool) : M world unit := modify (map_hk (set_isLoading b)).
Definition setIsMuted (b : bool) : M world unit := modify (map_hk (set_isMuted b)).
Definition setCurrentAudio (a : option AudioBuffer) : M world unit :=
  modify (map_hk (set_currentAudio a)).

Definition muteAudio : M world unit :=
  gainNode ← gets (λ w, gainNodeRef (hk w));
  match gainNode with
  | Some _ =>
      modify (map_hk (set_gainNodeRef (Some 0)));;
      setIsMuted true
  | None => ret tt
  end.

Definition unmuteAudio : M world unit :=
  gainNode ← gets (λ w, gainNodeRef (hk w));
  match gainNode with
  | Some _ =>
      modify (map_hk (set_gainNodeRef (Some 1)));;
      setIsMuted false
  | None => ret tt
  end.

Definition stopAudio : M world unit :=
  current ← gets (λ w, sourceRef (hk w));
  match current with
  | Some source =>
      try_catch
        (source_stop source;;
         console_log "here")
        (λ error, ret tt (* Source may already be stopped *));;
      modify (map_hk (set_sourceRef None))
  | None => ret tt
  end;;
  setIsPlaying false;;
  setCurrentAudio None.

(** [source.onended] *)
Definition onended : M world unit :=
  setIsPlaying false;;
  setCurrentAudio None;;
  modify (map_hk (set_sourceRef None)).

(** [playAudio(script, theme)] up to its first [await]: settled when it
    returned at the toggle, [Fetching] when it is suspended at
    [await fetchAudio(script, theme)], whose synchronous prefix has run. *)
Definition playAudio_begin (cl : closure) : M world phase :=
  if cl_isPlaying cl then
    stopAudio;;
    ret (Settled (Normal tt))
  else
    setIsLoading true;;
    fetchAudio_begin;;
    ret Fetching.

(** The [try] block from [await fetchAudio] to the next [await];
    [constructed] is how [new AudioContext()] completes, should it run. *)
Definition playAudio_fetched (fetched : completion response)
  (constructed : completion context_state) : M world (option phase) :=
  audioBuffer ← fetchAudio_resume fetched;
  existing ← gets (λ w, audioContextRef (hk w));
  match existing with
  | None =>
      fresh ← await constructed;
      modify (map_hk (set_audioContextRef (Some fresh)))
  | Some _ => ret tt
  end;;
  audioContext ← gets (λ w, audioContextRef (hk w));
  match audioContext with
  | Some Suspended => ret (Some (Resuming audioBuffer))
  | _ => ret (Some Decoding)
  end.

(** The [try] block from [await audioContext.resume()] to the next [await]. *)
Definition playAudio_resumed (resumed : completion unit) : M world (option phase) :=
  await resumed;;
  modify (map_hk (set_audioContextRef (Some Running)));;
  ret (Some Decoding).

(** The [try] block from [await audioContext.decodeAudioData(audioBuffer)]
    to its end; [isMuted] is the closure's. *)
Definition playAudio_decoded (isMuted : bool) (decoded : completion AudioBuffer)
  : M world (option phase) :=
  decodedBuffer ← await decoded;
  source ← createBufferSource;
  gainNode ← gets (λ w, gainNodeRef (hk w));
  match gainNode with
  | None => modify (map_hk (set_gainNodeRef (Some 1)))
  | Some _ => ret tt
  end;;
  modify (map_hk (set_gainNodeRef (Some (if isMuted then 0 else 1))));;
  modify (map_hk (set_sourceRef (Some source)));;
  setCurrentAudio (Some decodedBuffer);;
  setIsPlaying true;;
  source_start source;;
  ret None.

Definition playAudio_catch (error : exn) : M world unit :=
  console_error "Audio playback error:";;
  toast_error "Failed to play audio narration";;
  setIsPlaying false.

Definition playAudio_finally : M world unit :=
  setIsLoading false;;
  console_log "finally".

(** A segment of the [try] block under its [catch] and [finally]: the
    segment ends at an [await] ([Some] phase) or at the end of the block
    ([None]); [finally] runs when the function is left. *)
Definition playAudio_try (segment : M world (option phase)) (w : world)
  : phase * world :=
  match try_catch segment (λ error, playAudio_catch error;; ret None) w with
  | (Normal (Some suspended), w') => (suspended, w')
  | (Normal None, w') =>
      let '(c, w'') := try_finally (ret tt) playAudio_finally w' in
      (Settled c, w'')
  | (Throw e, w') =>
      let '(c, w'') := try_finally (throw e) playAudio_finally w' in
      (Settled c, w'')
  end.

End Hook.

(** *** Rendering *)

(** [useCallback(..., [isPlaying, stopAudio])]: a render keeps the memoised
    [playAudio] unless [isPlaying] differs from the value it was made with
    ([stopAudio] never changes); a new closure captures the state of the
    render that makes it. *)
Definition render (w : world) : world :=
  let h := hk w in
  if bool_decide (cl_isPlaying (playAudio_cb h) = isPlaying h) then w
  else map_hk (set_playAudio_cb (Closure (isPlaying h) (isMuted h))) w.

(** *** Events *)

Inductive event : Type :=
| CallPlay (script theme : string)
| CallStop
| CallMute
| CallUnmute
| FetchSettled (c : nat) (fetched : completion response)
    (constructed : completion context_state)
| ResumeSettled (c : nat) (resumed : completion unit)
| DecodeSettled (c : nat) (decoded : completion AudioBuffer)
| SourceEnded (s : nat).

Definition with_phase (ph : phase) (k : call) : call :=
  Call (call_script k) (call_theme k) (call_isMuted k) ph.

Definition set_phase (c : nat) (ph : phase) (w : world) : world :=
  set_calls (alter (with_phase ph) c (calls w)) w.

(** Resume invocation [c] of [playAudio] with [segment], then render. *)
Definition resume_call (c : nat) (segment : M world (option phase)) (w : world) : world :=
  let '(ph, w') := playAudio_try segment w in
  render (set_phase c ph w').

(** One task of the event loop, followed by the render it causes.  [None]
    when the browser cannot deliver the event in this world. *)
Definition step (w : world) (e : event) : option world :=
  match e with
  | CallPlay script theme =>
      let cl := playAudio_cb (hk w) in
      let '(c, w') := playAudio_begin cl w in
      let ph := match c with Normal ph => ph | Throw e => Settled (Throw e) end in
      Some (render (set_calls (calls w' ++ [Call script theme (cl_isMuted cl) ph]) w'))
  | CallStop => Some (render (stopAudio w).2)
  | CallMute => Some (render (muteAudio w).2)
  | CallUnmute => Some (render (unmuteAudio w).2)
  | FetchSettled c fetched constructed =>
      k ← calls w !! c;
      match call_phase k with
      | Fetching => Some (resume_call c (playAudio_fetched fetched constructed) w)
      | _ => None
      end
  | ResumeSettled c resumed =>
      k ← calls w !! c;
      match call_phase k with
      | Resuming _ => Some (resume_call c (playAudio_resumed resumed) w)
      | _ => None
      end
  | DecodeSettled c decoded =>
      k ← calls w !! c;
      match call_phase k with
      | Decoding => Some (resume_call c (playAudio_decoded (call_isMuted k) decoded) w)
      | _ => None
      end
  | SourceEnded s =>
      st ← sources w !! s;
      match st with
      | Sounding | Halted =>
          Some (render (onended (set_sources (<[s:=Finished]> (sources w)) w)).2)
      | _ => None
      end
  end.

Fixpoint run (w : world) (es : list event) : option world :=
  match es with
  | [] => Some w
  | e :: es => w' ← step w e; run w' es
  end.

(** The hook after its first render. *)
Definition init : world :=
  World (Hook false false false None None None None (Closure false false)) [] [] ui_empty.

(** *** Observations *)

(** The session status of the specification. *)
Inductive status : Type := Idle | Loading | Playing.

Definition status_of (w : world) : status :=
  if isPlaying (hk w) then Playing
  else if isLoading (hk w) then Loading
  else Idle.

(** Invocations of [playAudio] whose fetch or decode is still pending. *)
Definition pending_phase (ph : phase) : bool :=
  match ph with Settled _ => false | _ => true end.
Definition pending (k : call) : bool := pending_phase (call_phase k).
Definition live (cs : list call) : list call := filter (λ k, pending k = true) cs.
Definition in_flight (w : world) : list call := live (calls w).

(** Source nodes that are producing output. *)
Definition sounding (w : world) : list nat :=
  filter (λ s, sources w !! s = Some Sounding) (seq 0 (length (sources w))).

(** The gain the listener hears. *)
Definition audible_gain (w : world) : option Z := gainNodeRef (hk w).

(** How [fetchAudio] fails: the request rejects, the status is not 2xx, or
    reading the body rejects. *)
Definition fetch_fails (fetched : completion response) : bool :=
  match fetched with
  | Throw _ => true
  | Normal r =>
      negb (ok r) || match arrayBuffer r with Throw _ => true | Normal _ => false end
  end.

(** The part of the world the session properties speak about: [isPlaying],
    [isLoading], [sourceRef.current], the [isPlaying] the memoised
    [playAudio] sees, the source nodes and the invocations. *)
Definition view : Type := bool * bool * option nat * bool * list source_state * list call.

Definition obs (w : world) : view :=
  (isPlaying (hk w), isLoading (hk w), sourceRef (hk w),
   cl_isPlaying (playAudio_cb (hk w)), sources w, calls w).

(** What a render does to the view. *)
Definition resync (v : view) : view :=
  let '(p, l, s, _, srcs, cs) := v in (p, l, s, p, srcs, cs).

(** The source nodes after [sourceRef.current.stop()], if there is a
    current source. *)
Definition halt_current (w : world) : list source_state :=
  match sourceRef (hk w) with
  | Some s =>
      match sources w !! s with
      | Some Sounding => <[s:=Halted]> (sources w)
      | _ => sources w
      end
  | None => sources w
  end.

(** What a settled [await] does to the view: the invocation is suspended
    again, or it fails (through [catch] and [finally]), or it starts a fresh
    source. *)
Inductive resumed_as (w : world) (c : nat) (w' : world) : Prop :=
| resumed_suspended ph :
    pending_phase ph = true →
    obs w' = (isPlaying (hk w), isLoading (hk w), sourceRef (hk w), isPlaying (hk w),
              sources w, alter (with_phase ph) c (calls w)) →
    resumed_as w c w'
| resumed_failed r :
    obs w' = (false, false, sourceRef (hk w), false,
              sources w, alter (with_phase (Settled r)) c (calls w)) →
    resumed_as w c w'
| resumed_started r :
    obs w' = (true, false, Some (length (sources w)), true,
              (sources w ++ [Sounding])%list, alter (with_phase (Settled r)) c (calls w)) →
    resumed_as w c w'.

(** *** Invariants *)

(** The memoised [playAudio] sees the current [isPlaying]; a source is held
    exactly while playing; at most one invocation is pending, and then the
    hook is loading and not playing. *)
Definition session_inv (v : view) : Prop :=
  let '(p, l, s, cp, srcs, cs) := v in
  cp = p
  ∧ (p = true ↔ is_Some s)
  ∧ (live cs = [] ∨ (length (live cs) = 1%nat ∧ l = true ∧ p = false)).

(** Only the held source sounds; a halted source waits for its [ended]
    event with nothing held and nothing pending; while an invocation is
    pending every source has finished. *)
Definition output_inv (v : view) : Prop :=
  let '(p, l, s, cp, srcs, cs) := v in
  (∀ i, srcs !! i = Some Sounding → s = Some i)
  ∧ (∀ i, srcs !! i ≠ Some Unstarted)
  ∧ (∀ i, srcs !! i = Some Halted → s = None ∧ live cs = [])
  ∧ (live cs ≠ [] → ∀ i st, srcs !! i = Some st → st = Finished).

(** *** Sample traffic *)

Definition wav_response : response := Response 200 None (Normal [82; 73; 70; 70]%N).
Definition error_response : response :=
  Response 503 (Some "TTS backend unavailable") (Normal []).
Definition samples : AudioBuffer := [0; 12; -7; 3]%Z.
Definition request : event := CallPlay "The bridge hummed in the fog." "mystery".
Definition fetched (c : nat) : event := FetchSettled c (Normal wav_response) (Normal Running).
Definition decoded (c : nat) : event := DecodeSettled c (Normal samples).

(** The hook while the first request is being fetched, while it is being
    decoded, and while it plays. *)
Definition loading_world : world :=
  Eval vm_compute in default init (run init [request]).
Definition decoding_world : world :=
  Eval vm_compute in default init (run init [request; fetched 0]).
Definition playing_world : world :=
  Eval vm_compute in default init (run init [request; fetched 0; decoded 0]).

(** The hook after a mute while playing, a toggle and a new playback; and
    after the first request failed at the server. *)
Definition muted_replay_world : world :=
  Eval vm_compute in
    default init (run init [request; fetched 0; decoded 0; CallMute; request;
                            request; fetched 2; decoded 2]).
Definition failed_world : world :=
  Eval vm_compute in
    default init (run init [request;
                            FetchSettled 0 (Normal error_response) (Normal Running)]).

(** The invocation of [playAudio] that failed in [failed_world]. *)
Definition failed_call : call :=
  Eval vm_compute in default (Call "" "" false Fetching) (calls failed_world !! 0%nat).

(** Events that deliver a failure to a pending invocation. *)
Definition is_failure (e : event) : bool :=
  match e with
  | FetchSettled _ fetched _ => fetch_fails fetched
  | ResumeSettled _ (Throw _) => true
  | DecodeSettled _ (Throw _) => true
  | _ => false
  end.

(** Whatever the caller does: the memoised [playAudio] sees the current
    [isPlaying], and a source is held while playing. *)
Definition held_inv (v : view) : Prop :=
  let '(p, l, s, cp, srcs, cs) := v in
  cp = p ∧ (p = true → is_Some s).

(** *** Disciplines of the caller *)

(** [play] is not requested while the status is [Loading] (the play button
    of [StoryDisplay] is disabled while [isLoadingAudio]). *)
Definition exclusive (w : world) (e : event) : bool :=
  match e with
  | CallPlay _ _ => isPlaying (hk w) || negb (isLoading (hk w))
  | _ => true
  end.

(** The [ended] event of every halted source has been dispatched by the time
    a new playback is requested. *)
Definition prompt (w : world) (e : event) : bool :=
  match e with
  | CallPlay _ _ =>
      isPlaying (hk w) || forallb (λ s, negb (bool_decide (s = Halted))) (sources w)
  | _ => true
  end.

Definition orderly (w : world) (e : event) : bool := exclusive w e && prompt w e.

Definition unrestricted (w : world) (e : event) : bool := true.

(** A run all of whose events the discipline allows. *)
Fixpoint guarded_run (allowed : world → event → bool) (w : world) (es : list event)
  : option world :=
  match es with
  | [] => Some w
  | e :: es => if allowed w e then w' ← step w e; guarded_run allowed w' es else None
  end.

(** *** The status machine *)

(** The statuses an event can lead to from status [s], in runs that keep to
    [exclusive]; empty where such runs cannot deliver the event. *)
Definition next_status (s : status) (e : event) : list status :=
  match e, s with
  | CallPlay _ _, Idle => [Loading]
  | CallPlay _ _, Playing => [Idle]
  | CallPlay _ _, Loading => []
  | CallStop, Playing => [Idle]
  | CallStop, s => [s]
  | (CallMute | CallUnmute), s => [s]
  | (FetchSettled _ _ _ | ResumeSettled _ _), Loading => [Loading; Idle]
  | DecodeSettled _ (Normal _), Loading => [Playing]
  | DecodeSettled _ (Throw _), Loading => [Idle]
  | (FetchSettled _ _ _ | ResumeSettled _ _ | DecodeSettled _ _), _ => []
  | SourceEnded _, Playing => [Idle]
  | SourceEnded _, s => [s]
  end.

(** While the hook reports loading, an invocation is pending. *)
Definition busy_inv (v : view) : Prop :=
  let '(p, l, s, cp, srcs, cs) := v in
  l = true → live cs ≠ [].

(** *** Notifications *)

(** The error [fetchAudio] rejects with when [fetch_fails]. *)
Definition fetch_error (fetched : completion response) : exn :=
  match fetched with
  | Throw e => e
  | Normal r =>
      if ok r then
        match arrayBuffer r with Throw e => e | Normal _ => Error "" end
      else Error (default ("HTTP error! status: " +:+ pretty (backendApi.status r))
                          (json_message r))
  end.

(** The toasts an event makes the hook show, oldest first. *)
Definition notifications (w : world) (e : event) : list toast :=
  match e with
  | CallPlay _ _ =>
      if cl_isPlaying (playAudio_cb (hk w)) then []
      else [ToastLoading "Creating audio narration..."]
  | FetchSettled _ fetched constructed =>
      if fetch_fails fetched then
        [ToastError ("Failed to generate audio: " +:+ message (fetch_error fetched));
         ToastError "Failed to play audio narration"]
      else
        ToastSuccess "Audio generated successfully!" ::
        match audioContextRef (hk w), constructed with
        | None, Throw _ => [ToastError "Failed to play audio narration"]
        | _, _ => []
        end
  | ResumeSettled _ (Throw _) | DecodeSettled _ (Throw _) =>
      [ToastError "Failed to play audio narration"]
  | _ => []
  end.

(** Every invocation of [playAudio] that has settled resolved. *)
Definition resolved_inv (w : world) : Prop :=
  ∀ c k r, calls w !! c = Some k → call_phase k = Settled r → r = Normal tt.

(** *** Mute and the memoised [playAudio] *)

(** [mute] and [unmute] are requested only while the status is [Playing]. *)
Definition mute_when_playing (w : world) (e : event) : bool :=
  match e with
  | CallMute | CallUnmute => isPlaying (hk w)
  | _ => true
  end.

Definition attentive (w : world) (e : event) : bool :=
  exclusive w e && mute_when_playing w e.

(** The gain node, once there, carries the reported flag; the memoised
    [playAudio] of an idle hook and every pending invocation have seen the
    current flag. *)
Definition mute_inv (w : world) : Prop :=
  (gainNodeRef (hk w) = None → isMuted (hk w) = false)
  ∧ (∀ g, gainNodeRef (hk w) = Some g → g = if isMuted (hk w) then 0 else 1)
  ∧ (isPlaying (hk w) = false → cl_isMuted (playAudio_cb (hk w)) = isMuted (hk w))
  ∧ (∀ c k, calls w !! c = Some k → pending k = true → call_isMuted k = isMuted (hk w)).

End AudioPlayer.

(** ** hooks/useGoogleMaps.js *)

Module GoogleMaps.

(** [window.google.maps], as far as the readiness test looks at it: which
    members are attached. *)
Record maps_namespace : Type := MapsNamespace {
  places : bool;
  ControlPosition : bool;
  Marker : bool;
  InfoWindow : bool;
}.

(** [window.google] *)
Record google_namespace : Type := GoogleNamespace { maps : option maps_namespace }.

(** A [<script>] element of the document; [owner] is the load that injected
    it, [None] for an element the page came with. *)
Record script : Type := Script { owner : option nat; src : string }.

Inductive script_status : Type := Requested | Executed | Errored.

(** Who reacts to the shared promise: the hook instance that started the
    load, or one that found it in flight. *)
Inductive reaction : Type := Initiator (caller : nat) | Joiner (caller : nat).

(** One run of the [new Promise(...)] executor: the promise it settles, the
    callers that chained [then]/[catch] on it, its callback name and its
    script element. *)
Record load : Type := Load {
  settled : option (completion unit);
  reactions : list reaction;
  callbackName : string;
  script_state : script_status;
}.

(** The page: the two module-level variables, [window], the document, and
    the event loop's pending timers; [callers] holds the [loaded] state of
    each hook instance. *)
Record page : Type := Page {
  isLoadingGoogleMaps : bool;
  loadPromise : option nat;
  google : option google_namespace;
  callbacks : gmap string nat;        (* window[callbackName] *)
  document : list script;
  loads : list load;
  timeouts : list nat;                (* the 10000 ms timers, oldest first *)
  polls : list nat;                   (* the 100 ms timers *)
  callers : list bool;
  out : ui;
}.

Definition set_isLoadingGoogleMaps (b : bool) (p : page) : page :=
  Page b (loadPromise p) (google p) (callbacks p) (document p) (loads p)
       (timeouts p) (polls p) (callers p) (out p).
Definition set_loadPromise (l : option nat) (p : page) : page :=
  Page (isLoadingGoogleMaps p) l (google p) (callbacks p) (document p) (loads p)
       (timeouts p) (polls p) (callers p) (out p).
Definition set_google (g : option google_namespace) (p : page) : page :=
  Page (isLoadingGoogleMaps p) (loadPromise p) g (callbacks p) (document p) (loads p)
       (timeouts p) (polls p) (callers p) (out p).
Definition set_callbacks (c : gmap string nat) (p : page) : page :=
  Page (isLoadingGoogleMaps p) (loadPromise p) (google p) c (document p) (loads p)
       (timeouts p) (polls p) (callers p) (out p).
Definition set_document (d : list script) (p : page) : page :=
  Page (isLoadingGoogleMaps p) (loadPromise p) (google p) (callbacks p) d (loads p)
       (timeouts p) (polls p) (callers p) (out p).
Definition set_loads (l : list load) (p : page) : page :=
  Page (isLoadingGoogleMaps p) (loadPromise p) (google p) (callbacks p) (document p) l
       (timeouts p) (polls p) (callers p) (out p).
Definition set_timeouts (t : list nat) (p : page) : page :=
  Page (isLoadingGoogleMaps p) (loadPromise p) (google p) (callbacks p) (document p) (loads p)
       t (polls p) (callers p) (out p).
Definition set_polls (t : list nat) (p : page) : page :=
  Page (isLoadingGoogleMaps p) (loadPromise p) (google p) (callbacks p) (document p) (loads p)
       (timeouts p) t (callers p) (out p).
Definition set_callers (c : list bool) (p : page) : page :=
  Page (isLoadingGoogleMaps p) (loadPromise p) (google p) (callbacks p) (document p) (loads p)
       (timeouts p) (polls p) c (out p).

Global Instance page_HasUi : HasUi page :=
  {| get_ui := out;
     map_ui := λ f p,
       Page (isLoadingGoogleMaps p) (loadPromise p) (google p) (callbacks p) (document p)
            (loads p) (timeouts p) (polls p) (callers p) (f (out p)) |}.

(** [haystack.includes(needle)] *)
Fixpoint includes (needle haystack : string) : bool :=
  String.prefix needle haystack
  || match haystack with
     | EmptyString => false
     | String _ rest => includes needle rest
     end.

(** The selector [script[src*="maps.googleapis.com"]]. *)
Definition is_maps_script (s : script) : bool := includes "maps.googleapis.com" (src s).

Definition isFullyLoaded_window (g : option google_namespace) : bool :=
  match g with
  | Some g =>
      match maps g with
      | Some m => places m && ControlPosition m && Marker m && InfoWindow m
      | None => false
      end
  | None => false
  end.

(** [!apiKey || apiKey === 'your_google_maps_api_key_here'], for an
    [apiKey] that is [undefined] ([None]) or a string. *)
Definition invalid_key (apiKey : option string) : bool :=
  match apiKey with
  | None => true
  | Some k => bool_decide (k = "") || bool_decide (k = "your_google_maps_api_key_here")
  end.

Definition reaction_caller (r : reaction) : nat :=
  match r with Initiator c | Joiner c => c end.

Section Hook.
Local Open Scope js_scope.

Definition isFullyLoaded : M page bool := gets (λ p, isFullyLoaded_window (google p)).

(** [setLoaded(b)] of hook instance [caller]. *)
Definition setLoaded (caller : nat) (b : bool) : M page unit :=
  modify (λ p, set_callers (<[caller:=b]> (callers p)) p).

(** [.then(() => { if (isFullyLoaded()) setLoaded(true) })] *)
Definition on_fulfilled (r : reaction) : M page unit :=
  let caller := reaction_caller r in
  ready ← isFullyLoaded;
  if ready then setLoaded caller true else ret tt.

(** [.catch(...)]: only the initiator logs. *)
Definition on_rejected (r : reaction) : M page unit :=
  match r with
  | Initiator caller =>
      console_error "Google Maps load failed:";;
      setLoaded caller false
  | Joiner caller => setLoaded caller false
  end.

Fixpoint for_each {A} (f : A → M page unit) (l : list A) : M page unit :=
  match l with
  | [] => ret tt
  | a :: l => f a;; for_each f l
  end.

Definition react (c : completion unit) : reaction → M page unit :=
  match c with
  | Normal _ => on_fulfilled
  | Throw _ => on_rejected
  end.

(** [resolve()] / [reject(error)] of load [k]: nothing on a settled
    promise; else the promise settles and its reactions run. *)
Definition settle (k : nat) (c : completion unit) : M page unit :=
  l ← gets (λ p, loads p !! k);
  match l with
  | Some l =>
      match settled l with
      | Some _ => ret tt
      | None =>
          modify (λ p, set_loads
            (<[k := Load (Some c) (reactions l) (callbackName l) (script_state l)]> (loads p)) p);;
          for_each (react c) (reactions l)
      end
  | None => ret tt
  end.

(** [loadPromise.then(...).catch(...)] by [r] on promise [k]: on a promise
    already settled the reaction runs in the same turn. *)
Definition subscribe (k : nat) (r : reaction) : M page unit :=
  l ← gets (λ p, loads p !! k);
  match l with
  | Some l =>
      modify (λ p, set_loads
        (<[k := Load (settled l) (reactions l ++ [r]) (callbackName l) (script_state l)]>
           (loads p)) p);;
      match settled l with
      | Some c => react c r
      | None => ret tt
      end
  | None => ret tt
  end.

Definition set_script_state (k : nat) (s : script_status) : M page unit :=
  modify (λ p, set_loads
    (alter (λ l, Load (settled l) (reactions l) (callbackName l) s) k (loads p)) p).

(** [checkReady] of load [k]. *)
Definition checkReady (k : nat) : M page unit :=
  ready ← isFullyLoaded;
  if ready then
    console_log "Google Maps API fully ready";;
    modify (set_isLoadingGoogleMaps false);;
    settle k (Normal tt)
  else
    console_log "Google Maps API not fully ready, checking again...";;
    modify (λ p, set_polls (polls p ++ [k]) p).

(** [window[callbackName]] of load [k]. *)
Definition on_callback (k : nat) (name : string) : M page unit :=
  console_log "Google Maps API callback triggered";;
  modify (λ p, set_callbacks (delete name (callbacks p)) p);;
  checkReady k.

(** [script.onerror] of load [k]. *)
Definition on_script_error (k : nat) (name : string) (error : exn) : M page unit :=
  console_error "Failed to load Google Maps API:";;
  modify (set_isLoadingGoogleMaps false);;
  modify (λ p, set_callbacks (delete name (callbacks p)) p);;
  settle k (Throw error).

(** The 10 second fallback of load [k]. *)
Definition on_timeout (k : nat) : M page unit :=
  loading ← gets isLoadingGoogleMaps;
  if loading then
    console_warn "Google Maps API load timeout";;
    modify (set_isLoadingGoogleMaps false);;
    settle k (Throw (Error "Load timeout"))
  else ret tt.

(** The executor of [new Promise(...)]; returns the new promise. *)
Definition start_load (apiKey : string) (now : N) : M page nat :=
  console_log "Starting Google Maps API load...";;
  modify (λ p, set_document (filter (λ s, is_maps_script s = false) (document p)) p);;
  let callbackName := "initGoogleMaps_" +:+ pretty now in
  k ← gets (λ p, length (loads p));
  let script :=
    Script (Some k) ("https://maps.googleapis.com/maps/api/js?key=" +:+ apiKey
                     +:+ "&libraries=places&callback=" +:+ callbackName) in
  modify (λ p, set_loads (loads p ++ [Load None [] callbackName Requested]) p);;
  modify (λ p, set_callbacks (<[callbackName := k]> (callbacks p)) p);;
  modify (λ p, set_document (document p ++ [script]) p);;
  modify (λ p, set_timeouts (timeouts p ++ [k]) p);;
  ret k.

(** The body of [useEffect] for hook instance [caller]. *)
Definition effect (caller : nat) (apiKey : option string) (now : N) : M page unit :=
  match apiKey with
  | Some key =>
      if invalid_key apiKey then console_warn "Invalid or missing Google Maps API key"
      else
        ready ← isFullyLoaded;
        if ready then
          console_log "Google Maps API already fully loaded";;
          setLoaded caller true
        else
          loading ← gets isLoadingGoogleMaps;
          promise ← gets loadPromise;
          match loading, promise with
          | true, Some k =>
              console_log "Google Maps API already loading, waiting...";;
              subscribe k (Joiner caller)
          | _, _ =>
              modify (set_isLoadingGoogleMaps true);;
              k ← start_load key now;
              modify (set_loadPromise (Some k));;
              subscribe k (Initiator caller)
          end
  | None => console_warn "Invalid or missing Google Maps API key"
  end.

(** [useGoogleMaps(apiKey)] on mount: the first render initialises
    [loaded] from the readiness test, then the effect runs. *)
Definition useGoogleMaps (apiKey : option string) (now : N) : M page nat :=
  initialLoaded ← isFullyLoaded;
  console_log "Initial Google Maps loaded state:";;
  caller ← gets (λ p, length (callers p));
  modify (λ p, set_callers (callers p ++ [initialLoaded]) p);;
  effect caller apiKey now;;
  ret caller.

End Hook.

(** *** Events *)

Inductive event : Type :=
| Mount (apiKey : option string) (now : N)   (* a component calls the hook at time [now] *)
| ScriptCallback (name : string)             (* the SDK script calls [window[name]()] *)
| ScriptError (k : nat) (error : exn)        (* the script element of load [k] fails *)
| TimeoutFires                               (* the oldest 10000 ms timer fires *)
| PollFires (k : nat)                        (* a 100 ms timer of load [k] fires *)
| SdkAttaches (g : option google_namespace). (* the SDK script fills in [window.google] *)

Fixpoint remove_first (k : nat) (l : list nat) : list nat :=
  match l with
  | [] => []
  | x :: l => if bool_decide (x = k) then l else x :: remove_first k l
  end.

Definition step (p : page) (e : event) : option page :=
  match e with
  | Mount apiKey now => Some (useGoogleMaps apiKey now p).2
  | ScriptCallback name =>
      k ← callbacks p !! name;
      Some (on_callback k name (set_script_state k Executed p).2).2
  | ScriptError k error =>
      l ← loads p !! k;
      match script_state l with
      | Requested =>
          Some (on_script_error k (callbackName l) error (set_script_state k Errored p).2).2
      | _ => None
      end
  | TimeoutFires =>
      match timeouts p with
      | k :: rest => Some (on_timeout k (set_timeouts rest p)).2
      | [] => None
      end
  | PollFires k =>
      if bool_decide (k ∈ polls p)
      then Some (checkReady k (set_polls (remove_first k (polls p)) p)).2
      else None
  | SdkAttaches g => Some (set_google g p)
  end.

Fixpoint run (p : page) (es : list event) : option page :=
  match es with
  | [] => Some p
  | e :: es => p' ← step p e; run p' es
  end.

(** A page as the browser hands it over: nothing loaded, no SDK script. *)
Definition fresh : page := Page false None None ∅ [] [] [] [] [] ui_empty.

(** *** Observations *)

(** Loads whose promise is still pending. *)
Definition unsettled (l : load) : bool :=
  match settled l with None => true | Some _ => false end.
Definition in_flight (p : page) : list nat :=
  filter (λ k, unsettled <$> loads p !! k = Some true) (seq 0 (length (loads p))).

(** SDK script tags in the document. *)
Definition maps_scripts (p : page) : list script :=
  filter (λ s, is_maps_script s = true) (document p).

(** The loads whose promise hook instance [caller] is chained on. *)
Definition subscribed (p : page) (caller : nat) : list nat :=
  filter (λ k, match loads p !! k with
               | Some l => existsb (λ r, Nat.eqb (reaction_caller r) caller) (reactions l)
               | None => false
               end = true)
         (seq 0 (length (loads p))).

(** The document after the clean-up of a load, and the script element a
    load injects. *)
Definition strip (doc : list script) : list script :=
  filter (λ s, is_maps_script s = false) doc.

Definition script_of (key : string) (now : N) (k : nat) : script :=
  Script (Some k) ("https://maps.googleapis.com/maps/api/js?key=" +:+ key
                   +:+ "&libraries=places&callback=" +:+ ("initGoogleMaps_" +:+ pretty now)).

(** Code that leaves a part [f] of the page as it was. *)
Definition preserves {A B} (f : page → B) (m : M page A) : Prop :=
  ∀ p, f (m p).2 = f p.

(** *** Sample traffic *)

Definition sdk_ready : option google_namespace :=
  Some (GoogleNamespace (Some (MapsNamespace true true true true))).
Definition valid_key : option string := Some "AIzaSyD-example-key".
Definition placeholder_key : option string := Some "your_google_maps_api_key_here".

(** A load starts at 1000 ms and fails; a retry starts at 3000 ms; the first
    load's timer fires at 11000 ms; a third caller arrives at 11500 ms, before
    the retry's own timer (13000 ms). *)
Definition stale_timeout_trace : list event :=
  [Mount valid_key 1000; ScriptError 0 (Error "net::ERR_FAILED");
   Mount valid_key 3000; TimeoutFires; Mount valid_key 11500].

(** *** Invariants and outcomes *)

(** While the flag is set, the recorded promise is pending; the recorded
    promise is the one of the latest load. *)
Definition flag_inv (p : page) : Prop :=
  (isLoadingGoogleMaps p = true →
   ∃ k l, loadPromise p = Some k ∧ loads p !! k = Some l ∧ settled l = None)
  ∧ (∀ k, loadPromise p = Some k → S k = length (loads p))
  ∧ (loadPromise p = None → loads p = []).

(** Code that turns a hook instance to loaded only when the readiness test
    passes, and leaves [window.google] alone. *)
Definition honest {A} (m : M page A) : Prop :=
  ∀ p, google (m p).2 = google p
       ∧ ∀ i, callers (m p).2 !! i = Some true →
              callers p !! i = Some true ∨ isFullyLoaded_window (google p) = true.

(** The load an event settles, and how: the script's error handler and the
    10 second timer reject, the timer only while the flag is set; the
    script's callback and the 100 ms poll resolve once the readiness test
    passes. *)
Definition settles (p : page) (e : event) : option (nat * completion unit) :=
  match e with
  | ScriptError k error => Some (k, Throw error)
  | TimeoutFires =>
      match timeouts p with
      | k :: _ =>
          if isLoadingGoogleMaps p then Some (k, Throw (Error "Load timeout")) else None
      | [] => None
      end
  | ScriptCallback name =>
      k ← callbacks p !! name;
      if isFullyLoaded_window (google p) then Some (k, Normal tt) else None
  | PollFires k => if isFullyLoaded_window (google p) then Some (k, Normal tt) else None
  | _ => None
  end.

Definition fulfilled (c : completion unit) : bool :=
  match c with Normal _ => true | Throw _ => false end.

(** The [loaded] states after each of [rs] was told [b]. *)
Definition told (b : bool) (cs : list bool) (rs : list reaction) : list bool :=
  foldl (λ cs r, <[reaction_caller r := b]> cs) cs rs.

(** The page after one mount, after the SDK then attached, after two mounts
    in the same tick, and the first load of that page. *)
Definition mounted_page : page := default fresh (run fresh [Mount valid_key 1000]).
Definition attached_page : page :=
  default fresh (run fresh [Mount valid_key 1000; SdkAttaches sdk_ready]).
Definition ready_page : page :=
  default fresh (step attached_page (ScriptCallback "initGoogleMaps_1000")).
Definition shared_page : page :=
  default fresh (run fresh [Mount valid_key 1000; Mount valid_key 1000]).
Definition shared_load : load := default (Load None [] "" Requested) (loads shared_page !! 0%nat).
Definition failed_page : page :=
  default fresh (step shared_page (ScriptError 0 (Error "net::ERR_FAILED"))).

End GoogleMaps.

(** ** services/StoryService.js over a recorded client; SaveStoryButton.jsx *)

Module Stories.

Import StoryService.

(** A value of a written field. *)
Inductive wvalue : Type :=
| WVal (v : jsval)
| WBool (b : bool)
| WServerTimestamp.

(** The part of a place object the code looks at; [None] is [undefined]. *)
Record place : Type := Place {
  name : option jsstring;
  address : option jsstring;
  formatted_address : option jsstring;
}.

(** [storyData] as [handleSave] builds it. *)
Record story_data : Type := StoryData {
  sd_title : jsstring;
  sd_description : jsstring;
  sd_content : option jsstring;
  sd_place : option place;
  sd_theme : option string;
  sd_isPublic : bool;
  sd_customTags : list jsstring;
}.

(** The document [saveStory] adds; its [createdAt] and [updatedAt] are
    server timestamps. *)
Record story_doc : Type := StoryDoc {
  doc_userId : string;
  doc_title : jsstring;
  doc_description : jsstring;
  doc_content : option jsstring;
  doc_place : option place;
  doc_theme : option string;
  doc_isPublic : bool;
  doc_customTags : list jsstring;
  doc_likes : Z;
  doc_views : Z;
  doc_tags : list jsstring;
}.

(** What the service asks of Firestore and Storage. *)
Inductive request : Type :=
| AddStory (d : story_doc)                      (* addDoc(collection(db, 'stories'), story) *)
| AddFavorite (userId storyId : string)         (* addDoc(collection(db, 'favorites'), ...) *)
| UpdateDoc (ref : string) (data : gmap string wvalue)
| DeleteDoc (ref : string)
| GetDoc (ref : string)
| GetFavorites (userId : string)                (* getDocs of the favorites query *)
| UploadBytes (ref : string)
| GetDownloadURL (ref : string)
| DeleteObject (ref : string).

(** The client library and the backend behind it.  The constructors of
    references may throw ([db] or [storage] is [undefined] when Firebase is
    not configured); a request settles as the backend decides, given
    everything asked so far, the request included. *)
Record server : Type := Server {
  collection : string → completion unit;
  doc : string → jsval → completion string;
  ref : string → completion string;
  new_id : list request → completion string;
  done : list request → completion unit;
  snapshot_of : list request → completion snapshot;
  favorites_of : list request → completion (list (string * gmap string jsval));
  url_of : list request → completion string;
}.

Record world : Type := World { sent : list request; out : ui }.

Global Instance world_HasUi : HasUi world :=
  {| get_ui := out; map_ui := λ f w, World (sent w) (f (out w)) |}.

(** An entry of the list [getUserFavorites] returns. *)
Record favorite : Type := Favorite {
  favoriteId : string;
  story : gmap string jsval;
}.

(** [s.trim()] *)
Fixpoint trim_start (s : jsstring) : jsstring :=
  match s with
  | c :: s' => if is_space c then trim_start s' else s
  | [] => []
  end.
Definition trim (s : jsstring) : jsstring := reverse (trim_start (reverse (trim_start s))).

(** [s.split(',')] *)
Fixpoint split_at_go (sep : N) (piece : jsstring) (s : jsstring) : list jsstring :=
  match s with
  | [] => [piece]
  | c :: s' =>
      if (c =? sep)%N then piece :: split_at_go sep [] s'
      else split_at_go sep (piece ++ [c])%list s'
  end.
Definition split_comma (s : jsstring) : list jsstring := split_at_go 44 [] s.

(** [!!v] for a string or [undefined]. *)
Definition truthy (v : option jsstring) : bool :=
  match v with Some (_ :: _) => true | _ => false end.

Section Service.
Variable toLowerCase : jsstring → jsstring.
Variable srv : server.
Local Open Scope js_scope.

(** Ask the backend: the request is recorded and settles. *)
Definition send {A} (answer : list request → completion A) (r : request) : M world A :=
  λ w, let log := (sent w ++ [r])%list in (answer log, World log (out w)).

Definition saveStory (userId : string) (storyData : story_data) : M world string :=
  try_catch
    (let story :=
       StoryDoc userId (sd_title storyData) (sd_description storyData)
         (sd_content storyData) (sd_place storyData) (sd_theme storyData)
         (sd_isPublic storyData) (sd_customTags storyData) 0 0
         (extractTags toLowerCase (sd_content storyData)
            (sd_place storyData ≫= name)) in
     console_log "Saving story to Firestore:";;
     await (collection srv "stories");;
     docRef ← send (new_id srv) (AddStory story);
     console_log "Story saved with ID:";;
     toast_success "Story saved successfully!";;
     ret docRef)
    (λ error,
       console_error "Error saving story:";;
       toast_error "Failed to save story";;
       throw error).

Definition updateStory (storyId : string) (updates : gmap string wvalue) : M world unit :=
  try_catch
    (storyRef ← await (doc srv "stories" (JStr storyId));
     send (done srv) (UpdateDoc storyRef (<["updatedAt" := WServerTimestamp]> updates));;
     toast_success "Story updated successfully!")
    (λ error,
       console_error "Error updating story:";;
       toast_error "Failed to update story";;
       throw error).

Definition deleteStory (storyId : string) : M world unit :=
  try_catch
    (storyRef ← await (doc srv "stories" (JStr storyId));
     send (done srv) (DeleteDoc storyRef);;
     toast_success "Story deleted successfully!")
    (λ error,
       console_error "Error deleting story:";;
       toast_error "Failed to delete story";;
       throw error).

Definition saveAudioFile (storyId : string) : M world string :=
  try_catch
    (audioRef ← await (ref srv ("audio/" +:+ storyId +:+ ".wav"));
     send (done srv) (UploadBytes audioRef);;
     downloadURL ← send (url_of srv) (GetDownloadURL audioRef);
     updateStory storyId {[ "audioUrl" := WVal (JStr downloadURL) ]};;
     ret downloadURL)
    (λ error,
       console_error "Error saving audio file:";;
       toast_error "Failed to save audio file";;
       throw error).

Definition deleteAudioFile (storyId : string) : M world unit :=
  try_catch
    (audioRef ← await (ref srv ("audio/" +:+ storyId +:+ ".wav"));
     send (done srv) (DeleteObject audioRef))
    (λ error, console_error "Error deleting audio file:").

Definition toggleStoryPublic (storyId : string) (isPublic : bool) : M world unit :=
  try_catch
    (updateStory storyId {[ "isPublic" := WBool isPublic ]};;
     toast_success (if isPublic then "Story made public!" else "Story made private!"))
    (λ error,
       console_error "Error toggling story visibility:";;
       toast_error "Failed to update story visibility";;
       throw error).

Definition likeStory (storyId userId : string) : M world unit :=
  try_catch
    (await (collection srv "favorites");;
     send (new_id srv) (AddFavorite userId storyId);;
     storyRef ← await (doc srv "stories" (JStr storyId));
     storyDoc ← send (snapshot_of srv) (GetDoc storyRef);
     match storyDoc with
     | Some data =>
         let currentLikes := or_zero (default JUndefined (data !! "likes")) in
         send (done srv) (UpdateDoc storyRef {[ "likes" := WVal (plus_one currentLikes) ]})
     | None => ret tt
     end;;
     toast_success "Added to favorites!")
    (λ error,
       console_error "Error liking story:";;
       toast_error "Failed to like story";;
       throw error).

(** The [for ... of] loop of [getUserFavorites] over the documents still
    to visit. *)
Fixpoint collect (docs : list (string * gmap string jsval)) (favorites : list favorite)
  : M world (list favorite) :=
  match docs with
  | [] => ret favorites
  | (id, favoriteData) :: docs =>
      storyRef ← await (doc srv "stories" (default JUndefined (favoriteData !! "storyId")));
      storyDoc ← send (snapshot_of srv) (GetDoc storyRef);
      match storyDoc with
      | Some data =>
          collect docs (favorites ++ [Favorite id (data ∪ {[ "id" := JStr storyRef ]})])%list
      | None => collect docs favorites
      end
  end.

Definition getUserFavorites (userId : string) : M world (list favorite) :=
  try_catch
    (await (collection srv "favorites");;
     querySnapshot ← send (favorites_of srv) (GetFavorites userId);
     collect querySnapshot [])
    (λ error,
       console_error "Error fetching favorites:";;
       toast_error "Failed to load favorites";;
       throw error).

End Service.

(** *** SaveStoryButton.jsx *)

(** The state of [SaveStoryModal], the [isModalOpen] of its parent, and
    the client. *)
Record modal : Type := Modal {
  isSaving : bool;
  isPublic : bool;
  title : jsstring;
  description : jsstring;
  customTags : jsstring;
  isModalOpen : bool;
  client : world;
}.

Definition setIsSaving (v : bool) (m : modal) : modal :=
  Modal v (isPublic m) (title m) (description m) (customTags m) (isModalOpen m) (client m).
Definition setIsPublic (v : bool) (m : modal) : modal :=
  Modal (isSaving m) v (title m) (description m) (customTags m) (isModalOpen m) (client m).
Definition setTitle (v : jsstring) (m : modal) : modal :=
  Modal (isSaving m) (isPublic m) v (description m) (customTags m) (isModalOpen m) (client m).
Definition setDescription (v : jsstring) (m : modal) : modal :=
  Modal (isSaving m) (isPublic m) (title m) v (customTags m) (isModalOpen m) (client m).
Definition setCustomTags (v : jsstring) (m : modal) : modal :=
  Modal (isSaving m) (isPublic m) (title m) (description m) v (isModalOpen m) (client m).
Definition setIsModalOpen (v : bool) (m : modal) : modal :=
  Modal (isSaving m) (isPublic m) (title m) (description m) (customTags m) v (client m).
Definition set_client (v : world) (m : modal) : modal :=
  Modal (isSaving m) (isPublic m) (title m) (description m) (customTags m) (isModalOpen m) v.

Global Instance modal_HasUi : HasUi modal :=
  {| get_ui := λ m, out (client m);
     map_ui := λ f m, set_client (map_ui f (client m)) m |}.

(** A call into the service touches the client only. *)
Definition service {A} (call : M world A) : M modal A :=
  λ m, let '(c, w) := call (client m) in (c, set_client w m).

Section Modal.
Variable toLowerCase : jsstring → jsstring.
Variable srv : server.
(** The props: the signed-in user's [uid], the story, the place, the theme. *)
Variable user : option string.
Variable story : option jsstring.
Variable selectedPlace : option place.
Variable theme : option string.
Local Open Scope js_scope.

(** [a || b] on strings that may be [undefined]. *)
Definition or_else (a b : option jsstring) : option jsstring :=
  if truthy a then a else b.

Definition cleanPlace : option place :=
  (λ p, Place (name p) (or_else (address p) (formatted_address p)) None) <$> selectedPlace.

(** [customTags.split(',').map(tag => tag.trim()).filter(Boolean)] *)
Definition tags_of (customTags : jsstring) : list jsstring :=
  filter (λ t, t ≠ []) (trim <$> split_comma customTags).

Definition handleSave : M modal unit :=
  match user with
  | None => toast_error "Please sign in to save stories"
  | Some uid =>
      t ← gets title;
      if bool_decide (trim t = []) then toast_error "Please enter a title for your story"
      else
        modify (setIsSaving true);;
        try_finally
          (try_catch
             (d ← gets description;
              p ← gets isPublic;
              c ← gets customTags;
              let storyData :=
                StoryData (trim t) (trim d) story cleanPlace theme p (tags_of c) in
              console_log "Saving story data:";;
              service (saveStory toLowerCase srv uid storyData);;
              toast_success "Story saved successfully!";;
              modify (setIsModalOpen false);;
              modify (setTitle []);;
              modify (setDescription []);;
              modify (setCustomTags []);;
              modify (setIsPublic false))
             (λ error,
                console_error "Error saving story:";;
                toast_error "Failed to save story. Please try again."))
          (modify (setIsSaving false))
  end.

End Modal.

(** *** Observations *)

Definition is_removal (r : request) : bool :=
  match r with DeleteDoc _ | DeleteObject _ => true | _ => false end.

Definition is_GetDoc (r : request) : bool :=
  match r with GetDoc _ => true | _ => false end.

(** *** Sample traffic *)

(** A backend that accepts everything and knows one story, liked twice. *)
Definition willing : server :=
  Server (λ _, Normal tt)
         (λ _ id, match id with JStr s => Normal s | _ => Throw (Error "invalid reference") end)
         (λ path, Normal path)
         (λ _, Normal "doc-1")
         (λ _, Normal tt)
         (λ _, Normal (Some {[ "likes" := JNum 2 ]}))
         (λ _, Normal [("fav-1", {[ "storyId" := JStr "story-1" ]})])
         (λ _, Normal "https://storage.example/audio/story-1.wav").

(** A backend that accepts everything and knows no story. *)
Definition forgetful : server :=
  Server (collection willing) (doc willing) (ref willing) (new_id willing) (done willing)
         (λ _, Normal None) (favorites_of willing) (url_of willing).

Definition lake : place := Place (Some (units "Lake Tahoe")) None (Some (units "CA, USA")).

(** The modal as opened, with a title typed in. *)
Definition titled : modal :=
  Modal false false (units "  Dawn at the lake ") [] (units "dawn, ,lake") true
        (World [] ui_empty).

(** The favorites of the sample user at the willing backend. *)
Definition sample_favorites : list favorite :=
  match (getUserFavorites willing "user-1" (World [] ui_empty)).1 with
  | Normal favorites => favorites
  | Throw _ => []
  end.

End Stories.

(** ** contexts/AuthContext.jsx *)

Module AuthContext.

Import StoryService.

(** The part of a Firebase user the provider looks at; [None] is [null]. *)
Record firebase_user : Type := FirebaseUser {
  uid : string;
  email : option string;
  displayName : option string;
  photoURL : option string;
  isAnonymous : bool;
}.

(** [newProfile]: its [createdAt] and [lastLoginAt] are server timestamps,
    its [preferences] and [stats] the fixed defaults. *)
Record new_profile : Type := NewProfile {
  np_uid : string;
  np_email : option string;
  np_displayName : string;
  np_photoURL : option string;
  np_isAnonymous : bool;
}.

(** [userProfile]: the data of the stored document, or the profile just
    created. *)
Inductive profile : Type :=
| Stored (data : gmap string jsval)
| Created (p : new_profile).

Inductive request : Type :=
| GetDoc (ref : string)
| SetDoc (ref : string) (p : new_profile).

(** The Firestore client: [doc] may throw, a request settles as the
    backend decides, given everything asked so far. *)
Record server : Type := Server {
  doc : string → string → completion string;
  snapshot_of : list request → completion snapshot;
  done : list request → completion unit;
}.

(** The state of [AuthProvider] and what it has asked of Firestore. *)
Record provider : Type := Provider {
  user : option firebase_user;
  loading : bool;
  userProfile : option profile;
  sent : list request;
  out : ui;
}.

Definition setUser (v : option firebase_user) (p : provider) : provider :=
  Provider v (loading p) (userProfile p) (sent p) (out p).
Definition setLoading (v : bool) (p : provider) : provider :=
  Provider (user p) v (userProfile p) (sent p) (out p).
Definition setUserProfile (v : option profile) (p : provider) : provider :=
  Provider (user p) (loading p) v (sent p) (out p).

Global Instance provider_HasUi : HasUi provider :=
  {| get_ui := out;
     map_ui := λ f p, Provider (user p) (loading p) (userProfile p) (sent p) (f (out p)) |}.

(** The provider as first rendered. *)
Definition initial : provider := Provider None true None [] ui_empty.

Section Provider.
Variable srv : server.
(** Whether [db] is defined, that is, whether Firebase is configured. *)
Variable db : bool.
Local Open Scope js_scope.

Definition send {A} (answer : list request → completion A) (r : request) : M provider A :=
  λ p, let log := (sent p ++ [r])%list in
       (answer log, Provider (user p) (loading p) (userProfile p) log (out p)).

(** [v || 'Anonymous User'] *)
Definition or_anonymous (v : option string) : string :=
  match v with
  | Some s => if bool_decide (s = "") then "Anonymous User" else s
  | None => "Anonymous User"
  end.

Definition loadUserProfile (firebaseUser : firebase_user) : M provider unit :=
  try_catch
    (userDocRef ← await (doc srv "users" (uid firebaseUser));
     userDoc ← send (snapshot_of srv) (GetDoc userDocRef);
     match userDoc with
     | Some data => modify (setUserProfile (Some (Stored data)))
     | None =>
         let newProfile :=
           NewProfile (uid firebaseUser) (email firebaseUser)
                      (or_anonymous (displayName firebaseUser))
                      (photoURL firebaseUser) (isAnonymous firebaseUser) in
         send (done srv) (SetDoc userDocRef newProfile);;
         modify (setUserProfile (Some (Created newProfile)))
     end)
    (λ error,
       console_error "Error loading user profile:";;
       toast_error "Failed to load user profile").

(** The listener given to [onAuthStateChanged]. *)
Definition onAuthStateChanged (firebaseUser : option firebase_user) : M provider unit :=
  modify (setUser firebaseUser);;
  match firebaseUser with
  | Some u => if db then loadUserProfile u else modify (setUserProfile None)
  | None => modify (setUserProfile None)
  end;;
  modify (setLoading false).

End Provider.

(** *** Sample traffic *)

Definition guest : firebase_user := FirebaseUser "uid-7" None None None true.

(** A backend without a profile for the guest. *)
Definition empty_backend : server :=
  Server (λ _ id, Normal id) (λ _, Normal None) (λ _, Normal tt).

End AuthContext.

(** ** App.jsx *)

Module App.

Import backendApi.

Inductive server_status : Type := Checking | Online | Offline.

(** The state of [AppContent]; [notices] are the plain [toast(...)] calls,
    oldest first.  A place is known by its name; [story] is [None] when
    [setStory] was given [undefined]. *)
Record app : Type := AppState {
  selectedPlace : option string;
  selectedTheme : option string;
  story : option string;
  videoUrl : option string;
  isGeneratingStory : bool;
  serverStatus : server_status;
  currentStep : Z;
  notices : list string;
  out : ui;
}.

Definition setSelectedPlace (v : option string) (a : app) : app :=
  AppState v (selectedTheme a) (story a) (videoUrl a) (isGeneratingStory a)
           (serverStatus a) (currentStep a) (notices a) (out a).
Definition setSelectedTheme (v : option string) (a : app) : app :=
  AppState (selectedPlace a) v (story a) (videoUrl a) (isGeneratingStory a)
           (serverStatus a) (currentStep a) (notices a) (out a).
Definition setStory (v : option string) (a : app) : app :=
  AppState (selectedPlace a) (selectedTheme a) v (videoUrl a) (isGeneratingStory a)
           (serverStatus a) (currentStep a) (notices a) (out a).
Definition setVideoUrl (v : option string) (a : app) : app :=
  AppState (selectedPlace a) (selectedTheme a) (story a) v (isGeneratingStory a)
           (serverStatus a) (currentStep a) (notices a) (out a).
Definition setIsGeneratingStory (v : bool) (a : app) : app :=
  AppState (selectedPlace a) (selectedTheme a) (story a) (videoUrl a) v
           (serverStatus a) (currentStep a) (notices a) (out a).
Definition setServerStatus (v : server_status) (a : app) : app :=
  AppState (selectedPlace a) (selectedTheme a) (story a) (videoUrl a) (isGeneratingStory a)
           v (currentStep a) (notices a) (out a).
Definition setCurrentStep (v : Z) (a : app) : app :=
  AppState (selectedPlace a) (selectedTheme a) (story a) (videoUrl a) (isGeneratingStory a)
           (serverStatus a) v (notices a) (out a).
Definition add_notice (msg : string) (a : app) : app :=
  AppState (selectedPlace a) (selectedTheme a) (story a) (videoUrl a) (isGeneratingStory a)
           (serverStatus a) (currentStep a) (notices a ++ [msg]) (out a).

Global Instance app_HasUi : HasUi app :=
  {| get_ui := out;
     map_ui := λ f a,
       AppState (selectedPlace a) (selectedTheme a) (story a) (videoUrl a)
                (isGeneratingStory a) (serverStatus a) (currentStep a) (notices a)
                (f (out a)) |}.

(** The component as first rendered. *)
Definition initial : app :=
  AppState None None (Some "") None false Checking 1 [] ui_empty.

Section Handlers.
Variable API_BASE_URL : string.
Local Open Scope js_scope.

(** [checkServer()] of the mount effect, given how the [fetch] of
    [checkServerHealth] settles. *)
Definition checkServer (fetch : string → completion response) : M app unit :=
  try_catch
    (isHealthy ← checkServerHealth API_BASE_URL fetch;
     modify (setServerStatus (if isHealthy then Online else Offline));;
     if negb isHealthy then
       modify (add_notice
         "Backend server is offline. You can still explore the demo with limited functionality.")
     else ret tt)
    (λ error,
       modify (setServerStatus Offline);;
       modify (add_notice
         "Backend server is not available. Some features will be limited.")).

Definition handlePlaceSelect (place : string) : M app unit :=
  console_log "Selected Place:";;
  modify (setSelectedPlace (Some place));;
  modify (setCurrentStep 2);;
  modify (setSelectedTheme None);;
  modify (setStory (Some ""));;
  modify (setVideoUrl None).

(** [handleThemeSelect(theme)] up to its [await]: [true] when it is
    suspended at [await fetchScript(selectedPlace, theme)], [false] when it
    returned at the guard. *)
Definition handleThemeSelect_begin (theme : string) : M app bool :=
  place ← gets selectedPlace;
  match place with
  | None =>
      toast_error "Please select a place first";;
      ret false
  | Some _ =>
      modify (setSelectedTheme (Some theme));;
      modify (setIsGeneratingStory true);;
      modify (setCurrentStep 3);;
      fetchScript_begin;;
      ret true
  end.

(** [handleThemeSelect(theme)] from the [await] on. *)
Definition handleThemeSelect_resume (fetched : completion response)
  (json : completion (completion (option string))) : M app unit :=
  try_finally
    (try_catch
       (generatedStory ← fetchScript_resume fetched json;
        modify (setStory generatedStory);;
        modify (setCurrentStep 4))
       (λ error,
          console_error "Error generating story:";;
          toast_error "Failed to generate story. Please try again.";;
          modify (setCurrentStep 2)))
    (modify (setIsGeneratingStory false)).

(** [!v] for a string or [null]/[undefined]. *)
Definition falsy (v : option string) : bool :=
  match v with None => true | Some s => bool_decide (s = "") end.

(** [handlePlayAudio()]: the arguments it calls [playAudio] with, if it
    does. *)
Definition handlePlayAudio : M app (option (string * string)) :=
  s ← gets story;
  t ← gets selectedTheme;
  if falsy s || falsy t then
    toast_error "No story available to play";;
    ret None
  else ret (Some (default "" s, default "" t)).

End Handlers.

(** *** Events *)

(** The user picks a place or a theme; a pending [fetchScript] settles.
    [pending] counts the invocations of [handleThemeSelect] that wait at
    their [await]. *)
Inductive event : Type :=
| SelectPlace (place : string)
| SelectTheme (theme : string)
| ScriptSettled (fetched : completion response)
    (json : completion (completion (option string))).

Record shell : Type := Shell { state : app; pending : nat }.

Definition step (w : shell) (e : event) : option shell :=
  match e with
  | SelectPlace place => Some (Shell (handlePlaceSelect place (state w)).2 (pending w))
  | SelectTheme theme =>
      match handleThemeSelect_begin theme (state w) with
      | (Normal true, a) => Some (Shell a (S (pending w)))
      | (_, a) => Some (Shell a (pending w))
      end
  | ScriptSettled fetched json =>
      match pending w with
      | S n => Some (Shell (handleThemeSelect_resume fetched json (state w)).2 n)
      | O => None
      end
  end.

Fixpoint run (w : shell) (es : list event) : option shell :=
  match es with
  | [] => Some w
  | e :: es => w' ← step w e; run w' es
  end.

Definition init : shell := Shell initial 0.

(** How [fetchScript] fails: the request fails as for any [apiRequest], or
    the body does not parse, or it is [null]. *)
Definition script_fails (fetched : completion response)
  (json : completion (completion (option string))) : bool :=
  match fetched, json with
  | Normal r, Normal (Normal _) => negb (ok r)
  | _, _ => true
  end.

(** The error [fetchScript] rejects with when [script_fails]. *)
Definition script_error (fetched : completion response)
  (json : completion (completion (option string))) : exn :=
  match fetched with
  | Throw e => e
  | Normal r =>
      if ok r then
        match json with
        | Throw e | Normal (Throw e) => e
        | Normal (Normal _) => Error ""
        end
      else Error (default ("HTTP error! status: " +:+ pretty (status r)) (json_message r))
  end.

(** The toasts one request for a story shows, from the click to the end
    of [handleThemeSelect]. *)
Definition script_toasts (fetched : completion response)
  (json : completion (completion (option string))) : list toast :=
  ToastLoading "Generating your story..." ::
  if script_fails fetched json then
    match fetched, json with
    | Normal r, Normal (Throw _) =>
        if ok r then [ToastSuccess "Story generated successfully!"] else []
    | _, _ => []
    end
    ++ [ToastError ("Failed to generate story: " +:+ message (script_error fetched json));
        ToastError "Failed to generate story. Please try again."]
  else [ToastSuccess "Story generated successfully!"].

(** The script of a body that has one. *)
Definition script_of (json : completion (completion (option string))) : option string :=
  match json with Normal (Normal s) => s | _ => None end.

(** A place, a theme, and the traffic of one story request. *)
Definition sample_place : string := "Golden Gate Bridge".
Definition sample_theme : string := "mystery".
Definition story_response : response := Response 200 None (Normal []).
Definition story_json : completion (completion (option string)) :=
  Normal (Normal (Some "The bridge hummed in the fog.")).
Definition placed : app := (handlePlaceSelect sample_place initial).2.

(** The wizard while the story of the sample place is being generated. *)
Definition generating : shell :=
  Eval vm_compute in
    default init (run init [SelectPlace sample_place; SelectTheme sample_theme]).

(** What the wizard keeps true whatever the user and the network do. *)
Definition wizard_inv (w : shell) : Prop :=
  let a := state w in
  (1 ≤ currentStep a ≤ 4)%Z
  ∧ (currentStep a = 1%Z ↔ selectedPlace a = None)
  ∧ (isGeneratingStory a = true → pending w ≠ 0%nat)
  ∧ (currentStep a = 3%Z → pending w ≠ 0%nat)
  ∧ (pending w ≠ 0%nat → selectedPlace a ≠ None).

End App.

(** ** components/StoryDisplay.jsx *)

Module StoryDisplay.

(** The component's own state. *)
Record local : Type := Local {
  isPlaying : bool;
  isMuted : bool;
  currentAudio : option AudioPlayer.AudioBuffer;
}.

(** The screen: [StoryDisplay], the [AppContent] that renders it and the
    audio hook [AppContent] holds. *)
Record screen : Type := Screen {
  display : local;
  shell : App.app;
  player : AudioPlayer.world;
}.

(** [StoryDisplay] as mounted: [useState(isAudioPlaying)], [useState(mute)],
    [useState(null)]. *)
Definition mount (a : App.app) (w : AudioPlayer.world) : screen :=
  Screen (Local (AudioPlayer.isPlaying (AudioPlayer.hk w))
                (AudioPlayer.isMuted (AudioPlayer.hk w)) None) a w.

(** The [catch] of [handlePlayPause], run when [onPlayAudio()] rejects. *)
Definition onPlayAudio_settled (r : completion unit) (s : screen) : screen :=
  match r with
  | Normal _ => s
  | Throw _ =>
      Screen (Local false (isMuted (display s)) (currentAudio (display s)))
             (map_ui (ui_toast (ToastError "Failed to play audio")) (shell s))
             (player s)
  end.

(** How invocation [c] of [playAudio] settled in the step from [w] to
    [w'], if it did. *)
Definition settled_in (c : nat) (w w' : AudioPlayer.world) : option (completion unit) :=
  let was_pending :=
    match AudioPlayer.calls w !! c with
    | Some k => AudioPlayer.pending k
    | None => true
    end in
  match AudioPlayer.call_phase <$> AudioPlayer.calls w' !! c with
  | Some (AudioPlayer.Settled r) => if was_pending then Some r else None
  | _ => None
  end.

Definition continue (c : nat) (w : AudioPlayer.world) (s : screen) : screen :=
  match settled_in c w (player s) with
  | Some r => onPlayAudio_settled r s
  | None => s
  end.

(** [handlePlayPause()]; [audio] is the hook's [currentAudio] of the
    render the handler belongs to. *)
Definition handlePlayPause (s : screen) : option screen :=
  let d := display s in
  let audio := AudioPlayer.currentAudio (AudioPlayer.hk (player s)) in
  if isPlaying d then
    match currentAudio d with
    | Some _ =>
        w ← AudioPlayer.step (player s) AudioPlayer.CallStop;
        Some (Screen (Local false (isMuted d) None) (shell s) w)
    | None => Some (Screen (Local true (isMuted d) audio) (shell s) (player s))
    end
  else
    let d' := Local true (isMuted d) audio in
    match App.handlePlayAudio (shell s) with
    | (Normal (Some (script, theme)), a) =>
        w ← AudioPlayer.step (player s) (AudioPlayer.CallPlay script theme);
        Some (continue (length (AudioPlayer.calls (player s))) (player s) (Screen d' a w))
    | (_, a) => Some (Screen d' a (player s))
    end.

Definition handleOnMuteAndUnMute (s : screen) : option screen :=
  let d := display s in
  w ← AudioPlayer.step (player s)
        (if isMuted d then AudioPlayer.CallUnmute else AudioPlayer.CallMute);
  Some (Screen (Local (isPlaying d) (negb (isMuted d)) (currentAudio d)) (shell s) w).

(** *** Events *)

(** The user clicks; the browser settles a request of the hook or ends a
    source. *)
Inductive event : Type :=
| ClickPlayPause
| ClickMute
| Browser (e : AudioPlayer.event).

(** The invocation a browser event resumes. *)
Definition resumed (e : AudioPlayer.event) : option nat :=
  match e with
  | AudioPlayer.FetchSettled c _ _ | AudioPlayer.ResumeSettled c _
  | AudioPlayer.DecodeSettled c _ => Some c
  | _ => None
  end.

Definition from_browser (e : AudioPlayer.event) : bool :=
  match e with
  | AudioPlayer.CallPlay _ _ | AudioPlayer.CallStop
  | AudioPlayer.CallMute | AudioPlayer.CallUnmute => false
  | _ => true
  end.

(** The play button is [disabled={isLoadingAudio}]. *)
Definition step (s : screen) (ev : event) : option screen :=
  match ev with
  | ClickPlayPause =>
      if AudioPlayer.isLoading (AudioPlayer.hk (player s)) then None
      else handlePlayPause s
  | ClickMute => handleOnMuteAndUnMute s
  | Browser e =>
      if from_browser e then
        w ← AudioPlayer.step (player s) e;
        let s' := Screen (display s) (shell s) w in
        Some (match resumed e with
              | Some c => continue c (player s) s'
              | None => s'
              end)
      else None
  end.

Fixpoint run (s : screen) (evs : list event) : option screen :=
  match evs with
  | [] => Some s
  | ev :: evs => s' ← step s ev; run s' evs
  end.

(** The screen once the story of the sample place has been generated. *)
Definition story_shown : screen :=
  mount (App.setStory (Some "The bridge hummed in the fog.")
           (App.setSelectedTheme (Some "mystery") App.placed))
        AudioPlayer.init.

(** The screen after a click on play, while the audio is loading; after
    the audio then arrived and plays; and after two clicks on pause. *)
Definition screen_loading : screen :=
  Eval vm_compute in default story_shown (run story_shown [ClickPlayPause]).
Definition screen_playing : screen :=
  Eval vm_compute in
    default story_shown
      (run story_shown [ClickPlayPause; Browser (AudioPlayer.fetched 0);
                        Browser (AudioPlayer.decoded 0)]).

End StoryDisplay.

(** * Properties *)

(** ** Server health check and view counter *)

(** C10: [checkServerHealth] always resolves to a boolean, never rejects;
    the boolean is [true] exactly when the GET of [/health] answered with a
    status in 200-299, and [false] on any other status and on any thrown
    network error. *)
Theorem checkServerHealth_total
  {W : Type} `{HasUi W} (API_BASE_URL : string)
  (fetch : string → completion backendApi.response) (w : W) :
  ∃ (b : bool) (w' : W),
    backendApi.checkServerHealth API_BASE_URL fetch w = (Normal b, w')
    ∧ (b = true ↔ ∃ r, fetch (API_BASE_URL +:+ "/health") = Normal r
                       ∧ backendApi.ok r = true)
    ∧ (∀ r, backendApi.ok r = true ↔ (200 ≤ backendApi.status r ≤ 299)%Z).
Proof.
  unfold backendApi.checkServerHealth, try_catch, bind, await, ret.
  assert (Hok : ∀ r, backendApi.ok r = true ↔ (200 ≤ backendApi.status r ≤ 299)%Z).
  { intros r. unfold backendApi.ok. apply bool_decide_eq_true. }
  destruct (fetch (API_BASE_URL +:+ "/health")) as [r|e] eqn:Hfetch.
  - exists (backendApi.ok r), w. split; [reflexivity | split; [| exact Hok]].
    split.
    + intros Hr. exists r. split; [reflexivity | exact Hr].
    + intros (r' & Hr' & Hr). by inversion Hr'; subst.
  - eexists false, _. split; [reflexivity | split; [| exact Hok]].
    split.
    + intros Hf. discriminate.
    + intros (r' & Hr' & _). discriminate.
Qed.

(** C9: whatever the Firestore client does (each of [doc], [getDoc] and
    [updateDoc] may throw or reject, and may change the backend in any way),
    [incrementViews] completes normally and raises no toast. *)
Theorem incrementViews_swallows
  {B : Type} `{StoryService.Firestore B} (storyId : string) (w : StoryService.world B) :
  ∃ w', StoryService.incrementViews storyId w = (Normal tt, w')
        ∧ toasts (StoryService.out w') = toasts (StoryService.out w).
Proof.
  unfold StoryService.incrementViews, StoryService.firestore, try_catch, bind, ret.
  destruct w as [b o]; cbn.
  destruct (StoryService.doc "stories" storyId b) as [[ref|e] b1]; cbn;
    [| eexists; split; reflexivity].
  destruct (StoryService.getDoc ref b1) as [[[data|]|e] b2]; cbn;
    [| eexists; split; reflexivity | eexists; split; reflexivity].
  destruct (StoryService.updateDoc ref _ b2) as [[[]|e] b3]; cbn;
    eexists; split; reflexivity.
Qed.

(** The counter is incremented when the store answers; a failing [getDoc]
    or [updateDoc], or an invalid reference, is logged and swallowed. *)
Example incrementViews_on_sample_store :
  StoryService.report (StoryService.incrementViews "story-1" (StoryService.sample_world 2))
  = (Normal tt, Some (StoryService.JNum 5), 0%nat, [])
  ∧ StoryService.report (StoryService.incrementViews "story-1" (StoryService.sample_world 1))
    = (Normal tt, Some (StoryService.JNum 4), 1%nat, [])
  ∧ StoryService.report (StoryService.incrementViews "story-1" (StoryService.sample_world 0))
    = (Normal tt, Some (StoryService.JNum 4), 1%nat, [])
  ∧ StoryService.report (StoryService.incrementViews "" (StoryService.sample_world 2))
    = (Normal tt, Some (StoryService.JNum 4), 1%nat, []).
Proof. repeat split; vm_compute; reflexivity. Qed.

(** ** The audio player *)

Module AudioPlayerFacts.

Import AudioPlayer.
Local Open Scope list_scope.
Local Open Scope nat_scope.

Ltac js_unfold :=
  unfold try_catch, try_finally, bind, await, ret, throw, gets, modify,
    console_error, console_log, console_warn, toast_error, toast_success, toast_loading,
    setIsPlaying, setIsLoading, setIsMuted, setCurrentAudio in *.

Ltac crush_world w :=
  destruct w as [[playing loading muted audio ctx src gain cb] srcs cs o].

(** *** The segments of [playAudio] *)

Lemma try_fetched w fetched ctor :
  ∃ ph w', playAudio_try (playAudio_fetched fetched ctor) w = (ph, w')
    ∧ isMuted (hk w') = isMuted (hk w)
    ∧ gainNodeRef (hk w') = gainNodeRef (hk w)
    ∧ playAudio_cb (hk w') = playAudio_cb (hk w)
    ∧ ((match ph with Settled _ | Fetching => False | _ => True end ∧ obs w' = obs w)
       ∨ ((∃ c, ph = Settled c)
          ∧ obs w' = (false, false, sourceRef (hk w), cl_isPlaying (playAudio_cb (hk w)),
                      sources w, calls w)))
    ∧ (fetch_fails fetched = true → ∃ c, ph = Settled c).
Proof.
  crush_world w.
  unfold playAudio_try, playAudio_fetched, playAudio_catch, playAudio_finally,
    backendApi.fetchAudio_resume, backendApi.apiRequest.
  js_unfold. unfold fetch_fails.
  destruct fetched as [r|e]; cbn;
    [destruct (backendApi.ok r) eqn:Hok, (backendApi.arrayBuffer r) eqn:Hbuf; cbn|];
    try (destruct ctx as [[]|], ctor as [[]|]; cbn);
    rewrite ?Hok, ?Hbuf; cbn; rewrite ?Hok, ?Hbuf; cbn;
    eexists _, _; (split; [reflexivity|]); cbn; intuition (eauto; try discriminate).
Qed.

Lemma try_resumed w resumed :
  ∃ ph w', playAudio_try (playAudio_resumed resumed) w = (ph, w')
    ∧ isMuted (hk w') = isMuted (hk w)
    ∧ gainNodeRef (hk w') = gainNodeRef (hk w)
    ∧ playAudio_cb (hk w') = playAudio_cb (hk w)
    ∧ ((ph = Decoding ∧ obs w' = obs w)
       ∨ ((∃ c, ph = Settled c)
          ∧ obs w' = (false, false, sourceRef (hk w), cl_isPlaying (playAudio_cb (hk w)),
                      sources w, calls w)))
    ∧ ((∃ e, resumed = Throw e) → ∃ c, ph = Settled c).
Proof.
  crush_world w.
  unfold playAudio_try, playAudio_resumed, playAudio_catch, playAudio_finally.
  js_unfold.
  destruct resumed as [[]|e]; cbn; eexists _, _; (split; [reflexivity|]); cbn;
    intuition eauto.
  by destruct H as [? ?].
Qed.

Lemma source_start_fresh h srcs cs o :
  source_start (length srcs) (World h (srcs ++ [Unstarted]) cs o)
  = (Normal tt, World h (srcs ++ [Sounding]) cs o).
Proof.
  unfold source_start, set_sources; cbn.
  rewrite list_lookup_middle by reflexivity.
  rewrite insert_app_r_alt by lia.
  by rewrite Nat.sub_diag.
Qed.

Lemma try_decoded w m decoded :
  ∃ c w', playAudio_try (playAudio_decoded m decoded) w = (Settled c, w')
    ∧ isMuted (hk w') = isMuted (hk w)
    ∧ playAudio_cb (hk w') = playAudio_cb (hk w)
    ∧ match decoded with
      | Normal buf =>
          obs w' = (true, false, Some (length (sources w)),
                    cl_isPlaying (playAudio_cb (hk w)), sources w ++ [Sounding], calls w)
          ∧ gainNodeRef (hk w') = Some (if m then 0 else 1)%Z
          ∧ currentAudio (hk w') = Some buf
      | Throw _ =>
          obs w' = (false, false, sourceRef (hk w), cl_isPlaying (playAudio_cb (hk w)),
                    sources w, calls w)
          ∧ gainNodeRef (hk w') = gainNodeRef (hk w)
      end.
Proof.
  crush_world w.
  unfold playAudio_try, playAudio_decoded, playAudio_catch, playAudio_finally, createBufferSource.
  js_unfold.
  destruct decoded as [buf|e]; cbn.
  - destruct gain as [g|]; cbn; unfold map_hk, set_sources; cbn;
      rewrite source_start_fresh; cbn; eexists _, _; (split; [reflexivity|]); cbn; done.
  - eexists _, _; (split; [reflexivity|]); cbn; done.
Qed.

(** *** One step, seen through the view *)

Lemma obs_render w : obs (render w) = resync (obs w).
Proof.
  crush_world w. unfold render, obs, resync; cbn.
  case_bool_decide; cbn; congruence.
Qed.

Lemma obs_stopAudio w :
  obs (stopAudio w).2
  = (false, isLoading (hk w), None, cl_isPlaying (playAudio_cb (hk w)), halt_current w, calls w).
Proof.
  crush_world w. unfold stopAudio, source_stop, halt_current, obs. js_unfold. cbn.
  destruct src as [s|]; cbn; [|done].
  destruct (srcs !! s) as [[]|]; cbn; done.
Qed.

Lemma step_CallStop w w' :
  step w CallStop = Some w' →
  obs w' = (false, isLoading (hk w), None, false, halt_current w, calls w).
Proof.
  intros [= <-]. by rewrite obs_render, obs_stopAudio.
Qed.

Lemma step_CallPlay w script theme w' :
  step w (CallPlay script theme) = Some w' →
  let cl := playAudio_cb (hk w) in
  if cl_isPlaying cl then
    obs w' = (false, isLoading (hk w), None, false, halt_current w,
              calls w ++ [Call script theme (cl_isMuted cl) (Settled (Normal tt))])
  else
    obs w' = (isPlaying (hk w), true, sourceRef (hk w), isPlaying (hk w), sources w,
              calls w ++ [Call script theme (cl_isMuted cl) Fetching]).
Proof.
  unfold step, playAudio_begin. cbn.
  destruct (cl_isPlaying (playAudio_cb (hk w))) eqn:Hcl.
  - unfold bind at 1. unfold ret.
    pose proof (obs_stopAudio w) as Hs.
    destruct (stopAudio w) as [[[]|e] w1] eqn:Hstop; cbn in *.
    + intros [= <-]. rewrite obs_render. unfold obs in *; cbn in *.
      injection Hs as -> -> -> _ -> ->. done.
    + exfalso. revert Hstop. crush_world w. unfold stopAudio, source_stop. js_unfold. cbn.
      destruct src as [s|]; cbn; [|done]. destruct (srcs !! s) as [[]|]; cbn; done.
  - intros [= <-]. rewrite obs_render. crush_world w. done.
Qed.

Lemma step_mute w e w' :
  e = CallMute ∨ e = CallUnmute →
  step w e = Some w' → obs w' = resync (obs w).
Proof.
  intros [-> | ->] [= <-]; rewrite obs_render; f_equal;
    crush_world w; unfold muteAudio, unmuteAudio; js_unfold; cbn; by destruct gain.
Qed.

Lemma step_SourceEnded w s w' :
  step w (SourceEnded s) = Some w' →
  (sources w !! s = Some Sounding ∨ sources w !! s = Some Halted)
  ∧ obs w' = (false, isLoading (hk w), None, false, <[s:=Finished]> (sources w), calls w).
Proof.
  unfold step. destruct (sources w !! s) as [[]|] eqn:Hs; cbn; try done.
  all: intros [= <-]; split; [by auto|]; rewrite obs_render; crush_world w; done.
Qed.

Lemma obs_set_phase c ph w :
  obs (set_phase c ph w)
  = (isPlaying (hk w), isLoading (hk w), sourceRef (hk w), cl_isPlaying (playAudio_cb (hk w)),
     sources w, alter (with_phase ph) c (calls w)).
Proof. by crush_world w. Qed.

Lemma step_settled w e c w' :
  (∃ f k, e = FetchSettled c f k) ∨ (∃ r, e = ResumeSettled c r) ∨ (∃ d, e = DecodeSettled c d) →
  step w e = Some w' →
  (∃ k, calls w !! c = Some k ∧ pending k = true) ∧ resumed_as w c w'.
Proof.
  intros [(f & k0 & ->) | [(r & ->) | (d & ->)]]; unfold step, resume_call; cbn;
    destruct (calls w !! c) as [k|] eqn:Hk; cbn; try done;
    unfold pending; destruct (call_phase k) eqn:Hph; try done.
  - destruct (try_fetched w f k0) as (ph & w1 & -> & _ & _ & _ & Hobs & _).
    cbn. intros [= <-]. split; [exists k; by rewrite Hph|].
    destruct Hobs as [[Hph' Hobs] | [[r ->] Hobs]]; unfold obs in Hobs.
    + eapply resumed_suspended with (ph := ph); [by destruct ph|].
      rewrite obs_render, obs_set_phase. cbn. congruence.
    + eapply resumed_failed with (r := r).
      rewrite obs_render, obs_set_phase. cbn. congruence.
  - destruct (try_resumed w r) as (ph & w1 & -> & _ & _ & _ & Hobs & _).
    cbn. intros [= <-]. split; [exists k; by rewrite Hph|].
    destruct Hobs as [[-> Hobs] | [[r' ->] Hobs]]; unfold obs in Hobs.
    + eapply resumed_suspended with (ph := Decoding); [done|].
      rewrite obs_render, obs_set_phase. cbn. congruence.
    + eapply resumed_failed with (r := r').
      rewrite obs_render, obs_set_phase. cbn. congruence.
  - destruct (try_decoded w (call_isMuted k) d) as (r & w1 & -> & _ & _ & Hobs).
    cbn. intros [= <-]. split; [exists k; by rewrite Hph|].
    destruct d as [buf|e]; destruct Hobs as [Hobs _]; unfold obs in Hobs.
    + eapply resumed_started with (r := r).
      rewrite obs_render, obs_set_phase. cbn. congruence.
    + eapply resumed_failed with (r := r).
      rewrite obs_render, obs_set_phase. cbn. congruence.
Qed.

(** *** Preservation of the invariants *)

Lemma live_snoc cs k :
  live (cs ++ [k]) = live cs ++ (if pending k then [k] else []).
Proof.
  unfold live. rewrite filter_app. f_equal. rewrite filter_cons, filter_nil.
  destruct (pending k); by case_decide.
Qed.

Lemma live_alter cs c k ph :
  cs !! c = Some k → pending k = true →
  (length (live (alter (with_phase ph) c cs)) + 1
   = length (live cs) + (if pending_phase ph then 1 else 0))%nat.
Proof.
  unfold live. revert c. induction cs as [|k0 cs IH]; intros [|c] Hk Hp; simplify_eq/=.
  - rewrite (filter_cons_True _ k) by done.
    destruct (pending_phase ph) eqn:E.
    + rewrite filter_cons_True by done. cbn. lia.
    + rewrite filter_cons_False by (unfold pending; cbn; rewrite E; done). cbn. lia.
  - rewrite !filter_cons. specialize (IH c Hk Hp).
    case_decide; cbn; lia.
Qed.

Lemma live_nil_no_pending cs c k :
  live cs = [] → cs !! c = Some k → pending k = true → False.
Proof.
  intros Hl Hk Hp.
  assert (k ∈ live cs) as Hin.
  { apply list_elem_of_filter. split; [done|]. by eapply list_elem_of_lookup_2. }
  rewrite Hl in Hin. by apply not_elem_of_nil in Hin.
Qed.

Lemma session_inv_resumed w c w' :
  session_inv (obs w) →
  (∃ k, calls w !! c = Some k ∧ pending k = true) →
  resumed_as w c w' →
  session_inv (obs w').
Proof.
  intros Hinv (k & Hk & Hp) Hres.
  unfold session_inv, obs in Hinv. destruct Hinv as (Hsync & Hiff & Hfl).
  destruct Hfl as [Hfl | (Hlen & Hl & Hpl)]; [by destruct (live_nil_no_pending _ _ _ Hfl Hk Hp)|].
  destruct Hres as [ph Hph Hobs | r Hobs | r Hobs]; rewrite Hobs; cbn;
    pose proof (live_alter (calls w) c k) as Hlive.
  - specialize (Hlive ph Hk Hp). rewrite Hph in Hlive.
    split; [done|]. split; [done|]. right. repeat split; [lia | done | done].
  - specialize (Hlive (Settled r) Hk Hp). cbn in Hlive.
    split; [done|]. split.
    + split; [done|]. intros Hs. apply Hiff in Hs. congruence.
    + left. apply nil_length_inv. lia.
  - specialize (Hlive (Settled r) Hk Hp). cbn in Hlive.
    split; [done|]. split; [by split|].
    left. apply nil_length_inv. lia.
Qed.

Lemma session_inv_step w e w' :
  session_inv (obs w) → exclusive w e = true → step w e = Some w' → session_inv (obs w').
Proof.
  intros Hinv Hex Hstep.
  unfold session_inv, obs in Hinv. destruct Hinv as (Hsync & Hiff & Hfl).
  destruct e as [script theme| | | |c f k0|c r|c d|s].
  - apply step_CallPlay in Hstep. cbn in Hstep. rewrite Hsync in Hstep.
    cbn in Hex. destruct (isPlaying (hk w)) eqn:Hp; rewrite Hstep; cbn.
    + rewrite live_snoc; cbn. rewrite app_nil_r.
      split; [done|]. split; [split; [done | intros [? ?]; done]|].
      destruct Hfl as [Hfl | (_ & _ & ?)]; [by left | done].
    + rewrite live_snoc; cbn.
      split; [done|]. split; [done|].
      destruct Hfl as [-> | (_ & Hl & _)]; [right; by repeat split | ].
      rewrite Hl in Hex. done.
  - apply step_CallStop in Hstep. rewrite Hstep; cbn.
    split; [done|]. split; [split; [done | intros [? ?]; done]|].
    destruct Hfl as [Hfl | (? & ? & ?)]; [by left | by right].
  - eapply step_mute in Hstep; [|by left]. rewrite Hstep. unfold obs; cbn. done.
  - eapply step_mute in Hstep; [|by right]. rewrite Hstep. unfold obs; cbn. done.
  - eapply step_settled in Hstep as [Hk Hres]; [|eauto].
    by eapply session_inv_resumed.
  - eapply step_settled in Hstep as [Hk Hres]; [|eauto].
    by eapply session_inv_resumed.
  - eapply step_settled in Hstep as [Hk Hres]; [|eauto 6].
    by eapply session_inv_resumed.
  - apply step_SourceEnded in Hstep as [_ Hstep]. rewrite Hstep; cbn.
    split; [done|]. split; [split; [done | intros [? ?]; done]|].
    destruct Hfl as [Hfl | (? & ? & ?)]; [by left | by right].
Qed.

Lemma halt_current_lookup w j st :
  halt_current w !! j = Some st →
  (sources w !! j = Some st ∧ (st = Sounding → sourceRef (hk w) ≠ Some j))
  ∨ (st = Halted ∧ sourceRef (hk w) = Some j ∧ sources w !! j = Some Sounding).
Proof.
  unfold halt_current. destruct (sourceRef (hk w)) as [i|]; [|intros ?; left; by split].
  destruct (sources w !! i) as [sti|] eqn:Hi.
  - destruct (decide (sti = Sounding)) as [->|Hne].
    + intros [(<- & <- & _) | (Hij & Hj)]%list_lookup_insert_Some.
      * right. done.
      * left. split; [done|]. congruence.
    + intros Hj. left. assert (sources w !! j = Some st) as Hj' by (by destruct sti).
      split; [done|]. intros -> [= ->]. congruence.
  - intros Hj. left. split; [done|]. intros -> [= ->]. congruence.
Qed.

Lemma prompt_no_halted (srcs : list source_state) i :
  forallb (λ s, negb (bool_decide (s = Halted))) srcs = true → srcs !! i ≠ Some Halted.
Proof.
  intros Hall Hi. rewrite forallb_forall in Hall.
  specialize (Hall Halted). rewrite <- list_elem_of_In in Hall.
  specialize (Hall (list_elem_of_lookup_2 _ _ _ Hi)). done.
Qed.

Lemma output_inv_resumed w c w' :
  session_inv (obs w) → output_inv (obs w) →
  (∃ k, calls w !! c = Some k ∧ pending k = true) →
  resumed_as w c w' →
  output_inv (obs w').
Proof.
  intros Hs Ho (k & Hk & Hp) Hres.
  unfold session_inv, obs in Hs. destruct Hs as (Hsync & Hiff & Hfl).
  unfold output_inv, obs in Ho. destruct Ho as (Hsnd & Hun & Hhalt & Hfin).
  assert (live (calls w) ≠ []) as Hne.
  { intros Hnil. by destruct (live_nil_no_pending _ _ _ Hnil Hk Hp). }
  specialize (Hfin Hne).
  destruct Hfl as [? | (Hlen & _ & _)]; [done|].
  destruct Hres as [ph Hph Hobs | r Hobs | r Hobs]; rewrite Hobs; cbn.
  - refine (conj _ (conj _ (conj _ _))); try done;
      intros i Hi; apply Hfin in Hi; done.
  - refine (conj _ (conj _ (conj _ _))); try done;
      intros i Hi; apply Hfin in Hi; done.
  - pose proof (live_alter (calls w) c k (Settled r) Hk Hp) as Hlive. cbn in Hlive.
    assert (live (alter (with_phase (Settled r)) c (calls w)) = []) as Hnil.
    { apply nil_length_inv. lia. }
    refine (conj _ (conj _ (conj _ _))).
    + intros i [Hi | [Hge Hi]]%lookup_app_Some; [apply Hfin in Hi; done|].
      f_equal. apply lookup_lt_Some in Hi. cbn in Hi. lia.
    + intros i [Hi | [Hge Hi]]%lookup_app_Some; [apply Hfin in Hi; done|].
      destruct (i - length (sources w))%nat; cbn in Hi; done.
    + intros i [Hi | [Hge Hi]]%lookup_app_Some; [apply Hfin in Hi; done|].
      destruct (i - length (sources w))%nat; cbn in Hi; done.
    + done.
Qed.

Lemma output_inv_step w e w' :
  session_inv (obs w) → output_inv (obs w) → orderly w e = true →
  step w e = Some w' → output_inv (obs w').
Proof.
  intros Hs Ho Hord Hstep.
  unfold session_inv, obs in Hs. destruct Hs as (Hsync & Hiff & Hfl).
  unfold output_inv, obs in Ho. destruct Ho as (Hsnd & Hun & Hhalt & Hfin).
  assert (Hstopped : ∀ i, halt_current w !! i ≠ Some Sounding).
  { intros i [[Hi Hne] | (? & _)]%halt_current_lookup; [|done].
    apply Hne; [done|]. by apply Hsnd. }
  assert (Hstopped_un : ∀ i, halt_current w !! i ≠ Some Unstarted).
  { intros i [[Hi _] | (? & _)]%halt_current_lookup; [|done]. by apply (Hun i). }
  assert (Hstopped_halt : ∀ i, halt_current w !! i = Some Halted → live (calls w) = []).
  { intros i [[Hi _] | (_ & Hi & _)]%halt_current_lookup; [by apply (Hhalt i)|].
    destruct Hfl as [? | (_ & _ & Hp)]; [done|].
    assert (isPlaying (hk w) = true) by (apply Hiff; eauto). congruence. }
  assert (Hstopped_fin : live (calls w) ≠ [] →
            ∀ i st, halt_current w !! i = Some st → st = Finished).
  { intros Hne i st [[Hi _] | (_ & _ & Hi)]%halt_current_lookup;
      specialize (Hfin Hne _ _ Hi); done. }
  destruct e as [script theme| | | |c f k0|c r|c d|s].
  - apply step_CallPlay in Hstep. cbn in Hstep. rewrite Hsync in Hstep.
    unfold orderly in Hord. cbn in Hord. apply andb_prop in Hord as [Hex Hpr].
    destruct (isPlaying (hk w)) eqn:Hp; rewrite Hstep; cbn;
      rewrite live_snoc; cbn; rewrite ?app_nil_r.
    + refine (conj _ (conj _ (conj _ _))); try done.
      * intros i Hi. by destruct (Hstopped i).
      * eauto.
    + assert (sourceRef (hk w) = None) as Hnone.
      { destruct (sourceRef (hk w)) eqn:E; [|done].
        assert (false = true) by (apply Hiff; eauto). done. }
      refine (conj _ (conj _ (conj _ _))); try done.
      * intros i Hi. by destruct (prompt_no_halted _ i Hpr).
      * intros _ i [] Hi; try done.
        -- by destruct (Hun i).
        -- apply Hsnd in Hi. congruence.
        -- by destruct (prompt_no_halted _ i Hpr).
  - apply step_CallStop in Hstep. rewrite Hstep; cbn.
    refine (conj _ (conj _ (conj _ _))); try done.
    + intros i Hi. by destruct (Hstopped i).
    + eauto.
  - eapply step_mute in Hstep; [|by left]. rewrite Hstep. unfold obs; cbn. done.
  - eapply step_mute in Hstep; [|by right]. rewrite Hstep. unfold obs; cbn. done.
  - eapply step_settled in Hstep as [Hk Hres]; [|eauto].
    eapply output_inv_resumed; [| |done|done]; done.
  - eapply step_settled in Hstep as [Hk Hres]; [|eauto].
    eapply output_inv_resumed; [| |done|done]; done.
  - eapply step_settled in Hstep as [Hk Hres]; [|eauto 6].
    eapply output_inv_resumed; [| |done|done]; done.
  - apply step_SourceEnded in Hstep as [Hi Hstep]. rewrite Hstep; cbn.
    refine (conj _ (conj _ (conj _ _))).
    + intros j [(_ & ? & _) | (Hij & Hj)]%list_lookup_insert_Some; [done|].
      pose proof (Hsnd _ Hj) as Hsj.
      destruct Hi as [Hi | Hi]; [apply Hsnd in Hi; congruence|].
      apply Hhalt in Hi as [? _]. congruence.
    + intros j [(_ & ? & _) | (Hij & Hj)]%list_lookup_insert_Some; [done|].
      by apply (Hun j).
    + intros j [(_ & ? & _) | (Hij & Hj)]%list_lookup_insert_Some; [done|].
      split; [done|]. by apply (Hhalt j).
    + intros Hne. specialize (Hfin Hne).
      destruct Hi as [Hi | Hi]; apply Hfin in Hi; done.
Qed.

Lemma step_failure w e w' :
  is_failure e = true → step w e = Some w' →
  ∃ c r, (∃ k, calls w !! c = Some k ∧ pending k = true)
    ∧ obs w' = (false, false, sourceRef (hk w), false, sources w,
                alter (with_phase (Settled r)) c (calls w)).
Proof.
  destruct e as [| | | |c f k0|c [|e]|c [|e]|]; try done;
    cbn -[playAudio_try playAudio_fetched playAudio_resumed playAudio_decoded]; intros Hf;
    destruct (calls w !! c) as [k|] eqn:Hk;
    cbn -[playAudio_try playAudio_fetched playAudio_resumed playAudio_decoded]; try done;
    destruct (call_phase k) eqn:Hph; try done; unfold resume_call.
  - destruct (try_fetched w f k0) as (ph & w1 & -> & _ & _ & _ & Hobs & Hfail).
    destruct (Hfail Hf) as [r ->].
    destruct Hobs as [[[] _] | [_ Hobs]]. unfold obs in Hobs.
    intros [= <-]. exists c, r. split; [exists k; unfold pending; by rewrite Hph|].
    rewrite obs_render, obs_set_phase. cbn. congruence.
  - destruct (try_resumed w (Throw e)) as (ph & w1 & -> & _ & _ & _ & Hobs & Hfail).
    destruct Hfail as [r ->]; [eauto|].
    destruct Hobs as [[[=] _] | [_ Hobs]]. unfold obs in Hobs.
    intros [= <-]. exists c, r. split; [exists k; unfold pending; by rewrite Hph|].
    rewrite obs_render, obs_set_phase. cbn. congruence.
  - destruct (try_decoded w (call_isMuted k) (Throw e)) as (r & w1 & -> & _ & _ & Hobs & _).
    unfold obs in Hobs.
    intros [= <-]. exists c, r. split; [exists k; unfold pending; by rewrite Hph|].
    rewrite obs_render, obs_set_phase. cbn. congruence.
Qed.

(** *** Runs *)

Lemma guarded_run_invariant (allowed : world → event → bool) (P : world → Prop) :
  (∀ w e w', P w → allowed w e = true → step w e = Some w' → P w') →
  ∀ es w0 w, P w0 → guarded_run allowed w0 es = Some w → P w.
Proof.
  intros Hstep es. induction es as [|e es IH]; intros w0 w HP Hrun; cbn in Hrun.
  - by simplify_eq.
  - destruct (allowed w0 e) eqn:Ha; [|done].
    destruct (step w0 e) as [w1|] eqn:Hs; [|done]. cbn in Hrun.
    eapply IH; [|done]. eauto.
Qed.

Lemma run_unrestricted w es : run w es = guarded_run unrestricted w es.
Proof.
  revert w. induction es as [|e es IH]; intros w; cbn; [done|].
  destruct (step w e); cbn; [apply IH | done].
Qed.

Lemma guarded_run_weaken (a1 a2 : world → event → bool) :
  (∀ w e, a1 w e = true → a2 w e = true) →
  ∀ es w w', guarded_run a1 w es = Some w' → guarded_run a2 w es = Some w'.
Proof.
  intros Hle es. induction es as [|e es IH]; intros w w' Hrun; cbn in *; [done|].
  destruct (a1 w e) eqn:Ha; [|done]. rewrite (Hle _ _ Ha).
  destruct (step w e); cbn in *; [by apply IH | done].
Qed.

Lemma held_inv_step w e w' :
  held_inv (obs w) → step w e = Some w' → held_inv (obs w').
Proof.
  intros Hinv Hstep. unfold held_inv, obs in Hinv. destruct Hinv as [Hsync Hheld].
  destruct e as [script theme| | | |c f k0|c r|c d|s].
  - apply step_CallPlay in Hstep. cbn in Hstep.
    destruct (cl_isPlaying (playAudio_cb (hk w))); rewrite Hstep; cbn; done.
  - apply step_CallStop in Hstep. rewrite Hstep; cbn. done.
  - eapply step_mute in Hstep; [|by left]. rewrite Hstep. unfold obs; cbn. done.
  - eapply step_mute in Hstep; [|by right]. rewrite Hstep. unfold obs; cbn. done.
  - eapply step_settled in Hstep as [_ [ph _ -> | x -> | x ->]]; [| | |eauto]; cbn; done.
  - eapply step_settled in Hstep as [_ [ph _ -> | x -> | x ->]]; [| | |eauto]; cbn; done.
  - eapply step_settled in Hstep as [_ [ph _ -> | x -> | x ->]]; [| | |eauto 6]; cbn; done.
  - apply step_SourceEnded in Hstep as [_ ->]. cbn. done.
Qed.

Lemma run_held_inv es w : run init es = Some w → held_inv (obs w).
Proof.
  rewrite run_unrestricted.
  apply (guarded_run_invariant unrestricted (λ w, held_inv (obs w))).
  - intros ? ? ? ? _. by apply held_inv_step.
  - by cbn.
Qed.

Lemma exclusive_run_session_inv es w :
  guarded_run exclusive init es = Some w → session_inv (obs w).
Proof.
  apply (guarded_run_invariant exclusive (λ w, session_inv (obs w))).
  - intros ? ? ?. apply session_inv_step.
  - cbn. split; [done|]. split; [|by left]. split; [done | intros [? ?]; done].
Qed.

Lemma orderly_run_output_inv es w :
  guarded_run orderly init es = Some w → session_inv (obs w) ∧ output_inv (obs w).
Proof.
  apply (guarded_run_invariant orderly (λ w, session_inv (obs w) ∧ output_inv (obs w))).
  - intros w0 e w1 [Hs Ho] Hord Hstep. split.
    + eapply session_inv_step; [done| |done].
      unfold orderly in Hord. by apply andb_prop in Hord as [? _].
    + by eapply output_inv_step.
  - cbn. split.
    + split; [done|]. split; [|by left]. split; [done | intros [? ?]; done].
    + refine (conj _ (conj _ (conj _ _))); intros; by rewrite ?lookup_nil in *.
Qed.

Lemma status_playing w : status_of w = Playing ↔ isPlaying (hk w) = true.
Proof.
  unfold status_of. destruct (isPlaying (hk w)), (isLoading (hk w)); split; done.
Qed.

Lemma sounding_at_most_one w :
  (∀ i, sources w !! i = Some Sounding → sourceRef (hk w) = Some i) →
  length (sounding w) ≤ 1.
Proof.
  intros Hheld.
  assert (NoDup (sounding w)) as Hnd by (apply NoDup_filter, NoDup_seq).
  assert (∀ i, i ∈ sounding w → sourceRef (hk w) = Some i) as Hall.
  { intros i [Hi _]%list_elem_of_filter. by apply Hheld. }
  destruct (sounding w) as [|a [|b l]]; cbn; [lia | lia |].
  assert (a = b) as ->.
  { assert (Some a = Some b) as [= ->]; [|done].
    rewrite <- (Hall a), <- (Hall b); [done | set_solver | set_solver]. }
  apply NoDup_cons in Hnd as [Hnotin _]. set_solver.
Qed.

Lemma step_CallPlay_total w script theme : is_Some (step w (CallPlay script theme)).
Proof. unfold step. destruct (playAudio_begin _ w). eauto. Qed.

Lemma obs_eq w p l s cp srcs cs :
  obs w = (p, l, s, cp, srcs, cs) →
  isPlaying (hk w) = p ∧ isLoading (hk w) = l ∧ sourceRef (hk w) = s
  ∧ cl_isPlaying (playAudio_cb (hk w)) = cp ∧ sources w = srcs ∧ calls w = cs.
Proof. unfold obs. intros [= <- <- <- <- <- <-]. done. Qed.

Lemma length_halt_current w : length (halt_current w) = length (sources w).
Proof.
  unfold halt_current. destruct (sourceRef (hk w)) as [s|]; [|done].
  destruct (sources w !! s) as [[]|]; by rewrite ?length_insert.
Qed.

(** *** Toggle and single output *)

(** C2 (as amended): in every reachable state, [play] while the status is
    [Playing] stops the held source and returns: playing is off, no source is
    held, the held source no longer sounds, no fetch is issued and no source
    node is created.  In every run in which [play] is not requested while
    loading and halted sources have reported their end before the next
    request, at most one source sounds. *)
Theorem play_while_playing_toggles es w script theme :
  run init es = Some w →
  (status_of w = Playing →
   ∃ w', step w (CallPlay script theme) = Some w'
     ∧ isPlaying (hk w') = false
     ∧ sourceRef (hk w') = None
     ∧ (∀ s, sourceRef (hk w) = Some s → sources w' !! s ≠ Some Sounding)
     ∧ in_flight w' = in_flight w
     ∧ length (sources w') = length (sources w))
  ∧ (guarded_run orderly init es = Some w → length (sounding w) ≤ 1).
Proof.
  intros Hrun. split.
  - intros Hp%status_playing.
    destruct (step_CallPlay_total w script theme) as [w' Hstep]. exists w'. split; [done|].
    apply run_held_inv in Hrun as [Hsync _].
    apply step_CallPlay in Hstep. cbn in Hstep, Hsync. rewrite Hsync, Hp in Hstep.
    apply obs_eq in Hstep as (Hp' & _ & Hs' & _ & Hsrc & Hcalls).
    split; [done|]. split; [done|]. split; [|split].
    + rewrite Hsrc. intros s Hs [[Hi Hne] | (? & _)]%halt_current_lookup; [|done].
      by apply Hne.
    + unfold in_flight. rewrite Hcalls, live_snoc. cbn. by rewrite app_nil_r.
    + rewrite Hsrc. apply length_halt_current.
  - intros [_ (Hsnd & _)]%orderly_run_output_inv. by apply sounding_at_most_one.
Qed.

Lemma play_while_playing_toggles_witness :
  status_of playing_world = Playing
  ∧ (∃ w', step playing_world request = Some w'
       ∧ isPlaying (hk w') = false
       ∧ sourceRef (hk w') = None
       ∧ (∀ s, sourceRef (hk playing_world) = Some s → sources w' !! s ≠ Some Sounding)
       ∧ in_flight w' = in_flight playing_world
       ∧ length (sources w') = length (sources playing_world))
  ∧ length (sounding playing_world) ≤ 1.
Proof.
  pose proof (play_while_playing_toggles [request; fetched 0; decoded 0] playing_world
                "The bridge hummed in the fog." "mystery" eq_refl) as [Htoggle Hone].
  split; [reflexivity|]. split; [apply Htoggle; reflexivity | apply Hone; reflexivity].
Defined.

(** C2, the claim as stated fails: two requests made while loading each
    install and start a source; both sound at once. *)
Lemma overlapping_plays_sound_together :
  ∃ w, run init [request; request; fetched 0; decoded 0; fetched 1; decoded 1] = Some w
       ∧ sounding w = [0; 1]
       ∧ sourceRef (hk w) = Some 1.
Proof. eexists. split; [vm_compute; reflexivity|]. split; reflexivity. Qed.

(** *** Stop while loading *)

Lemma currentAudio_render_set_phase c ph w :
  currentAudio (hk (render (set_phase c ph w))) = currentAudio (hk w).
Proof. crush_world w. unfold render; cbn. by case_bool_decide. Qed.

(** C3 (as amended): [stop()] while an invocation of [play] is pending
    neither aborts nor marks it: the invocation stays pending and the hook
    stays loading; when the decoded buffer then arrives it is installed, and
    the status becomes [Playing] with a fresh sounding source held. *)
Theorem stop_while_loading_does_not_cancel w c k :
  calls w !! c = Some k → pending k = true →
  ∃ w1, step w CallStop = Some w1
    ∧ calls w1 !! c = Some k
    ∧ isLoading (hk w1) = isLoading (hk w)
    ∧ (call_phase k = Decoding → ∀ buf, ∃ w2,
         step w1 (DecodeSettled c (Normal buf)) = Some w2
         ∧ status_of w2 = Playing
         ∧ sourceRef (hk w2) = Some (length (sources w))
         ∧ sources w2 !! length (sources w) = Some Sounding
         ∧ currentAudio (hk w2) = Some buf).
Proof.
  intros Hk Hp.
  destruct (step w CallStop) as [w1|] eqn:Hstop; [|done]. exists w1. split; [done|].
  apply step_CallStop, obs_eq in Hstop as (_ & Hl & _ & _ & Hsrc & Hcalls).
  rewrite Hcalls. split; [done|]. split; [done|].
  intros Hph buf. unfold step. rewrite Hcalls, Hk. cbn [mbind option_bind].
  rewrite Hph. unfold resume_call.
  destruct (try_decoded w1 (call_isMuted k) (Normal buf))
    as (r & w1' & -> & _ & _ & Hobs & _ & Haudio).
  eexists. split; [reflexivity|].
  pose proof (obs_render (set_phase c (Settled r) w1')) as Hobs'.
  rewrite obs_set_phase in Hobs'.
  apply obs_eq in Hobs as (Hp1 & Hl1 & Hs1 & Hc1 & Hsrc1 & Hcalls1).
  rewrite Hp1, Hl1, Hs1, Hc1, Hsrc1 in Hobs'. cbn in Hobs'.
  apply obs_eq in Hobs' as (Hp2 & _ & Hs2 & _ & Hsrc2 & _).
  rewrite currentAudio_render_set_phase.
  split; [by apply status_playing|].
  rewrite Hs2, Hsrc2, Hsrc, length_halt_current.
  split; [done|]. split; [|done].
  rewrite <- (length_halt_current w). by apply list_lookup_middle.
Qed.

Lemma stop_while_loading_does_not_cancel_witness :
  ∃ w1, step decoding_world CallStop = Some w1
    ∧ status_of w1 = Loading
    ∧ ∃ w2, step w1 (decoded 0) = Some w2
        ∧ status_of w2 = Playing
        ∧ sourceRef (hk w2) = Some 0.
Proof.
  destruct (stop_while_loading_does_not_cancel decoding_world 0
              (Call "The bridge hummed in the fog." "mystery" false Decoding)
              eq_refl eq_refl) as (w1 & Hstop & _ & Hl & Hlate).
  exists w1. split; [exact Hstop|]. split.
  - unfold status_of. injection Hstop as <-. reflexivity.
  - destruct (Hlate eq_refl samples) as (w2 & Hstep & Hst & Hsrc & _).
    exists w2. split; [exact Hstep|]. split; [exact Hst | exact Hsrc].
Defined.

(** C3, the claim as stated fails: the session stopped during the fetch
    plays once the fetch and the decode complete. *)
Lemma late_result_resurrects_stopped_session :
  ∃ w0 w, run init [request; CallStop] = Some w0
       ∧ status_of w0 = Loading ∧ sourceRef (hk w0) = None
       ∧ run w0 [fetched 0; decoded 0] = Some w
       ∧ status_of w = Playing
       ∧ sourceRef (hk w) = Some 0
       ∧ sounding w = [0].
Proof. eexists _, _. split; [vm_compute; reflexivity|]. repeat split; reflexivity. Qed.

(** *** Fetches in flight *)

(** C4 (as amended): in every reachable state a [play] call starts a fetch
    exactly when the hook is not playing, whether or not it is loading; in
    every run in which [play] is not requested while the status is
    [Loading], at most one invocation is in flight. *)
Theorem play_fetches_unless_playing es w script theme :
  run init es = Some w →
  (∃ w', step w (CallPlay script theme) = Some w'
      ∧ length (in_flight w')
        = length (in_flight w) + (if isPlaying (hk w) then 0 else 1))
  ∧ (guarded_run exclusive init es = Some w → length (in_flight w) ≤ 1).
Proof.
  intros Hrun. split.
  - destruct (step_CallPlay_total w script theme) as [w' Hstep]. exists w'. split; [done|].
    apply run_held_inv in Hrun as [Hsync _].
    apply step_CallPlay in Hstep. cbn in Hstep, Hsync. rewrite Hsync in Hstep.
    unfold in_flight.
    destruct (isPlaying (hk w)); apply obs_eq in Hstep as (_ & _ & _ & _ & _ & ->);
      rewrite live_snoc, length_app; done.
  - intros (_ & _ & Hfl)%exclusive_run_session_inv. unfold in_flight.
    destruct Hfl as [-> | (-> & _)]; cbn; lia.
Qed.

Lemma play_fetches_unless_playing_witness :
  (∃ w', step loading_world request = Some w' ∧ length (in_flight w') = 2)
  ∧ (∃ w', step playing_world request = Some w' ∧ length (in_flight w') = 0)
  ∧ length (in_flight decoding_world) ≤ 1.
Proof.
  split; [|split].
  - exact (proj1 (play_fetches_unless_playing [request] loading_world
                    "The bridge hummed in the fog." "mystery" eq_refl)).
  - exact (proj1 (play_fetches_unless_playing [request; fetched 0; decoded 0] playing_world
                    "The bridge hummed in the fog." "mystery" eq_refl)).
  - exact (proj2 (play_fetches_unless_playing [request; fetched 0] decoding_world
                    "" "" eq_refl) eq_refl).
Defined.

(** C4, the claim as stated fails: a second [play] while the status is
    [Loading] starts a second fetch. *)
Lemma play_while_loading_fetches_again :
  ∃ w, status_of loading_world = Loading
       ∧ step loading_world request = Some w
       ∧ call_phase <$> in_flight w = [Fetching; Fetching].
Proof. eexists. split; [reflexivity|]. split; [vm_compute; reflexivity | reflexivity]. Qed.

(** *** The held source and the status *)

(** C5 (as amended): in every reachable state a source is held while the
    status is [Playing].  In every run in which [play] is not requested
    while the status is [Loading], a source is held exactly when the status
    is [Playing], and a fetch, resume or decode failure leaves the status
    [Idle] with no source held. *)
Theorem handle_held_iff_playing es w :
  run init es = Some w →
  (status_of w = Playing → is_Some (sourceRef (hk w)))
  ∧ (guarded_run exclusive init es = Some w →
     (is_Some (sourceRef (hk w)) ↔ status_of w = Playing)
     ∧ (∀ e w', is_failure e = true → step w e = Some w' →
          status_of w' = Idle ∧ sourceRef (hk w') = None)).
Proof.
  intros Hrun. split.
  - intros Hp%status_playing. apply run_held_inv in Hrun as [_ Hheld]. by apply Hheld.
  - intros (_ & Hiff & Hfl)%exclusive_run_session_inv. split.
    + rewrite status_playing. by symmetry.
    + intros e w' Hfail Hstep.
      destruct (step_failure _ _ _ Hfail Hstep) as (c & r & (k & Hk & Hp) & Hobs).
      apply obs_eq in Hobs as (Hp' & Hl' & Hs' & _).
      unfold status_of. rewrite Hp', Hl', Hs'. split; [done|].
      destruct Hfl as [Hnil | (_ & _ & Hnot)].
      * by destruct (live_nil_no_pending _ _ _ Hnil Hk Hp).
      * destruct (sourceRef (hk w)) eqn:Hs; [|done].
        assert (isPlaying (hk w) = true) by (apply Hiff; eauto). congruence.
Qed.

Lemma handle_held_iff_playing_witness :
  is_Some (sourceRef (hk playing_world))
  ∧ (is_Some (sourceRef (hk loading_world)) ↔ status_of loading_world = Playing)
  ∧ (∀ w', step loading_world (FetchSettled 0 (Normal error_response) (Normal Running))
           = Some w' →
           status_of w' = Idle ∧ sourceRef (hk w') = None).
Proof.
  split; [|split].
  - exact (proj1 (handle_held_iff_playing [request; fetched 0; decoded 0] playing_world
                    eq_refl) eq_refl).
  - exact (proj1 (proj2 (handle_held_iff_playing [request] loading_world eq_refl) eq_refl)).
  - exact (λ w', proj2 (proj2 (handle_held_iff_playing [request] loading_world eq_refl)
                               eq_refl)
                   (FetchSettled 0 (Normal error_response) (Normal Running)) w' eq_refl).
Defined.

(** C5, the claim as stated fails: of two overlapping requests the first
    plays and the second fails; [catch] turns playing off and leaves the
    source held (and sounding). *)
Lemma failed_overlap_leaves_handle :
  ∃ w, run init [request; request; fetched 0; decoded 0;
                 FetchSettled 1 (Normal error_response) (Normal Running)] = Some w
       ∧ status_of w = Idle
       ∧ sourceRef (hk w) = Some 0
       ∧ sounding w = [0].
Proof. eexists. split; [vm_compute; reflexivity|]. repeat split; reflexivity. Qed.

(** *** Mute *)

(** C6 (as amended): with a gain node, [mute()] sets the gain to 0 and the
    flag to true, [unmute()] sets the gain to 1 and the flag to false;
    without a gain node either call changes nothing, the flag included. *)
Theorem mute_unmute_need_gain_node (w : world) :
  (is_Some (gainNodeRef (hk w)) →
     ∃ wm wu, muteAudio w = (Normal tt, wm) ∧ unmuteAudio w = (Normal tt, wu)
       ∧ audible_gain wm = Some 0%Z ∧ isMuted (hk wm) = true
       ∧ audible_gain wu = Some 1%Z ∧ isMuted (hk wu) = false)
  ∧ (gainNodeRef (hk w) = None →
     muteAudio w = (Normal tt, w) ∧ unmuteAudio w = (Normal tt, w)).
Proof.
  destruct w as [[playing loading muted audio ctx src [g|] cb] srcs cs o]; split; cbn.
  - intros _. eexists _, _. repeat split.
  - discriminate.
  - intros [? ?]; discriminate.
  - done.
Qed.

Lemma mute_unmute_need_gain_node_witness :
  (∃ wm wu, muteAudio playing_world = (Normal tt, wm)
       ∧ unmuteAudio playing_world = (Normal tt, wu)
       ∧ audible_gain wm = Some 0%Z ∧ isMuted (hk wm) = true
       ∧ audible_gain wu = Some 1%Z ∧ isMuted (hk wu) = false)
  ∧ muteAudio init = (Normal tt, init) ∧ unmuteAudio init = (Normal tt, init).
Proof.
  split.
  - apply (proj1 (mute_unmute_need_gain_node playing_world)). eexists; reflexivity.
  - exact (proj2 (mute_unmute_need_gain_node init) eq_refl).
Defined.

(** C6, the claim as stated fails: before any playback [mute()] leaves the
    reported flag false. *)
Lemma mute_before_playback_keeps_flag :
  ∃ w, gainNodeRef (hk init) = None
       ∧ step init CallMute = Some w
       ∧ isMuted (hk w) = false.
Proof. eexists. split; [reflexivity|]. split; reflexivity. Qed.

(** The memoised [playAudio] is refreshed when [isPlaying] changes, not when
    [isMuted] does: muting after a stop is not seen by the next request,
    which plays at gain 1 while the flag reports muted. *)
Example mute_after_stop_is_not_seen :
  ∃ w, run init [request; fetched 0; decoded 0; CallStop; CallMute;
                 request; fetched 1; decoded 1] = Some w
       ∧ isMuted (hk w) = true
       ∧ audible_gain w = Some 1%Z
       ∧ sounding w = [1].
Proof. eexists. split; [vm_compute; reflexivity|]. repeat split; reflexivity. Qed.

(** Muting while playing is seen by the request after the toggle. *)
Example mute_while_playing_is_sticky :
  ∃ w, run init [request; fetched 0; decoded 0; CallMute; request;
                 request; fetched 2; decoded 2] = Some w
       ∧ isMuted (hk w) = true
       ∧ audible_gain w = Some 0%Z.
Proof. eexists. split; [vm_compute; reflexivity|]. repeat split; reflexivity. Qed.

(** *** Stop *)

(** C8 (as amended): in every state [stop()] completes without throwing,
    whatever the state of the held source, and raises no toast; afterwards
    no source is held and playing is off, so the status is [Idle] unless a
    request is loading, in which case it stays [Loading]; pending
    invocations are untouched; a second [stop()] changes nothing. *)
Theorem stopAudio_total_idempotent (w : world) :
  ∃ w', stopAudio w = (Normal tt, w')
        ∧ sourceRef (hk w') = None
        ∧ isPlaying (hk w') = false
        ∧ status_of w' = (if isLoading (hk w) then Loading else Idle)
        ∧ calls w' = calls w
        ∧ toasts (out w') = toasts (out w)
        ∧ stopAudio w' = (Normal tt, w').
Proof.
  destruct w as [[playing loading muted audio ctx [s|] gain cb] srcs cs o].
  - unfold stopAudio, source_stop, try_catch, bind, gets, modify, ret, status_of; cbn.
    destruct (srcs !! s) as [[]|]; cbn; eexists; (repeat split);
      try (destruct loading; reflexivity).
  - eexists; (repeat split); cbn; destruct loading; reflexivity.
Qed.

(** C8, the claim as stated fails: while a request is loading no source is
    held, and [stop()] leaves the status [Loading], not [Idle]. *)
Lemma stop_while_loading_stays_loading :
  ∃ w, run init [request] = Some loading_world
       ∧ sourceRef (hk loading_world) = None
       ∧ step loading_world CallStop = Some w
       ∧ status_of w = Loading.
Proof. eexists. split; [reflexivity|]. repeat split; reflexivity. Qed.

(** [stop()] on a source that already ended by itself, and on one that was
    never started, is swallowed. *)
Example stop_tolerates_ended_source :
  ∃ w w', run init [request; fetched 0; decoded 0] = Some w
       ∧ stopAudio (set_sources [Finished] w) = (Normal tt, w')
       ∧ status_of w' = Idle ∧ toasts (out w') = toasts (out w)
       ∧ (stopAudio (set_sources [Unstarted] w)).1 = Normal tt.
Proof. eexists _, _. split; [vm_compute; reflexivity|]. repeat split; reflexivity. Qed.

(** *** Loading and pending *)

Lemma busy_inv_step w e w' :
  busy_inv (obs w) → step w e = Some w' → busy_inv (obs w').
Proof.
  intros Hinv Hstep. unfold busy_inv, obs in Hinv.
  destruct e as [script theme| | | |c f k0|c r|c d|s].
  - apply step_CallPlay in Hstep. cbn in Hstep.
    destruct (cl_isPlaying (playAudio_cb (hk w))); rewrite Hstep; cbn;
      rewrite live_snoc; cbn; rewrite ?app_nil_r; [done|].
    intros _. by destruct (live (calls w)).
  - apply step_CallStop in Hstep. rewrite Hstep; cbn. done.
  - eapply step_mute in Hstep; [|by left]. rewrite Hstep. unfold obs; cbn. done.
  - eapply step_mute in Hstep; [|by right]. rewrite Hstep. unfold obs; cbn. done.
  - eapply step_settled in Hstep as [(k & Hk & Hp) Hres]; [|eauto].
    destruct Hres as [ph Hph -> | x -> | x ->]; cbn; try done.
    intros Hl Hnil. pose proof (live_alter (calls w) c k ph Hk Hp) as Hlen.
    rewrite Hnil, Hph in Hlen. cbn in Hlen.
    destruct (live (calls w)) eqn:E; [by apply Hinv | cbn in Hlen; lia].
  - eapply step_settled in Hstep as [(k & Hk & Hp) Hres]; [|eauto].
    destruct Hres as [ph Hph -> | x -> | x ->]; cbn; try done.
    intros Hl Hnil. pose proof (live_alter (calls w) c k ph Hk Hp) as Hlen.
    rewrite Hnil, Hph in Hlen. cbn in Hlen.
    destruct (live (calls w)) eqn:E; [by apply Hinv | cbn in Hlen; lia].
  - eapply step_settled in Hstep as [(k & Hk & Hp) Hres]; [|eauto 6].
    destruct Hres as [ph Hph -> | x -> | x ->]; cbn; try done.
    intros Hl Hnil. pose proof (live_alter (calls w) c k ph Hk Hp) as Hlen.
    rewrite Hnil, Hph in Hlen. cbn in Hlen.
    destruct (live (calls w)) eqn:E; [by apply Hinv | cbn in Hlen; lia].
  - apply step_SourceEnded in Hstep as [_ ->]. cbn. done.
Qed.

Lemma run_busy_inv es w : run init es = Some w → busy_inv (obs w).
Proof.
  rewrite run_unrestricted.
  apply (guarded_run_invariant unrestricted (λ w, busy_inv (obs w))).
  - intros ? ? ? ? _. by apply busy_inv_step.
  - by cbn.
Qed.

Lemma exclusive_run_run es w : guarded_run exclusive init es = Some w → run init es = Some w.
Proof.
  rewrite run_unrestricted. by apply guarded_run_weaken.
Qed.

(** [isLoading] and the invocations of [playAudio] that wait at an
    [await]: in every reachable state [isLoading] shows only while some
    invocation is pending, so the hook never reports loading with nothing
    left to clear it.  In every run in which [play] is not requested while
    the status is [Loading], it shows exactly while one invocation is
    pending, and it is off exactly when none is. *)
Theorem loading_means_pending es w :
  run init es = Some w →
  (isLoading (hk w) = true → in_flight w ≠ [])
  ∧ (guarded_run exclusive init es = Some w →
     (isLoading (hk w) = true ↔ length (in_flight w) = 1)
     ∧ (isLoading (hk w) = false ↔ in_flight w = [])).
Proof.
  intros Hrun. pose proof (run_busy_inv _ _ Hrun) as Hbusy.
  unfold busy_inv, obs in Hbusy. split; [exact Hbusy|].
  intros (_ & _ & Hfl)%exclusive_run_session_inv. unfold in_flight.
  destruct Hfl as [Hnil | (Hlen & Hl & _)].
  - rewrite Hnil. destruct (isLoading (hk w)); [by destruct Hbusy|]. by split; split.
  - rewrite Hl. split; split; try done. intros Hnil. by rewrite Hnil in Hlen.
Qed.

Lemma loading_means_pending_witness :
  (isLoading (hk loading_world) = true → in_flight loading_world ≠ [])
  ∧ (isLoading (hk loading_world) = true ↔ length (in_flight loading_world) = 1)
  ∧ (isLoading (hk loading_world) = false ↔ in_flight loading_world = []).
Proof.
  split.
  - exact (proj1 (loading_means_pending [request] loading_world eq_refl)).
  - exact (proj2 (loading_means_pending [request] loading_world eq_refl) eq_refl).
Defined.

Ltac in_list := cbn; rewrite ?elem_of_cons; auto.

(** *** The status machine *)

Lemma step_settled_kind w e w' :
  step w e = Some w' →
  match e with
  | FetchSettled c _ _ | ResumeSettled c _ =>
      (∃ ph, pending_phase ph = true
         ∧ obs w' = (isPlaying (hk w), isLoading (hk w), sourceRef (hk w), isPlaying (hk w),
                     sources w, alter (with_phase ph) c (calls w)))
      ∨ (∃ r, obs w' = (false, false, sourceRef (hk w), false, sources w,
                        alter (with_phase (Settled r)) c (calls w)))
  | DecodeSettled c (Normal _) =>
      ∃ r, obs w' = (true, false, Some (length (sources w)), true,
                     sources w ++ [Sounding], alter (with_phase (Settled r)) c (calls w))
  | DecodeSettled c (Throw _) =>
      ∃ r, obs w' = (false, false, sourceRef (hk w), false, sources w,
                     alter (with_phase (Settled r)) c (calls w))
  | _ => True
  end.
Proof.
  destruct e as [| | | |c f k0|c r|c d|]; try done;
    cbn -[playAudio_try playAudio_fetched playAudio_resumed playAudio_decoded];
    destruct (calls w !! c) as [k|] eqn:Hk;
    cbn -[playAudio_try playAudio_fetched playAudio_resumed playAudio_decoded]; try done;
    destruct (call_phase k) eqn:Hph; try done; unfold resume_call.
  - destruct (try_fetched w f k0) as (ph & w1 & -> & _ & _ & _ & Hobs & _).
    intros [= <-]. rewrite obs_render, obs_set_phase.
    destruct Hobs as [[Hph' Hobs] | [[r ->] Hobs]]; unfold obs in Hobs.
    + left. exists ph. split; [by destruct ph|]. cbn. congruence.
    + right. exists r. cbn. congruence.
  - destruct (try_resumed w r) as (ph & w1 & -> & _ & _ & _ & Hobs & _).
    intros [= <-]. rewrite obs_render, obs_set_phase.
    destruct Hobs as [[-> Hobs] | [[r' ->] Hobs]]; unfold obs in Hobs.
    + left. exists Decoding. split; [done|]. cbn. congruence.
    + right. exists r'. cbn. congruence.
  - destruct (try_decoded w (call_isMuted k) d) as (r & w1 & -> & _ & _ & Hobs).
    intros [= <-]. rewrite obs_render, obs_set_phase.
    destruct d as [buf|e]; destruct Hobs as [Hobs _]; unfold obs in Hobs;
      exists r; cbn; congruence.
Qed.

Lemma status_of_obs w p l s cp srcs cs :
  obs w = (p, l, s, cp, srcs, cs) →
  status_of w = if p then Playing else if l then Loading else Idle.
Proof. intros (Hp & Hl & _)%obs_eq. unfold status_of. by rewrite Hp, Hl. Qed.

(** The status the hook reports moves along the machine [next_status] in
    every run in which [play] is not requested while the status is
    [Loading]: [play] leaves [Idle] for [Loading] and [Playing] for [Idle];
    [stop] and the [ended] event leave [Playing] for [Idle] and change no
    other status; [mute] and [unmute] never change it; a settled fetch or
    resume keeps [Loading] or fails to [Idle]; a decoded buffer leads to
    [Playing] and a failed decode to [Idle]; no result is delivered outside
    [Loading]. *)
Theorem status_follows_machine es w e w' :
  guarded_run exclusive init es = Some w →
  exclusive w e = true →
  step w e = Some w' →
  status_of w' ∈ next_status (status_of w) e.
Proof.
  intros Hrun Hex Hstep.
  pose proof (run_busy_inv _ _ (exclusive_run_run _ _ Hrun)) as Hbusy.
  apply exclusive_run_session_inv in Hrun as (Hsync & Hiff & Hfl).
  unfold busy_inv, obs in Hbusy.
  assert (Hpl : isPlaying (hk w) = true → isLoading (hk w) = false).
  { intros Hp. destruct Hfl as [Hnil | (_ & _ & ?)]; [|congruence].
    destruct (isLoading (hk w)); [by destruct Hbusy | done]. }
  assert (Hpending : ∀ c k, calls w !! c = Some k → pending k = true →
            status_of w = Loading).
  { intros c k Hk Hp. destruct Hfl as [Hnil | (_ & Hl & Hnp)].
    - by destruct (live_nil_no_pending _ _ _ Hnil Hk Hp).
    - unfold status_of. by rewrite Hnp, Hl. }
  destruct e as [script theme| | | |c f k0|c r|c d|s].
  - apply step_CallPlay in Hstep. cbn in Hstep. rewrite Hsync in Hstep.
    cbn in Hex. unfold status_of at 2.
    destruct (isPlaying (hk w)) eqn:Hp.
    + rewrite (status_of_obs _ _ _ _ _ _ _ Hstep), (Hpl eq_refl). in_list.
    + cbn in Hex. apply negb_true_iff in Hex. rewrite Hex.
      rewrite (status_of_obs _ _ _ _ _ _ _ Hstep). in_list.
  - apply step_CallStop in Hstep. rewrite (status_of_obs _ _ _ _ _ _ _ Hstep).
    unfold status_of. destruct (isPlaying (hk w)) eqn:Hp.
    + rewrite (Hpl eq_refl). in_list.
    + destruct (isLoading (hk w)); in_list.
  - eapply step_mute in Hstep; [|by left].
    assert (status_of w' = status_of w) as ->; [|cbn; in_list].
    unfold resync, obs at 2 in Hstep. apply obs_eq in Hstep as (Hp & Hl & _).
    unfold status_of. by rewrite Hp, Hl.
  - eapply step_mute in Hstep; [|by right].
    assert (status_of w' = status_of w) as ->; [|cbn; in_list].
    unfold resync, obs at 2 in Hstep. apply obs_eq in Hstep as (Hp & Hl & _).
    unfold status_of. by rewrite Hp, Hl.
  - destruct (step_settled w (FetchSettled c f k0) c w' ltac:(eauto) Hstep)
      as [(k & Hk & Hp) _].
    rewrite (Hpending _ _ Hk Hp).
    apply step_settled_kind in Hstep as [(ph & _ & Hobs) | (x & Hobs)];
      rewrite (status_of_obs _ _ _ _ _ _ _ Hobs).
    + pose proof (Hpending _ _ Hk Hp) as Hst. unfold status_of in Hst.
      destruct (isPlaying (hk w)), (isLoading (hk w)); try done. in_list.
    + in_list.
  - destruct (step_settled w (ResumeSettled c r) c w' ltac:(eauto) Hstep)
      as [(k & Hk & Hp) _].
    rewrite (Hpending _ _ Hk Hp).
    apply step_settled_kind in Hstep as [(ph & _ & Hobs) | (x & Hobs)];
      rewrite (status_of_obs _ _ _ _ _ _ _ Hobs).
    + pose proof (Hpending _ _ Hk Hp) as Hst. unfold status_of in Hst.
      destruct (isPlaying (hk w)), (isLoading (hk w)); try done. in_list.
    + in_list.
  - destruct (step_settled w (DecodeSettled c d) c w' ltac:(eauto 6) Hstep)
      as [(k & Hk & Hp) _].
    rewrite (Hpending _ _ Hk Hp).
    apply step_settled_kind in Hstep.
    destruct d as [buf|err]; destruct Hstep as (x & Hobs);
      rewrite (status_of_obs _ _ _ _ _ _ _ Hobs); cbn; in_list.
  - apply step_SourceEnded in Hstep as [_ Hstep].
    rewrite (status_of_obs _ _ _ _ _ _ _ Hstep).
    unfold status_of. destruct (isPlaying (hk w)) eqn:Hp.
    + rewrite (Hpl eq_refl). in_list.
    + destruct (isLoading (hk w)); in_list.
Qed.

Lemma status_follows_machine_witness :
  status_of decoding_world ∈ next_status (status_of loading_world) (fetched 0).
Proof.
  exact (status_follows_machine [request] loading_world (fetched 0) decoding_world
           eq_refl eq_refl eq_refl).
Defined.

(** *** Mute across sessions *)

Lemma render_fields w :
  isPlaying (hk (render w)) = isPlaying (hk w)
  ∧ isMuted (hk (render w)) = isMuted (hk w)
  ∧ gainNodeRef (hk (render w)) = gainNodeRef (hk w)
  ∧ out (render w) = out w
  ∧ playAudio_cb (hk (render w))
    = (if bool_decide (cl_isPlaying (playAudio_cb (hk w)) = isPlaying (hk w))
       then playAudio_cb (hk w)
       else Closure (isPlaying (hk w)) (isMuted (hk w))).
Proof. crush_world w. unfold render; cbn. by case_bool_decide. Qed.

Lemma step_mute_fields w e w' :
  step w e = Some w' →
  isMuted (hk w')
  = match e, gainNodeRef (hk w) with
    | CallMute, Some _ => true
    | CallUnmute, Some _ => false
    | _, _ => isMuted (hk w)
    end
  ∧ gainNodeRef (hk w')
    = match e with
      | CallMute => (λ _, 0%Z) <$> gainNodeRef (hk w)
      | CallUnmute => (λ _, 1%Z) <$> gainNodeRef (hk w)
      | DecodeSettled c (Normal _) =>
          (λ k, if call_isMuted k then 0%Z else 1%Z) <$> calls w !! c
      | _ => gainNodeRef (hk w)
      end
  ∧ playAudio_cb (hk w')
    = (if bool_decide (cl_isPlaying (playAudio_cb (hk w)) = isPlaying (hk w'))
       then playAudio_cb (hk w)
       else Closure (isPlaying (hk w')) (isMuted (hk w'))).
Proof.
  destruct e as [script theme| | | |c f k0|c r|c d|s];
    cbn -[playAudio_try playAudio_fetched playAudio_resumed playAudio_decoded render].
  - crush_world w. unfold playAudio_begin, stopAudio, source_stop, backendApi.fetchAudio_begin.
    js_unfold. destruct cb as [[] cm]; cbn -[render].
    + destruct src as [s|]; cbn -[render]; [destruct (srcs !! s) as [[]|]; cbn -[render]|].
      all: intros [= <-].
      all: match goal with |- context [render ?x] =>
             destruct (render_fields x) as (-> & -> & -> & _ & ->) end.
      all: by destruct gain.
    + intros [= <-].
      match goal with |- context [render ?x] =>
        destruct (render_fields x) as (-> & -> & -> & _ & ->) end.
      by destruct gain.
  - intros [= <-].
    match goal with |- context [render ?x] => destruct (render_fields x) as (-> & -> & -> & _ & ->) end.
    crush_world w. unfold stopAudio, source_stop. js_unfold. cbn.
    destruct src as [s|]; cbn; [destruct (srcs !! s) as [[]|]; cbn|]; by destruct gain.
  - intros [= <-].
    match goal with |- context [render ?x] => destruct (render_fields x) as (-> & -> & -> & _ & ->) end.
    crush_world w. by destruct gain.
  - intros [= <-].
    match goal with |- context [render ?x] => destruct (render_fields x) as (-> & -> & -> & _ & ->) end.
    crush_world w. by destruct gain.
  - destruct (calls w !! c) as [k|]; [|done].
    cbn -[playAudio_try playAudio_fetched render].
    destruct (call_phase k); try done. unfold resume_call.
    destruct (try_fetched w f k0) as (ph & w1 & -> & Hm & Hg & Hcb & _). intros [= <-].
    match goal with |- context [render ?x] => destruct (render_fields x) as (-> & -> & -> & _ & ->) end.
    destruct w1 as [h1 ? ? ?]; cbn in *. rewrite Hm, Hg, Hcb. by destruct (gainNodeRef (hk w)).
  - destruct (calls w !! c) as [k|]; [|done].
    cbn -[playAudio_try playAudio_resumed render].
    destruct (call_phase k); try done. unfold resume_call.
    destruct (try_resumed w r) as (ph & w1 & -> & Hm & Hg & Hcb & _). intros [= <-].
    match goal with |- context [render ?x] => destruct (render_fields x) as (-> & -> & -> & _ & ->) end.
    destruct w1 as [h1 ? ? ?]; cbn in *. rewrite Hm, Hg, Hcb. by destruct (gainNodeRef (hk w)).
  - destruct (calls w !! c) as [k|]; [|done].
    cbn -[playAudio_try playAudio_decoded render].
    destruct (call_phase k); try done. unfold resume_call.
    destruct (try_decoded w (call_isMuted k) d) as (x & w1 & -> & Hm & Hcb & Hd). intros [= <-].
    match goal with |- context [render ?x] => destruct (render_fields x) as (-> & -> & -> & _ & ->) end.
    destruct w1 as [h1 ? ? ?]; cbn in *. rewrite Hm, Hcb.
    destruct d as [buf|err].
    + destruct Hd as (_ & -> & _). by destruct (gainNodeRef (hk w)).
    + destruct Hd as (_ & ->). by destruct (gainNodeRef (hk w)).
  - destruct (sources w !! s) as [[]|]; try done.
    all: intros [= <-].
    all: match goal with |- context [render ?x] =>
           destruct (render_fields x) as (-> & -> & -> & _ & ->) end.
    all: crush_world w; by destruct gain.
Qed.

Lemma step_calls w e w' :
  step w e = Some w' →
  (∃ k, calls w' = calls w ++ [k]
        ∧ (pending k = true →
           isPlaying (hk w) = false ∧ call_isMuted k = cl_isMuted (playAudio_cb (hk w))
           ∨ cl_isPlaying (playAudio_cb (hk w)) ≠ isPlaying (hk w)))
  ∨ calls w' = calls w
  ∨ (∃ c k ph, calls w !! c = Some k ∧ pending k = true
               ∧ calls w' = alter (with_phase ph) c (calls w)).
Proof.
  intros Hstep. destruct e as [script theme| | | |c f k0|c r|c d|s].
  - left. apply step_CallPlay in Hstep. cbn in Hstep.
    destruct (cl_isPlaying (playAudio_cb (hk w))) eqn:Hcl;
      apply obs_eq in Hstep as (_ & _ & _ & _ & _ & ->); eexists; (split; [done|]); cbn.
    + done.
    + intros _. destruct (isPlaying (hk w)) eqn:Hp; [right; congruence | by left].
  - right; left. by apply step_CallStop, obs_eq in Hstep as (_ & _ & _ & _ & _ & ->).
  - right; left. eapply step_mute in Hstep; [|by left].
    unfold resync, obs at 2 in Hstep. by apply obs_eq in Hstep as (_ & _ & _ & _ & _ & ->).
  - right; left. eapply step_mute in Hstep; [|by right].
    unfold resync, obs at 2 in Hstep. by apply obs_eq in Hstep as (_ & _ & _ & _ & _ & ->).
  - right; right.
    destruct (step_settled w (FetchSettled c f k0) c w' ltac:(eauto) Hstep) as [(k & Hk & Hp) Hres].
    destruct Hres as [ph _ Hobs | x Hobs | x Hobs];
      apply obs_eq in Hobs as (_ & _ & _ & _ & _ & ->); eauto 6.
  - right; right.
    destruct (step_settled w (ResumeSettled c r) c w' ltac:(eauto) Hstep) as [(k & Hk & Hp) Hres].
    destruct Hres as [ph _ Hobs | x Hobs | x Hobs];
      apply obs_eq in Hobs as (_ & _ & _ & _ & _ & ->); eauto 6.
  - right; right.
    destruct (step_settled w (DecodeSettled c d) c w' ltac:(eauto 6) Hstep) as [(k & Hk & Hp) Hres].
    destruct Hres as [ph _ Hobs | x Hobs | x Hobs];
      apply obs_eq in Hobs as (_ & _ & _ & _ & _ & ->); eauto 6.
  - right; left. by apply step_SourceEnded in Hstep as [_ (_ & _ & _ & _ & _ & ->)%obs_eq].
Qed.

Lemma mute_inv_step w e w' :
  session_inv (obs w) → mute_inv w → attentive w e = true →
  step w e = Some w' → mute_inv w'.
Proof.
  intros (Hsync & Hiff & Hfl) (J1 & J2 & J3 & J4) Hatt Hstep.
  cbn in Hsync.
  unfold attentive in Hatt. apply andb_prop in Hatt as [Hex Hmp].
  destruct (step_mute_fields _ _ _ Hstep) as (Hm & Hg & Hcb).
  pose proof (step_calls _ _ _ Hstep) as Hcalls.
  assert (Hidle : isPlaying (hk w) = true → ∀ c k, calls w !! c = Some k → pending k = false).
  { intros Hp c k Hk. destruct (pending k) eqn:E; [|done].
    destruct Hfl as [Hnil | (_ & _ & ?)]; [|congruence].
    by destruct (live_nil_no_pending _ _ _ Hnil Hk E). }
  assert (Hkeep : (e = CallMute ∨ e = CallUnmute) ∨ isMuted (hk w') = isMuted (hk w)).
  { destruct e; try (right; exact Hm); left; auto. }
  assert (Hplaying : e = CallMute ∨ e = CallUnmute → isPlaying (hk w) = true).
  { intros [-> | ->]; exact Hmp. }
  assert (J4' : ∀ c k, calls w' !! c = Some k → pending k = true →
            call_isMuted k = isMuted (hk w')).
  { intros c k Hk Hp.
    destruct Hcalls as [(k0 & Hc & Hnew) | [Hc | (c0 & k0 & ph & Hk0 & Hp0 & Hc)]];
      rewrite Hc in Hk.
    - apply lookup_app_Some in Hk as [Hk | [_ Hk]].
      + destruct Hkeep as [Hmute | ->]; [|by eapply J4].
        by rewrite (Hidle (Hplaying Hmute) _ _ Hk) in Hp.
      + destruct (c - length (calls w)) as [|n]; cbn in Hk; [|done].
        injection Hk as ->. destruct (Hnew Hp) as [[Hnp ->] | Hne]; [|done].
        destruct Hkeep as [Hmute | ->]; [|by apply J3].
        by rewrite (Hplaying Hmute) in Hnp.
    - destruct Hkeep as [Hmute | ->]; [|by eapply J4].
      by rewrite (Hidle (Hplaying Hmute) _ _ Hk) in Hp.
    - destruct Hkeep as [Hmute | ->].
      { by rewrite (Hidle (Hplaying Hmute) _ _ Hk0) in Hp0. }
      destruct (decide (c = c0)) as [-> | Hne].
      + rewrite list_lookup_alter_eq, Hk0 in Hk. injection Hk as <-. cbn. by eapply J4.
      + rewrite list_lookup_alter_ne in Hk by done. by eapply J4. }
  assert (J3' : isPlaying (hk w') = false →
            cl_isMuted (playAudio_cb (hk w')) = isMuted (hk w')).
  { intros Hp'. rewrite Hcb, Hp'.
    destruct (decide (cl_isPlaying (playAudio_cb (hk w)) = false)) as [Hcl|Hcl];
      [rewrite bool_decide_eq_true_2 by done | by rewrite bool_decide_eq_false_2 by done].
    rewrite Hsync in Hcl. destruct Hkeep as [Hmute | ->]; [|by apply J3].
    rewrite (Hplaying Hmute) in Hcl. done. }
  assert (Hgain : (gainNodeRef (hk w') = gainNodeRef (hk w) ∧ isMuted (hk w') = isMuted (hk w))
                  ∨ (∃ g, gainNodeRef (hk w) = Some g ∧
                       gainNodeRef (hk w') = Some (if isMuted (hk w') then 0%Z else 1%Z))
                  ∨ (gainNodeRef (hk w') = Some (if isMuted (hk w') then 0%Z else 1%Z))).
  { destruct e as [script theme| | | |c f k0|c r|c [buf|err]|s]; try (left; by split).
    - destruct (gainNodeRef (hk w)) as [g|] eqn:Hg0; [|left; by split].
      right; left. exists g. split; [done|]. by rewrite Hg, Hm.
    - destruct (gainNodeRef (hk w)) as [g|] eqn:Hg0; [|left; by split].
      right; left. exists g. split; [done|]. by rewrite Hg, Hm.
    - right; right.
      destruct (step_settled w (DecodeSettled c (Normal buf)) c w' ltac:(eauto 6) Hstep)
        as [(k & Hk & Hp) _].
      rewrite Hg, Hm, Hk. cbn. by rewrite (J4 _ _ Hk Hp). }
  split; [|split; [|split]]; [| |exact J3'|exact J4'].
  - destruct Hgain as [[-> ->] | [(g & _ & ->) | ->]]; done.
  - intros g. destruct Hgain as [[-> ->] | [(g0 & _ & ->) | ->]]; [by apply J2| |]; by intros [= <-].
Qed.

(** In every run in which [play] is not requested while the status is
    [Loading] and [mute] and [unmute] are requested only while the status is
    [Playing], the gain node agrees with the reported mute flag: before the
    first playback there is no gain node and the flag is off; afterwards the
    gain is 0 when the flag is on and 1 when it is off, also across a stop
    and a new playback. *)
Theorem gain_agrees_with_mute_flag es w :
  guarded_run attentive init es = Some w →
  audible_gain w = None ∧ isMuted (hk w) = false
  ∨ audible_gain w = Some (if isMuted (hk w) then 0 else 1)%Z.
Proof.
  intros Hrun.
  assert (session_inv (obs w) ∧ mute_inv w) as [_ (J1 & J2 & _)].
  { revert Hrun.
    apply (guarded_run_invariant attentive (λ w, session_inv (obs w) ∧ mute_inv w)).
    - intros w0 e w1 [Hs Hm] Hatt Hstep. split.
      + eapply session_inv_step; [done| |done].
        unfold attentive in Hatt. by apply andb_prop in Hatt as [? _].
      + by eapply mute_inv_step.
    - split.
      + cbn. split; [done|]. split; [|by left]. split; [done | intros [? ?]; done].
      + repeat split; done. }
  unfold audible_gain. destruct (gainNodeRef (hk w)) as [g|] eqn:Hg.
  - right. by rewrite (J2 g).
  - left. by split; [|apply J1].
Qed.

Lemma gain_agrees_with_mute_flag_witness :
  audible_gain muted_replay_world = None ∧ isMuted (hk muted_replay_world) = false
  ∨ audible_gain muted_replay_world
    = Some (if isMuted (hk muted_replay_world) then 0 else 1)%Z.
Proof.
  exact (gain_agrees_with_mute_flag
           [request; fetched 0; decoded 0; CallMute; request; request; fetched 2; decoded 2]
           muted_replay_world eq_refl).
Defined.

(** *** Notifications *)

Lemma out_render w : out (render w) = out w.
Proof. by destruct (render_fields w) as (_ & _ & _ & -> & _). Qed.



(** *** The promise of [playAudio] *)

Lemma calls_render w : calls (render w) = calls w.
Proof. pose proof (obs_render w) as H. unfold resync, obs at 2 in H. by apply obs_eq in H as (_ & _ & _ & _ & _ & ->). Qed.

Lemma step_phase w e w' :
  step w e = Some w' →
  (∃ k, calls w' = calls w ++ [k]
        ∧ (pending k = true ∨ call_phase k = Settled (Normal tt)))
  ∨ calls w' = calls w
  ∨ (∃ c ph, calls w' = alter (with_phase ph) c (calls w)
             ∧ (pending_phase ph = true ∨ ph = Settled (Normal tt))).
Proof.
  destruct e as [script theme| | | |c f k0|c r|c d|s];
    cbn -[playAudio_try playAudio_fetched playAudio_resumed playAudio_decoded render].
  - intros Hstep. left. apply step_CallPlay in Hstep. cbn in Hstep.
    destruct (cl_isPlaying (playAudio_cb (hk w)));
      apply obs_eq in Hstep as (_ & _ & _ & _ & _ & ->); eexists; (split; [done|]); cbn; auto.
  - intros Hstep. right; left.
    by apply step_CallStop, obs_eq in Hstep as (_ & _ & _ & _ & _ & ->).
  - intros [= <-]. right; left. rewrite calls_render. crush_world w.
    unfold muteAudio. js_unfold. by destruct gain.
  - intros [= <-]. right; left. rewrite calls_render. crush_world w.
    unfold unmuteAudio. js_unfold. by destruct gain.
  - destruct (calls w !! c) as [k|]; [|done].
    cbn -[playAudio_try playAudio_fetched render].
    destruct (call_phase k); try done. intros [= <-]. unfold resume_call.
    destruct (playAudio_try (playAudio_fetched f k0) w) as [ph w1] eqn:Htry.
    rewrite calls_render. cbn. right; right. exists c, ph. revert Htry. crush_world w.
    unfold playAudio_try, playAudio_fetched, playAudio_catch, playAudio_finally,
      backendApi.fetchAudio_resume, backendApi.apiRequest.
    js_unfold.
    destruct f as [x|e]; cbn;
      [destruct (backendApi.ok x) eqn:Hok, (backendApi.arrayBuffer x) eqn:Hbuf; cbn|];
      try (destruct ctx as [[]|], k0 as [[]|]; cbn);
      rewrite ?Hok, ?Hbuf; cbn; rewrite ?Hok, ?Hbuf; cbn;
      intros [= <- <-]; cbn; auto.
  - destruct (calls w !! c) as [k|]; [|done].
    cbn -[playAudio_try playAudio_resumed render].
    destruct (call_phase k); try done. intros [= <-]. unfold resume_call.
    destruct (playAudio_try (playAudio_resumed r) w) as [ph w1] eqn:Htry.
    rewrite calls_render. cbn. right; right. exists c, ph. revert Htry. crush_world w.
    unfold playAudio_try, playAudio_resumed, playAudio_catch, playAudio_finally.
    js_unfold. destruct r as [[]|e]; cbn; intros [= <- <-]; cbn; auto.
  - destruct (calls w !! c) as [k|]; [|done].
    cbn -[playAudio_try playAudio_decoded render].
    destruct (call_phase k); try done. intros [= <-]. unfold resume_call.
    destruct (playAudio_try (playAudio_decoded (call_isMuted k) d) w) as [ph w1] eqn:Htry.
    rewrite calls_render. cbn. right; right. exists c, ph. revert Htry. crush_world w.
    unfold playAudio_try, playAudio_decoded, playAudio_catch, playAudio_finally,
      createBufferSource.
    js_unfold. destruct d as [buf|e]; cbn.
    + destruct gain; cbn; unfold map_hk, set_sources; cbn;
        rewrite source_start_fresh; cbn; intros [= <- <-]; cbn; auto.
    + intros [= <- <-]; cbn; auto.
  - intros Hstep. right; left.
    by apply step_SourceEnded in Hstep as [_ (_ & _ & _ & _ & _ & ->)%obs_eq].
Qed.

Lemma resolved_inv_step w e w' : resolved_inv w → step w e = Some w' → resolved_inv w'.
Proof.
  intros Hinv Hstep c k r Hk Hph.
  destruct (step_phase _ _ _ Hstep)
    as [(k0 & Hc & Hk0) | [Hc | (c0 & ph & Hc & Hph0)]]; rewrite Hc in Hk.
  - apply lookup_app_Some in Hk as [Hk | [_ Hk]]; [by eapply Hinv|].
    destruct (c - length (calls w)); cbn in Hk; [|done]. injection Hk as ->.
    destruct Hk0 as [Hp | Hs].
    + unfold pending in Hp. by rewrite Hph in Hp.
    + congruence.
  - by eapply Hinv.
  - destruct (decide (c = c0)) as [-> | Hne].
    + rewrite list_lookup_alter_eq in Hk.
      destruct (calls w !! c0) as [k1|]; [|done]. cbn in Hk. injection Hk as <-.
      cbn in Hph. subst ph. destruct Hph0 as [Hp | Hs]; [done | congruence].
    + rewrite list_lookup_alter_ne in Hk by done. by eapply Hinv.
Qed.

(** The promise [playAudio] returns never rejects: in every reachable
    state, every invocation that has settled resolved, whether it toggled,
    played, or failed at the fetch, the resume or the decode (its [catch]
    swallows the failure). *)
Theorem playAudio_never_rejects es w c k r :
  run init es = Some w → calls w !! c = Some k → call_phase k = Settled r → r = Normal tt.
Proof.
  intros Hrun. revert c k r. change (resolved_inv w).
  rewrite run_unrestricted in Hrun. revert Hrun.
  apply (guarded_run_invariant unrestricted resolved_inv).
  - intros w0 e w1 Hinv _. by apply resolved_inv_step.
  - intros c k r Hk. done.
Qed.

Lemma playAudio_never_rejects_witness :
  ∃ r, calls failed_world !! 0 = Some failed_call
       ∧ call_phase failed_call = Settled r ∧ r = Normal tt.
Proof.
  exists (Normal tt). split; [reflexivity|]. split; [reflexivity|].
  exact (playAudio_never_rejects
           [request; FetchSettled 0 (Normal error_response) (Normal Running)]
           failed_world 0 failed_call (Normal tt) eq_refl eq_refl eq_refl).
Defined.

End AudioPlayerFacts.

(** ** The Maps script loader *)

Module GoogleMapsFacts.

Import GoogleMaps.
Local Open Scope list_scope.
Local Open Scope nat_scope.

Ltac js_unfold :=
  unfold try_catch, try_finally, bind, await, ret, throw, gets, modify,
    console_error, console_log, console_warn in *.

(** *** What the handlers leave alone *)

Lemma injected_script_is_maps_script o key rest :
  is_maps_script (Script o ("https://maps.googleapis.com/maps/api/js?key=" +:+ key +:+ rest))
  = true.
Proof. reflexivity. Qed.

Section Frame.
Context {B : Type} (f : page → B).

Lemma preserves_ret {A} (a : A) : preserves f (ret a).
Proof. by intros p. Qed.

Lemma preserves_gets {A} (g : page → A) : preserves f (gets g).
Proof. by intros p. Qed.

Lemma preserves_modify (g : page → page) :
  (∀ p, f (g p) = f p) → preserves f (modify g).
Proof. intros Hg p. apply Hg. Qed.

Lemma preserves_bind {A C} (m : M page A) (k : A → M page C) :
  preserves f m → (∀ a, preserves f (k a)) → preserves f (bind m k).
Proof.
  intros Hm Hk p. unfold bind. specialize (Hm p).
  destruct (m p) as [[a|e] p1]; cbn in *; [|done].
  by rewrite Hk.
Qed.

Lemma preserves_for_each {A} (g : A → M page unit) (l : list A) :
  (∀ a, preserves f (g a)) → preserves f (for_each g l).
Proof.
  intros Hg. induction l as [|a l IH]; cbn; [apply preserves_ret|].
  apply preserves_bind; [apply Hg | intros _; apply IH].
Qed.

(** The field is untouched by the console, by [setLoaded], by the loading
    flag and by the promise bookkeeping. *)
Hypothesis f_ui : ∀ g p, f (map_ui g p) = f p.
Hypothesis f_callers : ∀ c p, f (set_callers c p) = f p.
Hypothesis f_flag : ∀ b p, f (set_isLoadingGoogleMaps b p) = f p.
Hypothesis f_loads : ∀ l p, f (set_loads l p) = f p.
Hypothesis f_polls : ∀ l p, f (set_polls l p) = f p.
Hypothesis f_callbacks : ∀ l p, f (set_callbacks l p) = f p.

Lemma preserves_log line : preserves f (console_log line).
Proof. apply preserves_modify. intros p. apply f_ui. Qed.

Lemma preserves_setLoaded c b : preserves f (setLoaded c b).
Proof. apply preserves_modify. intros p. apply f_callers. Qed.

Lemma preserves_react c r : preserves f (react c r).
Proof.
  destruct c as [[]|e]; cbn.
  - unfold on_fulfilled. apply preserves_bind; [apply preserves_gets|].
    intros []; [apply preserves_setLoaded | apply preserves_ret].
  - destruct r; cbn; [|apply preserves_setLoaded].
    apply preserves_bind; [apply preserves_log | intros _; apply preserves_setLoaded].
Qed.

Lemma preserves_settle k c : preserves f (settle k c).
Proof.
  unfold settle. apply preserves_bind; [apply preserves_gets|].
  intros [l|]; [|apply preserves_ret].
  destruct (settled l); [apply preserves_ret|].
  apply preserves_bind; [apply preserves_modify; intros; apply f_loads|].
  intros _. apply preserves_for_each. apply preserves_react.
Qed.

Lemma preserves_subscribe k r : preserves f (subscribe k r).
Proof.
  unfold subscribe. apply preserves_bind; [apply preserves_gets|].
  intros [l|]; [|apply preserves_ret].
  apply preserves_bind; [apply preserves_modify; intros; apply f_loads|].
  intros _. destruct (settled l); [apply preserves_react | apply preserves_ret].
Qed.

Lemma preserves_checkReady k : preserves f (checkReady k).
Proof.
  unfold checkReady, isFullyLoaded. apply preserves_bind; [apply preserves_gets|].
  intros []; (apply preserves_bind; [apply preserves_log|]); intros _.
  - apply preserves_bind; [apply preserves_modify; intros; apply f_flag|].
    intros _. apply preserves_settle.
  - apply preserves_modify; intros; apply f_polls.
Qed.

Lemma preserves_on_callback k name : preserves f (on_callback k name).
Proof.
  unfold on_callback. apply preserves_bind; [apply preserves_log|]. intros _.
  apply preserves_bind; [apply preserves_modify; intros; apply f_callbacks|]. intros _.
  apply preserves_checkReady.
Qed.

Lemma preserves_on_script_error k name e : preserves f (on_script_error k name e).
Proof.
  unfold on_script_error. apply preserves_bind; [apply preserves_log|]. intros _.
  apply preserves_bind; [apply preserves_modify; intros; apply f_flag|]. intros _.
  apply preserves_bind; [apply preserves_modify; intros; apply f_callbacks|]. intros _.
  apply preserves_settle.
Qed.

Lemma preserves_on_timeout k : preserves f (on_timeout k).
Proof.
  unfold on_timeout. apply preserves_bind; [apply preserves_gets|].
  intros []; [|apply preserves_ret].
  apply preserves_bind; [apply preserves_log|]. intros _.
  apply preserves_bind; [apply preserves_modify; intros; apply f_flag|]. intros _.
  apply preserves_settle.
Qed.

End Frame.

(** *** The document *)

Lemma bind_snd {A C} (m : M page A) (k : A → M page C) p a p1 :
  m p = (Normal a, p1) → (bind m k p).2 = (k a p1).2.
Proof. unfold bind. by intros ->. Qed.

Lemma start_load_spec key now p :
  ∃ p1, start_load key now p = (Normal (length (loads p)), p1)
    ∧ document p1 = strip (document p) ++ [script_of key now (length (loads p))]
    ∧ loads p1 = loads p ++ [Load None [] ("initGoogleMaps_" +:+ pretty now) Requested]
    ∧ timeouts p1 = timeouts p ++ [length (loads p)]
    ∧ isLoadingGoogleMaps p1 = isLoadingGoogleMaps p.
Proof.
  destruct p as [flag promise g cbs doc lds tos pls cls o].
  unfold start_load. js_unfold. cbn. eexists. split; [reflexivity|]. cbn. done.
Qed.

Lemma document_frame :
  (∀ g p, document (map_ui g p) = document p)
  ∧ (∀ c p, document (set_callers c p) = document p)
  ∧ (∀ b p, document (set_isLoadingGoogleMaps b p) = document p)
  ∧ (∀ l p, document (set_loads l p) = document p)
  ∧ (∀ l p, document (set_polls l p) = document p)
  ∧ (∀ l p, document (set_callbacks l p) = document p).
Proof. done. Qed.

Lemma document_effect caller apiKey now p :
  document (effect caller apiKey now p).2 = document p
  ∨ ∃ key, document (effect caller apiKey now p).2
           = strip (document p) ++ [script_of key now (length (loads p))].
Proof.
  destruct document_frame as (Hui & Hcl & Hfl & Hld & Hpl & Hcb).
  unfold effect. destruct apiKey as [key|]; [|left; by apply preserves_log].
  destruct (invalid_key (Some key)); [left; by apply preserves_log|].
  unfold isFullyLoaded.
  rewrite (bind_snd _ _ p (isFullyLoaded_window (google p)) p) by done.
  destruct (isFullyLoaded_window (google p)).
  { left. apply preserves_bind; [by apply preserves_log|].
    intros _. by apply preserves_setLoaded. }
  rewrite (bind_snd _ _ p (isLoadingGoogleMaps p) p) by done.
  rewrite (bind_snd _ _ p (loadPromise p) p) by done.
  destruct (isLoadingGoogleMaps p) eqn:Hflag, (loadPromise p) as [k|] eqn:Hpr.
  1: { left. apply preserves_bind; [by apply preserves_log|].
       intros _. by apply preserves_subscribe. }
  all: right; exists key;
    rewrite (bind_snd _ _ p tt (set_isLoadingGoogleMaps true p)) by done;
    destruct (start_load_spec key now (set_isLoadingGoogleMaps true p))
      as (p1 & Hstart & Hdoc & _);
    rewrite (bind_snd _ _ _ _ _ Hstart);
    change (document (set_isLoadingGoogleMaps true p)) with (document p) in Hdoc;
    change (loads (set_isLoadingGoogleMaps true p)) with (loads p) in Hdoc;
    rewrite <- Hdoc;
    (apply preserves_bind; [by apply preserves_modify|]);
    intros _; by apply preserves_subscribe.
Qed.

Lemma bind_ret_snd {A C} (m : M page A) (c : C) p :
  (bind m (λ _, ret c) p).2 = (m p).2.
Proof. unfold bind, ret. by destruct (m p) as [[a|e] p1]. Qed.

Lemma document_step p e p' :
  step p e = Some p' →
  document p' = document p
  ∨ ∃ key now k, document p' = strip (document p) ++ [script_of key now k].
Proof.
  destruct document_frame as (Hui & Hcl & Hfl & Hld & Hpl & Hcb).
  destruct e as [apiKey now|name|k error| |k|g];
    cbn -[useGoogleMaps on_callback on_script_error on_timeout checkReady set_script_state].
  - intros [= <-]. unfold useGoogleMaps, isFullyLoaded.
    rewrite (bind_snd _ _ p (isFullyLoaded_window (google p)) p) by done.
    erewrite bind_snd by reflexivity.
    erewrite bind_snd by reflexivity.
    erewrite bind_snd by reflexivity.
    rewrite bind_ret_snd.
    match goal with |- context [effect ?c _ _ ?p0] =>
      destruct (document_effect c apiKey now p0) as [-> | [key ->]] end.
    + by left.
    + right. by exists key, now, (length (loads p)).
  - destruct (callbacks p !! name) as [k|];
      cbn -[on_callback set_script_state]; [|done]. intros [= <-]. left.
    by rewrite preserves_on_callback.
  - destruct (loads p !! k) as [l|];
      cbn -[on_script_error set_script_state]; [|done].
    destruct (script_state l); try done. intros [= <-]. left.
    by rewrite preserves_on_script_error.
  - destruct (timeouts p) as [|k rest]; [done|]. intros [= <-]. left.
    by rewrite preserves_on_timeout.
  - case_bool_decide; [|done]. intros [= <-]. left.
    by rewrite preserves_checkReady.
  - intros [= <-]. by left.
Qed.

Lemma maps_scripts_strip doc : filter (λ s, is_maps_script s = true) (strip doc) = [].
Proof.
  unfold strip. induction doc as [|s doc IH]; [done|].
  rewrite (filter_cons (λ s, is_maps_script s = false)).
  case_decide as Hs; [|done].
  rewrite filter_cons_False by (rewrite Hs; done). done.
Qed.

Lemma run_invariant (P : page → Prop) :
  (∀ p e p', P p → step p e = Some p' → P p') →
  ∀ es p0 p, P p0 → run p0 es = Some p → P p.
Proof.
  intros Hstep es. induction es as [|e es IH]; intros p0 p HP Hrun; cbn in Hrun.
  - by simplify_eq.
  - destruct (step p0 e) as [p1|] eqn:Hs; [|done]. cbn in Hrun.
    eapply IH; [|done]. eauto.
Qed.

(** On a page that came without SDK script tags, at most one is present at
    any time: each load removes the tags of the earlier ones. *)
Lemma at_most_one_maps_script es p :
  run fresh es = Some p → length (maps_scripts p) ≤ 1.
Proof.
  apply (run_invariant (λ p, length (maps_scripts p) ≤ 1)); [|cbn; lia].
  intros p0 e p1 Hle Hstep. unfold maps_scripts in *.
  destruct (document_step _ _ _ Hstep) as [-> | (key & now & k & ->)]; [done|].
  rewrite filter_app, maps_scripts_strip.
  rewrite filter_cons_True by reflexivity. cbn. lia.
Qed.

Lemma length_loads_subscribe k r p :
  length (loads (subscribe k r p).2) = length (loads p).
Proof.
  unfold subscribe. rewrite (bind_snd _ _ p (loads p !! k) p) by done.
  destruct (loads p !! k) as [l|]; [|done].
  erewrite bind_snd by reflexivity.
  destruct (settled l) as [c|]; cbn -[react].
  - rewrite (preserves_react loads) by done. cbn. by rewrite length_insert.
  - by rewrite length_insert.
Qed.


(** *** Single flight *)

(** The scenario of the specification: two components mount in the same
    tick; one script tag, one load, both chained on it, both ready once the
    callback fired and the readiness test passes. *)
Example two_mounts_share_one_load :
  (λ p, (length (document p), in_flight p, subscribed p 0, subscribed p 1))
    <$> run fresh [Mount valid_key 1000; Mount valid_key 1000]
  = Some (1, [0], [0], [0])
  ∧ (λ p, (callers p, in_flight p))
      <$> run fresh [Mount valid_key 1000; Mount valid_key 1000;
                     SdkAttaches sdk_ready; ScriptCallback "initGoogleMaps_1000"]
    = Some ([true; true], []).
Proof. split; vm_compute; reflexivity. Qed.

(** A retry after a script error is shared as long as no stale timer has
    fired. *)
Example retry_is_shared_before_stale_timeout :
  (λ p, (in_flight p, subscribed p 1, subscribed p 2))
    <$> run fresh [Mount valid_key 1000; ScriptError 0 (Error "net::ERR_FAILED");
                   Mount valid_key 3000; Mount valid_key 4000]
  = Some ([1], [1], [1]).
Proof. vm_compute; reflexivity. Qed.

(** C1 (the code departs from the claim): the 10 second timer of a load
    that already failed is never cancelled and tests the shared flag.  It
    fires during the retry, clears the flag, and the next caller starts a
    third load while the second is still pending: two loads in flight, the
    two callers chained on different promises, the second load's script tag
    removed; the callers then end with different outcomes. *)
Theorem stale_timeout_starts_second_load :
  (λ p, (in_flight p, subscribed p 1, subscribed p 2, owner <$> document p))
    <$> run fresh stale_timeout_trace
  = Some ([1; 2], [1], [2], [Some 2])
  ∧ callers <$> run fresh (stale_timeout_trace ++
        [TimeoutFires; SdkAttaches sdk_ready; ScriptCallback "initGoogleMaps_11500"])
    = Some [false; false; true].
Proof. split; vm_compute; reflexivity. Qed.

(** *** Invalid credential *)

(** C7 (as amended): with an absent, empty or placeholder key the hook
    injects no script tag, starts no load, sets no timer or callback,
    leaves the flag and the promise alone and raises no toast; the state it
    reports is its initial one, the readiness test at mount: not loaded
    unless the SDK was already fully initialised. *)
Theorem invalid_key_is_inert (p : page) (apiKey : option string) (now : N) :
  invalid_key apiKey = true →
  ∃ p', step p (Mount apiKey now) = Some p'
    ∧ document p' = document p
    ∧ loads p' = loads p
    ∧ timeouts p' = timeouts p
    ∧ polls p' = polls p
    ∧ callbacks p' = callbacks p
    ∧ isLoadingGoogleMaps p' = isLoadingGoogleMaps p
    ∧ loadPromise p' = loadPromise p
    ∧ google p' = google p
    ∧ toasts (out p') = toasts (out p)
    ∧ callers p' = callers p ++ [isFullyLoaded_window (google p)].
Proof.
  intros Hinv. destruct p as [flag promise g cbs doc lds tos pls cls o].
  unfold step, useGoogleMaps, effect, isFullyLoaded. js_unfold.
  destruct apiKey as [key|]; cbn -[invalid_key]; rewrite ?Hinv; cbn;
    eexists; (split; [reflexivity|]); cbn; repeat split.
Qed.

Lemma invalid_key_is_inert_witness :
  ∃ p', step fresh (Mount placeholder_key 1000) = Some p'
    ∧ document p' = [] ∧ loads p' = [] ∧ timeouts p' = []
    ∧ callers p' = [false].
Proof.
  destruct (invalid_key_is_inert fresh placeholder_key 1000 eq_refl)
    as (p' & Hstep & Hdoc & Hloads & Htimeouts & _ & _ & _ & _ & _ & _ & Hcallers).
  exists p'. split; [exact Hstep|]. split; [exact Hdoc|]. split; [exact Hloads|].
  split; [exact Htimeouts | exact Hcallers].
Defined.

(** C7, the claim as stated fails: once the SDK is fully initialised, a
    hook mounted with the placeholder key reports loaded. *)
Lemma invalid_key_reports_loaded :
  invalid_key placeholder_key = true
  ∧ (p ← run fresh [Mount valid_key 1000; SdkAttaches sdk_ready;
                    ScriptCallback "initGoogleMaps_1000"];
     p' ← step p (Mount placeholder_key 2000);
     Some (isFullyLoaded_window (google p), callers p'))
    = Some (true, [true; true]).
Proof. split; vm_compute; reflexivity. Qed.

(** *** Witnesses of the document lemmas *)

Lemma default_Some {A} (d : A) (o : option A) : is_Some o → o = Some (default d o).
Proof. by intros [a ->]. Qed.

Lemma at_most_one_maps_script_witness :
  length (maps_scripts (default fresh (run fresh stale_timeout_trace))) ≤ 1.
Proof.
  apply (at_most_one_maps_script stale_timeout_trace).
  apply default_Some. apply (bool_decide_unpack _). vm_compute. exact I.
Defined.


(** *** The flag and the recorded promise *)

Lemma length_loads_settle k c p :
  length (loads (settle k c p).2) = length (loads p).
Proof.
  unfold settle. rewrite (bind_snd _ _ p (loads p !! k) p) by done.
  destruct (loads p !! k) as [l|]; [|done].
  destruct (settled l); [done|].
  erewrite bind_snd by reflexivity.
  rewrite (preserves_for_each loads) by (intros; by apply preserves_react).
  cbn. by rewrite length_insert.
Qed.

Lemma subscribe_unsettled k r p l :
  loads p !! k = Some l → settled l = None →
  subscribe k r p
  = (Normal tt,
     set_loads (<[k := Load None (reactions l ++ [r]) (callbackName l) (script_state l)]>
                  (loads p)) p).
Proof.
  intros Hl Hs. unfold subscribe. js_unfold. cbn. rewrite Hl, Hs. done.
Qed.

Lemma checkReady_spec k p :
  if isFullyLoaded_window (google p) then
    (checkReady k p).2 = (settle k (Normal tt) (set_isLoadingGoogleMaps false
                            (map_ui (ui_log "Google Maps API fully ready") p))).2
  else
    (checkReady k p).2
    = set_polls (polls p ++ [k])
        (map_ui (ui_log "Google Maps API not fully ready, checking again...") p).
Proof.
  unfold checkReady, isFullyLoaded.
  rewrite (bind_snd _ _ p (isFullyLoaded_window (google p)) p) by done.
  destruct (isFullyLoaded_window (google p)).
  - erewrite bind_snd by reflexivity. erewrite bind_snd by reflexivity. done.
  - erewrite bind_snd by reflexivity. done.
Qed.

Lemma flag_inv_settled k c p :
  isLoadingGoogleMaps p = false →
  (∀ k, loadPromise p = Some k → S k = length (loads p)) →
  (loadPromise p = None → loads p = []) →
  flag_inv (settle k c p).2.
Proof.
  intros Hflag H2 H3.
  assert (Hf : isLoadingGoogleMaps (settle k c p).2 = false)
    by (by rewrite (preserves_settle isLoadingGoogleMaps)).
  assert (Hp : loadPromise (settle k c p).2 = loadPromise p)
    by (by rewrite (preserves_settle loadPromise)).
  pose proof (length_loads_settle k c p) as Hlen.
  split; [by rewrite Hf|]. rewrite Hp. split.
  - intros j Hj. rewrite Hlen. by apply H2.
  - intros Hn. apply nil_length_inv. rewrite Hlen, (H3 Hn). done.
Qed.

Lemma flag_inv_start key now r p :
  ∃ p1, start_load key now p = (Normal (length (loads p)), p1)
    ∧ flag_inv (subscribe (length (loads p)) r
                  (set_loadPromise (Some (length (loads p))) p1)).2.
Proof.
  destruct (start_load_spec key now p) as (p1 & Hstart & _ & Hloads & _).
  exists p1. split; [done|].
  erewrite subscribe_unsettled; [|cbn; rewrite Hloads; by apply list_lookup_middle|done].
  cbn. rewrite Hloads. split; [|split]; cbn.
  - intros _. eexists _, _. split; [done|]. split.
    + rewrite insert_app_r_alt, Nat.sub_diag by lia. cbn. by apply list_lookup_middle.
    + done.
  - intros k [= <-]. rewrite length_insert, length_app. cbn. lia.
  - done.
Qed.

Lemma flag_inv_ext p q :
  isLoadingGoogleMaps q = isLoadingGoogleMaps p → loadPromise q = loadPromise p →
  loads q = loads p → flag_inv p → flag_inv q.
Proof. unfold flag_inv. by intros -> -> ->. Qed.

Lemma flag_inv_script_state k s p : flag_inv p → flag_inv (set_script_state k s p).2.
Proof.
  intros (H1 & H2 & H3). unfold set_script_state, modify. cbn. split; [|split]; cbn.
  - intros Hf. destruct (H1 Hf) as (j & l & Hj & Hl & Hs).
    destruct (decide (j = k)) as [-> | Hne].
    + eexists k, _. split; [done|]. split.
      * by rewrite list_lookup_alter_eq, Hl.
      * done.
    + exists j, l. rewrite list_lookup_alter_ne by done. done.
  - intros j Hj. rewrite length_alter. by apply H2.
  - intros Hn. by rewrite (H3 Hn).
Qed.

Lemma flag_inv_checkReady k p : flag_inv p → flag_inv (checkReady k p).2.
Proof.
  intros Hinv. pose proof (checkReady_spec k p) as Hc.
  destruct (isFullyLoaded_window (google p)); rewrite Hc.
  - destruct Hinv as (_ & H2 & H3). by apply flag_inv_settled.
  - by eapply flag_inv_ext; [| | |exact Hinv].
Qed.

Lemma flag_inv_step p e p' : flag_inv p → step p e = Some p' → flag_inv p'.
Proof.
  intros (H1 & H2 & H3).
  destruct e as [apiKey now|name|k error| |k|g];
    cbn -[useGoogleMaps on_callback on_script_error on_timeout checkReady set_script_state].
  - intros [= <-]. destruct p as [flag promise g cbs doc lds tos pls cls o].
    cbn in H1, H2, H3.
    unfold useGoogleMaps, effect, isFullyLoaded. js_unfold.
    destruct apiKey as [key|]; cbn -[invalid_key subscribe start_load]; [|done].
    destruct (invalid_key (Some key)); cbn -[subscribe start_load]; [done|].
    destruct (isFullyLoaded_window g); cbn -[subscribe start_load]; [done|].
    destruct flag, promise as [k|]; cbn -[subscribe start_load].
    + destruct (H1 eq_refl) as (k' & l & [= <-] & Hl & Hs).
      erewrite subscribe_unsettled by (cbn; done). cbn.
      split; [|split]; cbn.
      * intros _. eexists k, _. split; [done|]. split.
        -- apply list_lookup_insert_eq. by eapply lookup_lt_Some.
        -- done.
      * intros j Hj. rewrite length_insert. by apply H2.
      * done.
    + match goal with |- context [start_load key now ?p0] =>
        destruct (flag_inv_start key now (Initiator (length cls)) p0) as (p1 & -> & Hinv) end.
      cbn -[subscribe] in *.
      match goal with |- context [subscribe ?a ?b ?c] =>
        destruct (subscribe a b c) as [[[]|e] p2] end; exact Hinv.
    + match goal with |- context [start_load key now ?p0] =>
        destruct (flag_inv_start key now (Initiator (length cls)) p0) as (p1 & -> & Hinv) end.
      cbn -[subscribe] in *.
      match goal with |- context [subscribe ?a ?b ?c] =>
        destruct (subscribe a b c) as [[[]|e] p2] end; exact Hinv.
    + match goal with |- context [start_load key now ?p0] =>
        destruct (flag_inv_start key now (Initiator (length cls)) p0) as (p1 & -> & Hinv) end.
      cbn -[subscribe] in *.
      match goal with |- context [subscribe ?a ?b ?c] =>
        destruct (subscribe a b c) as [[[]|e] p2] end; exact Hinv.
  - destruct (callbacks p !! name) as [k|];
      cbn -[on_callback set_script_state]; [|done]. intros [= <-].
    pose proof (flag_inv_script_state k Executed p (conj H1 (conj H2 H3))) as Hq.
    unfold on_callback.
    erewrite bind_snd by reflexivity. erewrite bind_snd by reflexivity.
    apply flag_inv_checkReady. by eapply flag_inv_ext; [| | |exact Hq].
  - destruct (loads p !! k) as [l|];
      cbn -[on_script_error set_script_state]; [|done].
    destruct (script_state l); try done. intros [= <-].
    destruct (flag_inv_script_state k Errored p (conj H1 (conj H2 H3))) as (_ & Hq2 & Hq3).
    unfold on_script_error.
    erewrite bind_snd by reflexivity. erewrite bind_snd by reflexivity.
    erewrite bind_snd by reflexivity.
    by apply flag_inv_settled.
  - destruct (timeouts p) as [|k rest]; [done|]. intros [= <-].
    unfold on_timeout. erewrite bind_snd by reflexivity.
    cbn [isLoadingGoogleMaps set_timeouts].
    destruct (isLoadingGoogleMaps p) eqn:Hflag.
    + erewrite bind_snd by reflexivity. erewrite bind_snd by reflexivity.
      by apply flag_inv_settled.
    + cbn. split; [|by split]. cbn. by rewrite Hflag.
  - case_bool_decide; [|done]. intros [= <-].
    apply flag_inv_checkReady. by eapply flag_inv_ext; [| | |exact (conj H1 (conj H2 H3))].
  - intros [= <-]. done.
Qed.

(** In every run from a fresh page, while [isLoadingGoogleMaps] is set the
    recorded [loadPromise] is pending, so a caller that joins never chains
    on a promise that has already settled; and the recorded promise is
    always the one of the latest load, absent only before the first load. *)
Theorem flag_means_pending es p :
  run fresh es = Some p →
  (isLoadingGoogleMaps p = true →
   ∃ k l, loadPromise p = Some k ∧ loads p !! k = Some l ∧ settled l = None)
  ∧ (∀ k, loadPromise p = Some k → S k = length (loads p))
  ∧ (loadPromise p = None → loads p = []).
Proof.
  apply (run_invariant flag_inv); [apply flag_inv_step|].
  split; [done|]. split; done.
Qed.

Lemma flag_means_pending_witness :
  (isLoadingGoogleMaps mounted_page = true →
   ∃ k l, loadPromise mounted_page = Some k ∧ loads mounted_page !! k = Some l
          ∧ settled l = None)
  ∧ (∀ k, loadPromise mounted_page = Some k → S k = length (loads mounted_page))
  ∧ (loadPromise mounted_page = None → loads mounted_page = []).
Proof.
  apply (flag_means_pending [Mount valid_key 1000]).
  apply default_Some. apply (bool_decide_unpack _). vm_compute. exact I.
Defined.

(** *** Reporting loaded *)

Lemma honest_ret {A} (a : A) : honest (ret a).
Proof. intros p. split; [done|]. by left. Qed.

Lemma honest_gets {A} (g : page → A) : honest (gets g).
Proof. intros p. split; [done|]. by left. Qed.

Lemma honest_modify (g : page → page) :
  (∀ p, google (g p) = google p) → (∀ p, callers (g p) = callers p) → honest (modify g).
Proof. intros Hg Hc p. cbn. rewrite Hg, Hc. split; [done|]. by left. Qed.

Lemma honest_bind {A C} (m : M page A) (k : A → M page C) :
  honest m → (∀ a, honest (k a)) → honest (bind m k).
Proof.
  intros Hm Hk p. unfold bind. destruct (Hm p) as [Hg Hc].
  destruct (m p) as [[a|e] p1]; cbn in *; [|done].
  destruct (Hk a p1) as [Hg' Hc']. split; [congruence|].
  intros i Hi. destruct (Hc' i Hi) as [Hi' | Hr]; [by apply Hc|].
  right. congruence.
Qed.

Lemma honest_for_each {A} (g : A → M page unit) (l : list A) :
  (∀ a, honest (g a)) → honest (for_each g l).
Proof.
  intros Hg. induction l as [|a l IH]; cbn; [apply honest_ret|].
  apply honest_bind; [apply Hg | intros _; apply IH].
Qed.

Lemma honest_log line : honest (console_log line).
Proof. by apply honest_modify. Qed.

Lemma honest_setLoaded_false c : honest (setLoaded c false).
Proof.
  intros p. split; [done|]. intros i. cbn.
  intros [[? [? ?]] | [? ?]]%list_lookup_insert_Some; [done | by left].
Qed.

Lemma honest_on_fulfilled r : honest (on_fulfilled r).
Proof.
  intros p. unfold on_fulfilled, isFullyLoaded, setLoaded. js_unfold. cbn.
  destruct (isFullyLoaded_window (google p)) eqn:Hr; cbn; (split; [done|]); auto.
Qed.

Lemma honest_react c r : honest (react c r).
Proof.
  destruct c as [[]|e]; cbn; [apply honest_on_fulfilled|].
  destruct r; cbn; [|apply honest_setLoaded_false].
  apply honest_bind; [apply honest_log | intros _; apply honest_setLoaded_false].
Qed.

Lemma honest_settle k c : honest (settle k c).
Proof.
  unfold settle. apply honest_bind; [apply honest_gets|].
  intros [l|]; [|apply honest_ret].
  destruct (settled l); [apply honest_ret|].
  apply honest_bind; [by apply honest_modify|].
  intros _. apply honest_for_each. apply honest_react.
Qed.

Lemma honest_subscribe k r : honest (subscribe k r).
Proof.
  unfold subscribe. apply honest_bind; [apply honest_gets|].
  intros [l|]; [|apply honest_ret].
  apply honest_bind; [by apply honest_modify|].
  intros _. destruct (settled l); [apply honest_react | apply honest_ret].
Qed.

Lemma honest_checkReady k : honest (checkReady k).
Proof.
  unfold checkReady, isFullyLoaded. apply honest_bind; [apply honest_gets|].
  intros []; (apply honest_bind; [apply honest_log|]); intros _.
  - apply honest_bind; [by apply honest_modify|]. intros _. apply honest_settle.
  - by apply honest_modify.
Qed.

Lemma honest_start_load key now : honest (start_load key now).
Proof.
  unfold start_load.
  repeat (apply honest_bind; [first [apply honest_log | apply honest_gets | by apply honest_modify]|];
          intros ?).
  apply honest_ret.
Qed.

Lemma bind_gets {A C} (g : page → A) (k : A → M page C) p :
  bind (gets g) k p = k (g p) p.
Proof. reflexivity. Qed.

Lemma bind_modify {C} (g : page → page) (k : unit → M page C) p :
  bind (modify g) k p = k tt (g p).
Proof. reflexivity. Qed.

Lemma honest_effect caller apiKey now : honest (effect caller apiKey now).
Proof.
  unfold effect. destruct apiKey as [key|]; [|apply honest_log].
  destruct (invalid_key (Some key)); [apply honest_log|].
  intros p. unfold isFullyLoaded. rewrite bind_gets.
  destruct (isFullyLoaded_window (google p)) eqn:Hr.
  - unfold setLoaded. js_unfold. cbn. split; [done|]. auto.
  - revert p Hr.
    enough (H : honest (loading ← gets isLoadingGoogleMaps;
          promise ← gets loadPromise;
          match loading, promise with
          | true, Some k =>
              console_log "Google Maps API already loading, waiting...";;
              subscribe k (Joiner caller)
          | _, _ =>
              modify (set_isLoadingGoogleMaps true);;
              k ← start_load key now;
              modify (set_loadPromise (Some k));;
              subscribe k (Initiator caller)
          end)%js).
    { intros p Hr. destruct (H p) as [Hg Hc]. split; [done|].
      intros i Hi. destruct (Hc i Hi); [by left | congruence]. }
    apply honest_bind; [apply honest_gets|]. intros loading.
    apply honest_bind; [apply honest_gets|]. intros promise.
    assert (Hs : honest (modify (set_isLoadingGoogleMaps true);;
            k ← start_load key now;
            modify (set_loadPromise (Some k));;
            subscribe k (Initiator caller))%js).
    { apply honest_bind; [by apply honest_modify|]. intros _.
      apply honest_bind; [apply honest_start_load|]. intros k.
      apply honest_bind; [by apply honest_modify|]. intros _. apply honest_subscribe. }
    destruct loading, promise as [k|]; try exact Hs.
    apply honest_bind; [apply honest_log|]. intros _. apply honest_subscribe.
Qed.

Lemma honest_useGoogleMaps apiKey now : honest (useGoogleMaps apiKey now).
Proof.
  intros p. unfold useGoogleMaps, isFullyLoaded.
  rewrite bind_gets. unfold console_log. rewrite bind_modify, bind_gets, bind_modify.
  rewrite bind_ret_snd.
  match goal with |- context [effect ?c _ _ ?p0] =>
    destruct (honest_effect c apiKey now p0) as [Hg Hc] end.
  cbn in Hg, Hc. split; [done|].
  intros i Hi. destruct (Hc i Hi) as [Hi'|]; [|by right].
  apply lookup_app_Some in Hi' as [? | [_ Hi']]; [by left|].
  destruct (i - length (callers p)); cbn in Hi'; [|done]. right. congruence.
Qed.

(** No event makes a hook instance report loaded unless the SDK passes the
    readiness test on the page the event leaves: an instance that reports
    loaded after a step either did so before it, or [window.google] is
    fully initialised. *)
Theorem loaded_only_when_ready p e p' i :
  step p e = Some p' →
  callers p' !! i = Some true →
  callers p !! i = Some true ∨ isFullyLoaded_window (google p') = true.
Proof.
  destruct e as [apiKey now|name|k error| |k|g];
    cbn -[useGoogleMaps on_callback on_script_error on_timeout checkReady set_script_state].
  - intros [= <-]. destruct (honest_useGoogleMaps apiKey now p) as [-> Hc]. apply Hc.
  - destruct (callbacks p !! name) as [k|];
      cbn -[on_callback set_script_state]; [|done]. intros [= <-].
    assert (H : honest (on_callback k name)).
    { unfold on_callback. apply honest_bind; [apply honest_log|]. intros _.
      apply honest_bind; [by apply honest_modify|]. intros _. apply honest_checkReady. }
    match goal with |- context [on_callback k name ?q] => destruct (H q) as [-> Hc] end.
    apply Hc.
  - destruct (loads p !! k) as [l|];
      cbn -[on_script_error set_script_state]; [|done].
    destruct (script_state l); try done. intros [= <-].
    assert (H : honest (on_script_error k (callbackName l) error)).
    { unfold on_script_error. apply honest_bind; [apply honest_log|]. intros _.
      apply honest_bind; [by apply honest_modify|]. intros _.
      apply honest_bind; [by apply honest_modify|]. intros _. apply honest_settle. }
    match goal with |- context [on_script_error k _ _ ?q] => destruct (H q) as [-> Hc] end.
    apply Hc.
  - destruct (timeouts p) as [|k rest]; [done|]. intros [= <-].
    assert (H : honest (on_timeout k)).
    { unfold on_timeout. apply honest_bind; [apply honest_gets|].
      intros []; [|apply honest_ret].
      apply honest_bind; [apply honest_log|]. intros _.
      apply honest_bind; [by apply honest_modify|]. intros _. apply honest_settle. }
    destruct (H (set_timeouts rest p)) as [-> Hc]. apply Hc.
  - case_bool_decide; [|done]. intros [= <-].
    destruct (honest_checkReady k (set_polls (remove_first k (polls p)) p)) as [-> Hc].
    apply Hc.
  - intros [= <-]. by left.
Qed.

Lemma loaded_only_when_ready_witness :
  callers attached_page !! 0 = Some true
  ∨ isFullyLoaded_window (google ready_page) = true.
Proof.
  apply (loaded_only_when_ready attached_page (ScriptCallback "initGoogleMaps_1000")
           ready_page 0).
  - apply default_Some. apply (bool_decide_unpack _). vm_compute. exact I.
  - vm_compute. reflexivity.
Defined.

(** *** Settling a load *)

Lemma told_lookup b rs cs :
  length (told b cs rs) = length cs
  ∧ (∀ r, r ∈ rs → reaction_caller r < length cs →
          told b cs rs !! reaction_caller r = Some b)
  ∧ (∀ i, i ∉ reaction_caller <$> rs → told b cs rs !! i = cs !! i)
  ∧ (∀ i, cs !! i = Some b → told b cs rs !! i = Some b).
Proof.
  revert cs. induction rs as [|r rs IH]; intros cs; cbn.
  { split; [done|]. split; [by intros r ?%elem_of_nil|]. done. }
  destruct (IH (<[reaction_caller r := b]> cs)) as (Hlen & Hin & Hout & Hkeep).
  rewrite length_insert in Hlen, Hin. split; [done|]. split; [|split].
  - intros r' [-> | Hr']%elem_of_cons Hlt; [|by apply Hin].
    apply Hkeep. by apply list_lookup_insert_eq.
  - intros i Hi. rewrite not_elem_of_cons in Hi. destruct Hi as [Hne Hi].
    rewrite Hout by done. by apply list_lookup_insert_ne.
  - intros i Hi. apply Hkeep.
    destruct (decide (i = reaction_caller r)) as [-> | Hne].
    + apply list_lookup_insert_eq. by eapply lookup_lt_Some.
    + by rewrite list_lookup_insert_ne.
Qed.

Lemma react_spec c r p :
  (fulfilled c = true → isFullyLoaded_window (google p) = true) →
  ∃ p1, react c r p = (Normal tt, p1)
    ∧ callers p1 = <[reaction_caller r := fulfilled c]> (callers p)
    ∧ google p1 = google p.
Proof.
  intros Hr. destruct p as [flag promise g cbs doc lds tos pls cls o].
  destruct c as [[]|e]; cbn in *.
  - unfold on_fulfilled, isFullyLoaded, setLoaded. js_unfold. cbn. rewrite Hr by done.
    cbn. eauto.
  - destruct r; cbn; unfold setLoaded; js_unfold; cbn; eauto.
Qed.

Lemma for_each_react c rs p :
  (fulfilled c = true → isFullyLoaded_window (google p) = true) →
  callers (for_each (react c) rs p).2 = told (fulfilled c) (callers p) rs.
Proof.
  revert p. induction rs as [|r rs IH]; intros p Hr; cbn -[react]; [done|].
  destruct (react_spec c r p Hr) as (p1 & Hp1 & Hc & Hg).
  rewrite (bind_snd _ _ _ _ _ Hp1), IH by (by rewrite Hg). by rewrite Hc.
Qed.

Lemma settle_spec k c p l :
  loads p !! k = Some l → settled l = None →
  (fulfilled c = true → isFullyLoaded_window (google p) = true) →
  loads (settle k c p).2
  = <[k := Load (Some c) (reactions l) (callbackName l) (script_state l)]> (loads p)
  ∧ callers (settle k c p).2 = told (fulfilled c) (callers p) (reactions l)
  ∧ isLoadingGoogleMaps (settle k c p).2 = isLoadingGoogleMaps p.
Proof.
  intros Hl Hs Hr. split; [|split]; [| |by rewrite (preserves_settle isLoadingGoogleMaps)].
  - unfold settle. rewrite bind_gets, Hl, Hs, bind_modify.
    by rewrite (preserves_for_each loads) by (intros; by apply preserves_react).
  - unfold settle. rewrite bind_gets, Hl, Hs, bind_modify.
    by rewrite for_each_react.
Qed.

Lemma checkReady_ready k p :
  isFullyLoaded_window (google p) = true →
  (checkReady k p).2 = (settle k (Normal tt) (set_isLoadingGoogleMaps false
                          (map_ui (ui_log "Google Maps API fully ready") p))).2.
Proof. intros Hr. pose proof (checkReady_spec k p) as Hc. by rewrite Hr in Hc. Qed.

(** When an event settles a pending load, the promise takes the outcome,
    the flag is cleared, every hook instance chained on the promise is told
    in the same turn (loaded on success, not loaded on failure), and no
    other instance changes. *)
Theorem outcome_reaches_every_subscriber p e p' k c l :
  step p e = Some p' → settles p e = Some (k, c) →
  loads p !! k = Some l → settled l = None →
  settled <$> loads p' !! k = Some (Some c)
  ∧ isLoadingGoogleMaps p' = false
  ∧ (∀ r, r ∈ reactions l → reaction_caller r < length (callers p) →
          callers p' !! reaction_caller r = Some (fulfilled c))
  ∧ (∀ i, i ∉ reaction_caller <$> reactions l → callers p' !! i = callers p !! i).
Proof.
  intros Hstep Hsettles Hl Hs.
  assert (Hk : k < length (loads p)) by (by eapply lookup_lt_Some).
  enough (∃ q l', p' = (settle k c q).2 ∧ loads q !! k = Some l' ∧ settled l' = None
                  ∧ reactions l' = reactions l ∧ callers q = callers p
                  ∧ isLoadingGoogleMaps q = false
                  ∧ (fulfilled c = true → isFullyLoaded_window (google q) = true))
    as (q & l' & -> & Hl' & Hs' & Hrs & Hcs & Hflag & Hready).
  { destruct (settle_spec k c q l' Hl' Hs' Hready) as (-> & -> & ->).
    destruct (told_lookup (fulfilled c) (reactions l') (callers q)) as (_ & Hin & Hout & _).
    rewrite Hrs, Hcs in *. split; [|done].
    rewrite list_lookup_insert_eq by (by eapply lookup_lt_Some). done. }
  destruct e as [apiKey now|name|j error| |j|g];
    cbn -[on_callback on_script_error on_timeout checkReady set_script_state] in *; try done.
  - destruct (callbacks p !! name) as [j|];
      cbn -[on_callback set_script_state] in *; [|done].
    destruct (isFullyLoaded_window (google p)) eqn:Hr; [|done].
    injection Hsettles as -> <-. injection Hstep as <-.
    unfold on_callback, console_log. rewrite bind_modify, bind_modify.
    rewrite checkReady_ready by exact Hr.
    eexists _, _. split; [reflexivity|]. cbn.
    rewrite list_lookup_alter_eq, Hl. cbn. done.
  - destruct (loads p !! j) as [l0|] eqn:Hl0;
      cbn -[on_script_error set_script_state] in *; [|done].
    destruct (script_state l0); try done.
    injection Hsettles as -> <-. injection Hstep as <-.
    unfold on_script_error, console_error. rewrite !bind_modify.
    eexists _, _. split; [reflexivity|]. cbn.
    rewrite list_lookup_alter_eq, Hl. cbn. done.
  - destruct (timeouts p) as [|j rest]; [done|].
    destruct (isLoadingGoogleMaps p) eqn:Hflag; [|done].
    injection Hsettles as -> <-. injection Hstep as <-.
    unfold on_timeout. rewrite bind_gets. cbn [isLoadingGoogleMaps set_timeouts].
    rewrite Hflag. unfold console_warn. rewrite !bind_modify.
    eexists _, _. split; [reflexivity|]. cbn. done.
  - case_bool_decide; [|done].
    destruct (isFullyLoaded_window (google p)) eqn:Hr; [|done].
    injection Hsettles as -> <-. injection Hstep as <-.
    rewrite checkReady_ready by exact Hr.
    eexists _, _. split; [reflexivity|]. cbn. done.
Qed.

Lemma outcome_reaches_every_subscriber_witness :
  settled <$> loads failed_page !! 0 = Some (Some (Throw (Error "net::ERR_FAILED")))
  ∧ isLoadingGoogleMaps failed_page = false
  ∧ (∀ r, r ∈ reactions shared_load → reaction_caller r < length (callers shared_page) →
          callers failed_page !! reaction_caller r = Some false)
  ∧ (∀ i, i ∉ reaction_caller <$> reactions shared_load →
          callers failed_page !! i = callers shared_page !! i).
Proof.
  apply (outcome_reaches_every_subscriber shared_page (ScriptError 0 (Error "net::ERR_FAILED"))
           failed_page 0 (Throw (Error "net::ERR_FAILED")) shared_load).
  - apply default_Some. apply (bool_decide_unpack _). vm_compute. exact I.
  - reflexivity.
  - apply default_Some. apply (bool_decide_unpack _). vm_compute. exact I.
  - vm_compute. reflexivity.
Defined.

End GoogleMapsFacts.

(** ** Requests to the backend *)

Module backendApiFacts.

Local Open Scope list_scope.

Ltac js_unfold :=
  unfold try_catch, try_finally, bind, await, ret, throw, gets, modify,
    console_error, console_log, console_warn, toast_error, toast_success, toast_loading in *.


End backendApiFacts.

(** ** The application shell *)

Module AppFacts.

Import App.
Local Open Scope list_scope.

Ltac js_unfold :=
  unfold try_catch, try_finally, bind, await, ret, throw, gets, modify,
    console_error, console_log, console_warn, toast_error, toast_success, toast_loading in *.

(** The mount effect and [checkServerHealth] together: [checkServer]
    never rejects; the status indicator leaves [Checking] for [Online]
    exactly when the health request answered with a status in 200-299, and
    for [Offline] otherwise; going offline shows the notice that the server
    is offline once and no other toast.  The handler's own [catch], with
    its notice that the server is not available, never runs, because
    [checkServerHealth] swallows every failure. *)
Theorem checkServer_reports (API_BASE_URL : string)
  (fetch : string → completion backendApi.response) (a : app) :
  ∃ a', checkServer API_BASE_URL fetch a = (Normal tt, a')
    ∧ (serverStatus a' = Online
       ↔ ∃ r, fetch (API_BASE_URL +:+ "/health") = Normal r ∧ backendApi.ok r = true)
    ∧ (serverStatus a' = Online ∨ serverStatus a' = Offline)
    ∧ notices a'
      = notices a ++
        match serverStatus a' with
        | Online => []
        | _ => ["Backend server is offline. You can still explore the demo with limited functionality."]
        end
    ∧ toasts (out a') = toasts (out a).
Proof.
  destruct a as [place theme st video gen status cur ns o].
  unfold checkServer, backendApi.checkServerHealth. js_unfold.
  destruct (fetch (API_BASE_URL +:+ "/health")) as [r|e] eqn:Hfetch; cbn.
  - destruct (backendApi.ok r) eqn:Hok; cbn; eexists; (split; [reflexivity|]); cbn.
    + rewrite app_nil_r. split; [|by auto]. split; [by eauto|done].
    + split; [|by auto]. split; [done|]. intros (r' & [= <-] & Hr). congruence.
  - eexists; (split; [reflexivity|]); cbn.
    split; [|by auto]. split; [done|]. by intros (r' & ? & _).
Qed.



Lemma step_fields w e w' :
  step w e = Some w' →
  match e with
  | SelectPlace place =>
      selectedPlace (state w') = Some place ∧ currentStep (state w') = 2%Z
      ∧ isGeneratingStory (state w') = isGeneratingStory (state w)
      ∧ pending w' = pending w
  | SelectTheme theme =>
      selectedPlace (state w') = selectedPlace (state w)
      ∧ match selectedPlace (state w) with
        | None => currentStep (state w') = currentStep (state w)
                  ∧ isGeneratingStory (state w') = isGeneratingStory (state w)
                  ∧ pending w' = pending w
        | Some _ => currentStep (state w') = 3%Z
                    ∧ isGeneratingStory (state w') = true
                    ∧ pending w' = S (pending w)
        end
  | ScriptSettled fetched json =>
      selectedPlace (state w') = selectedPlace (state w)
      ∧ currentStep (state w') = (if script_fails fetched json then 2%Z else 4%Z)
      ∧ isGeneratingStory (state w') = false
      ∧ pending w = S (pending w')
  end.
Proof.
  destruct w as [[pl th st video gen status cur ns o] n].
  destruct e as [place|theme|fetched json]; cbn.
  - intros [= <-]. done.
  - unfold handleThemeSelect_begin, backendApi.fetchScript_begin. js_unfold. cbn.
    destruct pl; cbn; intros [= <-]; done.
  - destruct n as [|n]; [done|]. intros [= <-]. cbn.
    unfold handleThemeSelect_resume, backendApi.fetchScript_resume, backendApi.apiRequest,
      script_fails.
    js_unfold. cbn.
    destruct fetched as [r|e]; cbn; [destruct (backendApi.ok r) eqn:Hok; cbn|];
      destruct json as [[s|e']|e']; cbn; rewrite ?Hok; done.
Qed.

Lemma wizard_inv_step w e w' : wizard_inv w → step w e = Some w' → wizard_inv w'.
Proof.
  intros (Hrange & Hone & Hgen & Hthree & Hpl) Hstep. apply step_fields in Hstep.
  unfold wizard_inv.
  destruct e as [place|theme|fetched json].
  - destruct Hstep as (-> & -> & -> & ->).
    split; [lia|]. split; [done|]. split; [done|]. split; done.
  - destruct Hstep as (-> & Hrest).
    destruct (selectedPlace (state w)) as [pl|] eqn:Hplace.
    + destruct Hrest as (-> & -> & ->). split; [lia|]. split; [done|]. done.
    + destruct Hrest as (-> & -> & ->). done.
  - destruct Hstep as (-> & -> & -> & Hp).
    assert (Hsome : selectedPlace (state w) ≠ None) by (apply Hpl; lia).
    destruct (script_fails fetched json).
    + split; [lia|]. split; [done|]. split; [done|]. split; [done|]. by intros _.
    + split; [lia|]. split; [done|]. split; [done|]. split; [done|]. by intros _.
Qed.

Lemma wizard_inv_run es w0 w : wizard_inv w0 → run w0 es = Some w → wizard_inv w.
Proof.
  revert w0. induction es as [|e es IH]; intros w0 Hinv Hrun; cbn in Hrun.
  - by simplify_eq.
  - destruct (step w0 e) as [w1|] eqn:Hs; [|done]. cbn in Hrun.
    eapply IH; [|done]. by eapply wizard_inv_step.
Qed.

(** Whatever the user selects and however the requests settle: the step
    is between 1 and 4; it is 1 exactly while no place is selected; and the
    wizard shows the loading card, or step 3, only while a request for a
    story is pending. *)
Theorem wizard_never_stuck es w :
  run init es = Some w →
  (1 ≤ currentStep (state w) ≤ 4)%Z
  ∧ (currentStep (state w) = 1%Z ↔ selectedPlace (state w) = None)
  ∧ (isGeneratingStory (state w) = true → pending w ≠ 0%nat)
  ∧ (currentStep (state w) = 3%Z → pending w ≠ 0%nat).
Proof.
  intros Hrun.
  enough (wizard_inv w) as (? & ? & ? & ? & _) by done.
  eapply wizard_inv_run; [|done].
  unfold wizard_inv; cbn. split; [lia|]. split; [done|]. split; [done|]. split; done.
Qed.

Lemma wizard_never_stuck_witness :
  (1 ≤ currentStep (state generating) ≤ 4)%Z
  ∧ (currentStep (state generating) = 1%Z ↔ selectedPlace (state generating) = None)
  ∧ (isGeneratingStory (state generating) = true → pending generating ≠ 0%nat)
  ∧ (currentStep (state generating) = 3%Z → pending generating ≠ 0%nat).
Proof.
  exact (wizard_never_stuck [SelectPlace sample_place; SelectTheme sample_theme]
           generating eq_refl).
Defined.

End AppFacts.

(** ** Tags of a story *)

Module StoryServiceFacts.

Import StoryService.
Local Open Scope list_scope.
Local Open Scope nat_scope.

Lemma split_go_pieces in_run piece s w :
  spaceless piece → w ∈ split_go in_run piece s →
  spaceless w ∧ ∃ pre post, piece ++ s = pre ++ w ++ post.
Proof.
  revert in_run piece. induction s as [|c s IH]; intros in_run piece Hp; cbn.
  - intros ->%list_elem_of_singleton. split; [done|]. exists [], []. by rewrite !app_nil_r.
  - destruct (is_space c) eqn:Hc.
    + assert (Hrest : w ∈ split_go true [] s →
                      spaceless w ∧ ∃ pre post, piece ++ c :: s = pre ++ w ++ post).
      { intros Hw. destruct (IH true [] (Forall_nil_2 _) Hw) as (Hs & pre & post & Heq).
        split; [done|]. exists (piece ++ c :: pre), post. cbn in Heq.
        rewrite Heq. by rewrite <- !app_assoc. }
      destruct in_run; [exact Hrest|].
      intros [-> | Hw]%elem_of_cons; [|by apply Hrest].
      split; [done|]. by exists [], (c :: s).
    + intros Hw.
      destruct (IH false (piece ++ [c])) as (Hs & pre & post & Heq); [|done|].
      { apply Forall_app. split; [done|]. by apply Forall_singleton. }
      split; [done|]. exists pre, post. rewrite <- Heq. by rewrite <- app_assoc.
Qed.

Lemma dash_go_spaceless in_run s : spaceless (dash_go in_run s).
Proof.
  revert in_run. induction s as [|c s IH]; intros in_run; cbn; [by apply Forall_nil|].
  destruct (is_space c) eqn:Hc.
  - destruct in_run; [apply IH|]. apply Forall_cons. split; [done | apply IH].
  - apply Forall_cons. split; [done | apply IH].
Qed.

Lemma uniq_go_spec seen l :
  NoDup (uniq_go seen l)
  ∧ (∀ x, x ∈ uniq_go seen l ↔ x ∈ l ∧ x ∉ seen)
  ∧ length (uniq_go seen l) ≤ length l.
Proof.
  revert seen. induction l as [|x l IH]; intros seen; cbn.
  - split; [by apply NoDup_nil|]. split; [|lia]. intros x. rewrite elem_of_nil. tauto.
  - case_bool_decide as Hx.
    + destruct (IH seen) as (Hnd & Hin & Hlen). split; [done|]. split; [|lia].
      intros y. rewrite Hin, elem_of_cons. split; [tauto|].
      intros [[-> | Hy] Hns]; [done | tauto].
    + destruct (IH (x :: seen)) as (Hnd & Hin & Hlen). split; [|split; [|cbn; lia]].
      * apply NoDup_cons. split; [|done]. rewrite Hin, elem_of_cons. tauto.
      * intros y. rewrite !elem_of_cons, Hin, elem_of_cons.
        destruct (decide (y = x)) as [-> | Hne]; [tauto|]. tauto.
Qed.

Lemma uniq_cons x l : ∃ rest, uniq (x :: l) = (x :: rest).
Proof. unfold uniq. cbn. rewrite bool_decide_eq_false_2 by apply not_elem_of_nil. eauto. Qed.

Section Tags.
Variable toLowerCase : jsstring → jsstring.

Lemma wordTags_spec content w :
  w ∈ wordTags toLowerCase content →
  (3 < length w) ∧ (w ∉ commonWords) ∧ spaceless w
  ∧ ∃ pre post, toLowerCase content = pre ++ w ++ post.
Proof.
  unfold wordTags. intros Hw.
  assert (Hf : w ∈ filter (λ w, keeps w = true) (split_ws (toLowerCase content))).
  { rewrite <- (take_drop 5 (filter _ _)). apply elem_of_app. by left. }
  clear Hw. apply list_elem_of_filter in Hf as [Hk Hw].
  apply (split_go_pieces false []) in Hw as (Hs & pre & post & Heq); [|by apply Forall_nil].
  unfold keeps in Hk. apply andb_prop in Hk as [Hlen Hc].
  apply bool_decide_eq_true in Hlen. apply negb_true_iff, bool_decide_eq_false in Hc.
  eauto 10.
Qed.

(** [extractTags] never returns a tag twice and never more than six tags,
    five when no place name is given; without content it returns no tag at
    all, the place name included. *)
Theorem extractTags_distinct_and_few content placeName :
  NoDup (extractTags toLowerCase content placeName)
  ∧ length (extractTags toLowerCase content placeName) ≤ 6
  ∧ match placeName with
    | None | Some [] => length (extractTags toLowerCase content placeName) ≤ 5
    | Some _ => True
    end
  ∧ match content with
    | None | Some [] => extractTags toLowerCase content placeName = []
    | Some _ => True
    end.
Proof.
  assert (Hw : ∀ c, length (wordTags toLowerCase c) ≤ 5).
  { intros c. unfold wordTags. rewrite length_take. lia. }
  unfold extractTags, uniq.
  destruct content as [[|c content]|].
  1, 3: (split; [by apply NoDup_nil|]); cbn; (split; [lia|]);
    destruct placeName as [[]|]; (split; [first [cbn; lia | done] | done]).
  destruct placeName as [[|p placeName]|];
    match goal with |- context [uniq_go [] ?l] =>
      destruct (uniq_go_spec [] l) as (Hnd & _ & Hlen) end;
    (split; [done|]); cbn [length] in Hlen; specialize (Hw (c :: content)); (split; [lia|]);
    (split; [first [lia | done] | done]).
Qed.

(** Every tag is free of white space, and is either the place tag (the
    lower-cased place name with each run of white space replaced by one
    dash) or a word of the lower-cased content: a contiguous part of it,
    longer than three code units and not a common word. *)
Theorem extractTags_sound content placeName t :
  t ∈ extractTags toLowerCase content placeName →
  spaceless t
  ∧ ((∃ name, placeName = Some name ∧ name ≠ [] ∧ t = placeTag toLowerCase name)
     ∨ ((3 < length t) ∧ (t ∉ commonWords)
        ∧ ∃ text pre post, content = Some text ∧ toLowerCase text = pre ++ t ++ post)).
Proof.
  unfold extractTags, uniq.
  destruct content as [[|c content]|]; [by intros ?%elem_of_nil| |by intros ?%elem_of_nil].
  assert (Hword : t ∈ wordTags toLowerCase (c :: content) →
    spaceless t
    ∧ ((∃ name, placeName = Some name ∧ name ≠ [] ∧ t = placeTag toLowerCase name)
       ∨ ((3 < length t) ∧ (t ∉ commonWords)
          ∧ ∃ text pre post, Some (c :: content) = Some text
                             ∧ toLowerCase text = pre ++ t ++ post))).
  { intros (Hlen & Hc & Hs & pre & post & Heq)%wordTags_spec.
    split; [done|]. right. eauto 10. }
  destruct placeName as [[|p placeName]|];
    match goal with |- context [uniq_go [] ?l] =>
      destruct (uniq_go_spec [] l) as (_ & Hin & _) end;
    rewrite Hin; intros [Ht _]; try by apply Hword.
  apply elem_of_cons in Ht as [-> | Ht]; [|by apply Hword].
  split; [apply dash_go_spaceless|]. left. by exists (p :: placeName).
Qed.

End Tags.

Lemma extractTags_sound_witness :
  spaceless (units "bridge")
  ∧ ((∃ name, sample_placeName = Some name ∧ name ≠ []
              ∧ units "bridge" = placeTag ascii_lower name)
     ∨ ((3 < length (units "bridge")) ∧ (units "bridge" ∉ commonWords)
        ∧ ∃ text pre post, sample_content = Some text
                           ∧ ascii_lower text = pre ++ units "bridge" ++ post)).
Proof.
  apply (extractTags_sound ascii_lower sample_content sample_placeName (units "bridge")).
  apply (bool_decide_unpack _). vm_compute. exact I.
Defined.


End StoryServiceFacts.

(** ** Stories in the store *)

Module StoriesFacts.

Import StoryService Stories.
Local Open Scope list_scope.
Local Open Scope nat_scope.

Ltac js_unfold :=
  unfold try_catch, try_finally, bind, await, ret, throw, gets, modify, send,
    console_error, console_log, console_warn, toast_error, toast_success, toast_loading in *.

(** [toggleStoryPublic] goes through [updateStory], and both report: a
    change of visibility that succeeds shows two success toasts, one that
    fails shows two error toasts and rejects; at most one update is sent,
    carrying [isPublic] and a server timestamp for [updatedAt], and none
    when the reference cannot be built. *)
Theorem toggleStoryPublic_toasts_twice (srv : server) (storyId : string) (isPublic : bool)
  (w : world) :
  ∃ c w', toggleStoryPublic srv storyId isPublic w = (c, w')
    ∧ toasts (out w') = toasts (out w) ++
        match c with
        | Normal _ =>
            [ToastSuccess "Story updated successfully!";
             ToastSuccess (if isPublic then "Story made public!" else "Story made private!")]
        | Throw _ =>
            [ToastError "Failed to update story";
             ToastError "Failed to update story visibility"]
        end
    ∧ sent w' = sent w ++
        match doc srv "stories" (JStr storyId) with
        | Normal r =>
            [UpdateDoc r (<["updatedAt" := WServerTimestamp]> {[ "isPublic" := WBool isPublic ]})]
        | Throw _ => []
        end
    ∧ (c = Normal tt ↔ ∃ r, doc srv "stories" (JStr storyId) = Normal r
                            ∧ done srv (sent w') = Normal tt).
Proof.
  destruct w as [log o]. unfold toggleStoryPublic, updateStory. js_unfold. cbn.
  destruct (doc srv "stories" (JStr storyId)) as [r|e] eqn:Hdoc; cbn.
  - destruct (done srv _) as [[]|e] eqn:Hdone; cbn;
      eexists _, _; (split; [reflexivity|]); cbn; rewrite <- ?app_assoc; cbn;
      (split; [done|]); (split; [done|]); rewrite Hdone.
    + split; [eauto|done].
    + split; [done|]. by intros (? & _ & ?).
  - eexists _, _; (split; [reflexivity|]); cbn; rewrite <- ?app_assoc, ?app_nil_r; cbn.
    split; [done|]. split; [done|]. split; [done|]. by intros (? & ? & _).
Qed.



Lemma collect_spec (srv : server) docs acc w :
  ∃ c w' asked, collect srv docs acc w = (c, w')
    ∧ out w' = out w
    ∧ sent w' = sent w ++ asked
    ∧ Forall (λ r, is_GetDoc r = true) asked
    ∧ length asked ≤ length docs
    ∧ ∀ favs, c = Normal favs →
        length asked = length docs
        ∧ ∃ new, favs = acc ++ new ∧ favoriteId <$> new `sublist_of` fst <$> docs.
Proof.
  revert acc w. induction docs as [|[id data] docs IH]; intros acc w; cbn.
  { exists (Normal acc), w, []. unfold ret. rewrite app_nil_r.
    split; [done|]. split; [done|]. split; [done|]. split; [done|]. split; [done|].
    intros favs [= <-]. split; [done|]. exists []. by rewrite app_nil_r. }
  destruct w as [log o]. js_unfold. cbn.
  destruct (doc srv "stories" _) as [r|e] eqn:Hdoc; cbn.
  2: { eexists _, _, []. split; [reflexivity|]. cbn. rewrite app_nil_r.
       split; [done|]. split; [done|]. split; [done|]. split; [lia|]. done. }
  destruct (snapshot_of srv _) as [[sdata|]|e] eqn:Hsnap; cbn.
  - match goal with |- context [collect srv docs ?a ?w0] =>
      destruct (IH a w0) as (c & w' & asked & -> & Ho & Hs & Hall & Hlen & Hres) end.
    exists c, w', (GetDoc r :: asked). split; [done|]. cbn in *.
    split; [done|]. split; [by rewrite Hs, <- app_assoc|].
    split; [by constructor|]. split; [lia|].
    intros favs Hc. destruct (Hres favs Hc) as (Hl & new & -> & Hsub).
    split; [lia|]. eexists (_ :: new). rewrite <- app_assoc. split; [done|].
    cbn. by apply sublist_skip.
  - match goal with |- context [collect srv docs ?a ?w0] =>
      destruct (IH a w0) as (c & w' & asked & -> & Ho & Hs & Hall & Hlen & Hres) end.
    exists c, w', (GetDoc r :: asked). split; [done|]. cbn in *.
    split; [done|]. split; [by rewrite Hs, <- app_assoc|].
    split; [by constructor|]. split; [lia|].
    intros favs Hc. destruct (Hres favs Hc) as (Hl & new & -> & Hsub).
    split; [lia|]. exists new. split; [done|]. by apply sublist_cons.
  - eexists _, _, [_]. split; [reflexivity|]. cbn.
    split; [done|]. split; [done|]. split; [by repeat constructor|]. split; [lia|]. done.
Qed.

Lemma try_catch_rethrow_Normal {W A} (body : M W A) (h : exn → M W unit) w a w' :
  try_catch body (λ e, bind (h e) (λ _, throw e)) w = (Normal a, w') →
  body w = (Normal a, w').
Proof.
  unfold try_catch. destruct (body w) as [[x|e] w1]; [done|].
  unfold bind, throw. by destruct (h e w1) as [[[]|] ?].
Qed.

Lemma bind_Normal {W A C} (m : M W A) (k : A → M W C) w c w' :
  bind m k w = (Normal c, w') → ∃ x w1, m w = (Normal x, w1) ∧ k x w1 = (Normal c, w').
Proof. unfold bind. destruct (m w) as [[x|e] w1]; [eauto | done]. Qed.


Lemma normal_result {W A} (r : completion A * W) (d : A) :
  (if r.1 is Normal _ then true else false) = true →
  r = (Normal (match r.1 with Normal a => a | Throw _ => d end), r.2).
Proof. by destruct r as [[a|e] w]. Qed.


(** *** Saving a story *)

Lemma NoDup_extractTags toLowerCase content placeName :
  NoDup (extractTags toLowerCase content placeName).
Proof.
  unfold extractTags, uniq.
  destruct content as [[|c content]|]; try by apply NoDup_nil.
  destruct placeName as [[|p placeName]|];
    match goal with |- context [uniq_go [] ?l] =>
      by destruct (StoryServiceFacts.uniq_go_spec [] l) as (Hnd & _) end.
Qed.

Section Save.
Variable toLowerCase : jsstring → jsstring.
Variable srv : server.
Variable story : option jsstring.
Variable selectedPlace : option place.
Variable theme : option string.

(** Without a signed-in user, or with a title that is empty or white
    space only, [handleSave] shows one error toast and does nothing else:
    no request is sent, the form and [isSaving] are untouched. *)
Theorem handleSave_refuses (user : option string) (m : modal) :
  user = None ∨ trim (title m) = [] →
  ∃ msg, handleSave toLowerCase srv user story selectedPlace theme m
         = (Normal tt, map_ui (ui_toast (ToastError msg)) m).
Proof.
  intros Hguard. unfold handleSave.
  destruct user as [uid|]; [|by eexists].
  destruct Hguard as [|Hblank]; [done|].
  unfold bind at 1, gets at 1. rewrite bool_decide_eq_true_2 by done. by eexists.
Qed.

(** With a user and a title, [handleSave] never rejects and leaves
    [isSaving] off.  It sends at most one request, the new story: title and
    description trimmed, no likes and no views, the custom tags trimmed and
    non-empty, the tags those of [extractTags] for the story and the name of
    the place, none twice.  When the story is saved, the success toast is
    shown twice (by the service and by the modal), the modal closes and the
    form is reset; when it is not, two error toasts are shown, the modal
    stays open and the form is kept. *)
Theorem handleSave_saves_once (uid : string) (m : modal) :
  trim (title m) ≠ [] →
  ∃ m' d,
    handleSave toLowerCase srv (Some uid) story selectedPlace theme m = (Normal tt, m')
    ∧ isSaving m' = false
    ∧ d = StoryDoc uid (trim (title m)) (trim (description m)) story
            (cleanPlace selectedPlace) theme (isPublic m) (tags_of (customTags m)) 0 0
            (extractTags toLowerCase story (selectedPlace ≫= name))
    ∧ NoDup (doc_tags d)
    ∧ Forall (λ t, t ≠ []) (doc_customTags d)
    ∧ match collection srv "stories" with
      | Normal _ =>
          sent (client m') = sent (client m) ++ [AddStory d]
          ∧ match new_id srv (sent (client m) ++ [AddStory d]) with
            | Normal _ =>
                toasts (out (client m')) = toasts (out (client m)) ++
                  [ToastSuccess "Story saved successfully!";
                   ToastSuccess "Story saved successfully!"]
                ∧ isModalOpen m' = false
                ∧ (title m', description m', customTags m', isPublic m')
                  = ([], [], [], false)
            | Throw _ =>
                toasts (out (client m')) = toasts (out (client m)) ++
                  [ToastError "Failed to save story";
                   ToastError "Failed to save story. Please try again."]
                ∧ isModalOpen m' = isModalOpen m
                ∧ (title m', description m', customTags m', isPublic m')
                  = (title m, description m, customTags m, isPublic m)
            end
      | Throw _ =>
          sent (client m') = sent (client m)
          ∧ toasts (out (client m')) = toasts (out (client m)) ++
              [ToastError "Failed to save story";
               ToastError "Failed to save story. Please try again."]
          ∧ isModalOpen m' = isModalOpen m
          ∧ (title m', description m', customTags m', isPublic m')
            = (title m, description m, customTags m, isPublic m)
      end.
Proof.
  intros Htitle. destruct m as [saving pub t d c open [log o]]. cbn in Htitle.
  assert (Hplace : cleanPlace selectedPlace ≫= name = selectedPlace ≫= name)
    by (by destruct selectedPlace).
  assert (Htags : Forall (λ t, t ≠ []) (tags_of c)).
  { unfold tags_of. apply Forall_forall. by intros x [? _]%list_elem_of_filter. }
  unfold handleSave. unfold bind at 1, gets at 1. cbn [title].
  rewrite bool_decide_eq_false_2 by done.
  unfold service, saveStory. js_unfold. cbn. rewrite Hplace.
  destruct (collection srv "stories") as [[]|e] eqn:Hcoll; cbn.
  - destruct (new_id srv _) as [id|e] eqn:Hid; cbn;
      eexists _, _; (split; [reflexivity|]); cbn; (split; [done|]); (split; [reflexivity|]);
      cbn; (split; [apply NoDup_extractTags|]); (split; [done|]);
      rewrite Hid; rewrite <- ?app_assoc; cbn; done.
  - eexists _, _; (split; [reflexivity|]); cbn; (split; [done|]); (split; [reflexivity|]);
      cbn; (split; [apply NoDup_extractTags|]); (split; [done|]);
      rewrite <- ?app_assoc; cbn; done.
Qed.
End Save.

Lemma handleSave_refuses_witness :
  ∃ msg, handleSave ascii_lower willing None sample_content (Some lake) (Some "mystery") titled
         = (Normal tt, map_ui (ui_toast (ToastError msg)) titled).
Proof.
  exact (handleSave_refuses ascii_lower willing sample_content (Some lake) (Some "mystery")
           None titled (or_introl eq_refl)).
Defined.

Lemma handleSave_saves_once_witness :
  ∃ m', handleSave ascii_lower willing (Some "user-1") sample_content (Some lake)
          (Some "mystery") titled = (Normal tt, m')
        ∧ isSaving m' = false
        ∧ isModalOpen m' = false.
Proof.
  destruct (handleSave_saves_once ascii_lower willing sample_content (Some lake)
              (Some "mystery") "user-1" titled ltac:(vm_compute; discriminate))
    as (m' & d & Hrun & Hsaving & _ & _ & _ & Hsaved).
  exists m'. split; [exact Hrun|]. split; [exact Hsaving|].
  exact (proj1 (proj2 (proj2 Hsaved))).
Defined.

(** *** Audio files *)


(** [deleteAudioFile] and [deleteStory]: removing the audio file never
    rejects and never shows a toast, whatever the storage does; removing a
    story shows exactly one toast and rejects exactly when the reference
    could not be built or the removal failed, and it leaves the audio file
    of the story where it is (it sends no request to the storage). *)
Theorem removals_report (srv : server) (storyId : string) (w : world) :
  (∃ w', deleteAudioFile srv storyId w = (Normal tt, w')
         ∧ toasts (out w') = toasts (out w)
         ∧ sent w' = sent w ++
             match ref srv ("audio/" +:+ storyId +:+ ".wav") with
             | Normal audioRef => [DeleteObject audioRef]
             | Throw _ => []
             end)
  ∧ (∃ c w', deleteStory srv storyId w = (c, w')
             ∧ toasts (out w') = toasts (out w) ++
                 [match c with
                  | Normal _ => ToastSuccess "Story deleted successfully!"
                  | Throw _ => ToastError "Failed to delete story"
                  end]
             ∧ sent w' = sent w ++
                 match doc srv "stories" (JStr storyId) with
                 | Normal storyRef => [DeleteDoc storyRef]
                 | Throw _ => []
                 end
             ∧ (c = Normal tt ↔ ∃ storyRef, doc srv "stories" (JStr storyId) = Normal storyRef
                                            ∧ done srv (sent w') = Normal tt)).
Proof.
  destruct w as [log o]. unfold deleteAudioFile, deleteStory. js_unfold. cbn. split.
  - destruct (ref srv _) as [r|e]; cbn.
    + destruct (done srv _) as [[]|e]; cbn; eexists; (split; [reflexivity|]); done.
    + eexists; (split; [reflexivity|]); cbn. by rewrite app_nil_r.
  - destruct (doc srv "stories" (JStr storyId)) as [r|e]; cbn.
    + destruct (done srv _) as [[]|e] eqn:Hdone; cbn;
        eexists _, _; (split; [reflexivity|]); cbn;
        (split; [done|]); (split; [done|]); rewrite Hdone.
      * split; [eauto | done].
      * split; [done|]. by intros (? & _ & ?).
    + eexists _, _; (split; [reflexivity|]); cbn. rewrite app_nil_r.
      split; [done|]. split; [done|]. split; [done|]. by intros (? & ? & _).
Qed.

End StoriesFacts.

(** ** The authentication provider *)

Module AuthContextFacts.

Import StoryService AuthContext.
Local Open Scope list_scope.
Local Open Scope nat_scope.

Ltac js_unfold :=
  unfold try_catch, try_finally, bind, await, ret, throw, gets, modify, send,
    console_error, console_log, console_warn, toast_error, toast_success, toast_loading in *.


End AuthContextFacts.

(** ** The story screen *)

Module StoryDisplayFacts.

Import StoryDisplay.
Local Open Scope list_scope.
Local Open Scope nat_scope.

Lemma player_continue c w s : player (continue c w s) = player s.
Proof. unfold continue. destruct (settled_in c w (player s)) as [[|]|]; done. Qed.

Lemma handlePlayAudio_spec a :
  ∃ a', (App.handlePlayAudio a).2 = a'
    ∧ (App.out a' = App.out a
       ∨ toasts (App.out a') = toasts (App.out a) ++ [ToastError "No story available to play"]).
Proof.
  destruct a as [pl th st video gen status cur ns o]. unfold App.handlePlayAudio.
  unfold bind, gets, ret, toast_error, modify. cbn.
  destruct (App.falsy st || App.falsy th); cbn; eauto.
Qed.

Lemma step_player s ev s' :
  step s ev = Some s' →
  player s' = player s
  ∨ ∃ e, AudioPlayer.step (player s) e = Some (player s')
         ∧ AudioPlayer.exclusive (player s) e = true.
Proof.
  destruct s as [d a w].
  destruct ev as [| |e]; unfold step, handlePlayPause, handleOnMuteAndUnMute;
    cbn -[AudioPlayer.step continue App.handlePlayAudio].
  - destruct (AudioPlayer.isLoading (AudioPlayer.hk w)) eqn:Hl; [done|].
    destruct (isPlaying d).
    + destruct (currentAudio d); [|intros [= <-]; by left].
      destruct (AudioPlayer.step w AudioPlayer.CallStop) as [w'|] eqn:Hs; [|done].
      cbn -[AudioPlayer.step]. intros [= <-]. right. by exists AudioPlayer.CallStop.
    + destruct (App.handlePlayAudio a) as [[[[script theme]|]|e] a'].
      * destruct (AudioPlayer.step w (AudioPlayer.CallPlay script theme)) as [w'|] eqn:Hs;
          [|done]. cbn -[AudioPlayer.step continue]. intros [= <-].
        rewrite player_continue. right.
        exists (AudioPlayer.CallPlay script theme). split; [done|]. cbn. rewrite Hl.
        by rewrite orb_true_r.
      * intros [= <-]. by left.
      * intros [= <-]. by left.
  - destruct (AudioPlayer.step w _) as [w'|] eqn:Hs; [|done].
    cbn -[AudioPlayer.step]. intros [= <-]. right.
    eexists. split; [exact Hs|]. by destruct (isMuted d).
  - destruct (from_browser e) eqn:Hb; [|done].
    destruct (AudioPlayer.step w e) as [w'|] eqn:Hs; [|done].
    cbn -[AudioPlayer.step continue].
    intros [= <-]. right. exists e. split.
    + destruct (resumed e); [by rewrite player_continue | done].
    + by destruct e.
Qed.

Lemma screen_run_invariant (P : screen → Prop) :
  (∀ s ev s', P s → step s ev = Some s' → P s') →
  ∀ evs s0 s, P s0 → run s0 evs = Some s → P s.
Proof.
  intros Hstep evs. induction evs as [|ev evs IH]; intros s0 s HP Hrun; cbn in Hrun.
  - by simplify_eq.
  - destruct (step s0 ev) as [s1|] eqn:Hs; [|done]. cbn in Hrun.
    eapply IH; [|done]. eauto.
Qed.

(** With the play button of [StoryDisplay], which is disabled while the
    audio is loading, the hook is never asked to play while a request is
    pending: whatever the user clicks and however the requests settle, at
    most one invocation of [playAudio] is in flight, the hook reports
    loading exactly while one is, and it holds a source exactly while its
    status is [Playing]. *)
Theorem play_button_keeps_one_request (a : App.app) evs s :
  run (mount a AudioPlayer.init) evs = Some s →
  length (AudioPlayer.in_flight (player s)) ≤ 1
  ∧ (AudioPlayer.isLoading (AudioPlayer.hk (player s)) = true
     ↔ length (AudioPlayer.in_flight (player s)) = 1)
  ∧ (is_Some (AudioPlayer.sourceRef (AudioPlayer.hk (player s)))
     ↔ AudioPlayer.status_of (player s) = AudioPlayer.Playing).
Proof.
  intros Hrun.
  assert (Hinv : AudioPlayer.session_inv (AudioPlayer.obs (player s))
                 ∧ AudioPlayer.busy_inv (AudioPlayer.obs (player s))).
  { revert Hrun. apply (screen_run_invariant (λ s,
      AudioPlayer.session_inv (AudioPlayer.obs (player s))
      ∧ AudioPlayer.busy_inv (AudioPlayer.obs (player s)))).
    - intros s0 ev s1 [Hs Hb] Hstep.
      destruct (step_player _ _ _ Hstep) as [-> | (e & He & Hex)]; [done|]. split.
      + by eapply AudioPlayerFacts.session_inv_step.
      + by eapply AudioPlayerFacts.busy_inv_step.
    - split.
      + cbn. split; [done|]. split; [|by left]. split; [done | intros [? ?]; done].
      + cbn. done. }
  destruct Hinv as [(Hsync & Hiff & Hfl) Hbusy]. cbn in Hbusy.
  unfold AudioPlayer.in_flight. split; [|split].
  - destruct Hfl as [-> | (-> & _)]; cbn; lia.
  - split.
    + intros Hl. destruct Hfl as [Hnil | (? & _)]; [|done]. by destruct (Hbusy Hl).
    + intros Hlen. destruct Hfl as [Hnil | (_ & ? & _)]; [|done].
      rewrite Hnil in Hlen. done.
  - rewrite AudioPlayerFacts.status_playing. by symmetry.
Qed.

Lemma play_button_keeps_one_request_witness :
  length (AudioPlayer.in_flight (player screen_loading)) ≤ 1
  ∧ (AudioPlayer.isLoading (AudioPlayer.hk (player screen_loading)) = true
     ↔ length (AudioPlayer.in_flight (player screen_loading)) = 1)
  ∧ (is_Some (AudioPlayer.sourceRef (AudioPlayer.hk (player screen_loading)))
     ↔ AudioPlayer.status_of (player screen_loading) = AudioPlayer.Playing).
Proof.
  exact (play_button_keeps_one_request (shell story_shown) [ClickPlayPause] screen_loading
           eq_refl).
Defined.

(** The [catch] of [handlePlayPause] never runs: [onPlayAudio] goes through
    [handlePlayAudio] to [playAudio], which never rejects, so the component
    never shows its own error toast and never resets its play flag on a
    failure; a failed playback is reported by the hook alone. *)
Theorem failed_to_play_is_never_shown (a : App.app) evs s :
  run (mount a AudioPlayer.init) evs = Some s →
  ToastError "Failed to play audio" ∉ toasts (App.out a) →
  ToastError "Failed to play audio" ∉ toasts (App.out (shell s)).
Proof.
  intros Hrun Ha.
  enough (AudioPlayer.resolved_inv (player s)
          ∧ ToastError "Failed to play audio" ∉ toasts (App.out (shell s))) as [_ ?] by done.
  revert Hrun. apply (screen_run_invariant (λ s,
    AudioPlayer.resolved_inv (player s)
    ∧ ToastError "Failed to play audio" ∉ toasts (App.out (shell s)))).
  2: { split; [|done]. intros c k r Hk. done. }
  clear s a Ha. intros s ev s' [Hres Hno] Hstep.
  assert (Hres' : AudioPlayer.resolved_inv (player s')).
  { destruct (step_player _ _ _ Hstep) as [-> | (e & He & _)]; [done|].
    by eapply AudioPlayerFacts.resolved_inv_step. }
  split; [done|].
  assert (Hcont : ∀ c w s0, AudioPlayer.resolved_inv (player s0) →
            continue c w s0 = s0).
  { intros c w s0 Hr. unfold continue, settled_in.
    destruct (AudioPlayer.calls (player s0) !! c) as [k|] eqn:Hk; cbn; [|done].
    destruct (AudioPlayer.call_phase k) as [| | |r] eqn:Hph; try done.
    rewrite (Hr _ _ _ Hk Hph).
    destruct (AudioPlayer.calls w !! c) as [k0|]; [destruct (AudioPlayer.pending k0)|]; done. }
  destruct s as [d a w].
  destruct ev as [| |e]; unfold step, handlePlayPause, handleOnMuteAndUnMute in Hstep;
    cbn -[AudioPlayer.step continue App.handlePlayAudio] in Hstep.
  - destruct (AudioPlayer.isLoading (AudioPlayer.hk w)); [done|].
    destruct (isPlaying d).
    + destruct (currentAudio d); [|by injection Hstep as <-].
      destruct (AudioPlayer.step w AudioPlayer.CallStop); [|done]. by injection Hstep as <-.
    + destruct (handlePlayAudio_spec a) as (a' & Ha' & Hout).
      assert (Hno' : ToastError "Failed to play audio" ∉ toasts (App.out a')).
      { destruct Hout as [-> | ->]; [done|]. cbn in Hno.
        rewrite elem_of_app, list_elem_of_singleton. intros [? | ?]; [done | discriminate]. }
      destruct (App.handlePlayAudio a) as [[[[script theme]|]|e] a0]; cbn in Ha'; subst a0.
      * destruct (AudioPlayer.step w (AudioPlayer.CallPlay script theme)) as [w'|] eqn:Hs;
          [|done]. cbn -[AudioPlayer.step continue] in Hstep. injection Hstep as <-.
        rewrite Hcont; [exact Hno'|]. exact (AudioPlayerFacts.resolved_inv_step _ _ _ Hres Hs).
      * by injection Hstep as <-.
      * by injection Hstep as <-.
  - destruct (AudioPlayer.step w _); [|done]. by injection Hstep as <-.
  - destruct (from_browser e); [|done].
    destruct (AudioPlayer.step w e) as [w'|] eqn:Hs; [|done].
    cbn -[AudioPlayer.step continue] in Hstep.
    injection Hstep as <-.
    destruct (resumed e); [|done].
    rewrite Hcont; [exact Hno|]. exact (AudioPlayerFacts.resolved_inv_step _ _ _ Hres Hs).
Qed.

Lemma failed_to_play_is_never_shown_witness :
  ToastError "Failed to play audio" ∉ toasts (App.out (shell screen_playing)).
Proof.
  apply (failed_to_play_is_never_shown (shell story_shown)
           [ClickPlayPause; Browser (AudioPlayer.fetched 0); Browser (AudioPlayer.decoded 0)]
           screen_playing eq_refl).
  simpl. apply not_elem_of_nil.
Defined.

End StoryDisplayFacts.
